(** * Edit distances of abydos: Levenshtein, OSA, Damerau-Levenshtein, Indel
      and the phonetic edit distance

    Shallow embedding of [abydos/distance/_levenshtein.py] and
    [abydos/distance/_phonetic_edit_distance.py].

    Conventions of the embedding.
    - Python numbers (the edit costs, the distances) are rationals [Q]; a
      Python [int] is the rational [inject_Z z].  Floats are idealised as
      exact rationals.
    - A numpy matrix created with [dtype=np_int] holds integers [Z]; storing
      a number into it truncates toward zero ([trunc]).  A matrix created
      with [dtype=np_float] holds [Q].
    - Python exceptions are the [Raise] results of the error monad [result];
      indexing a sequence or a matrix outside its range raises [IndexError],
      negative indices count from the end, as in Python.
    - [for x in range(a, b)] is [for_each (range a b)], a fold of the loop
      body over the loop state.
    - A zero divisor is modelled as [ZeroDivisionError].
    - The cells of an integer matrix are unbounded integers: the 64-bit
      range of numpy's integers is not modelled. *)

From Stdlib Require Import ZArith QArith Qround Lqa.
From stdpp Require Import base list gmap strings sorting.

Local Open Scope Z_scope.

(** ** The error monad *)

(** [OutOfFuel] is not a Python exception: it is what a [while] loop of the
    model returns when its iteration budget is used up. *)
Inductive exn : Set := IndexError | ValueError | ZeroDivisionError | OutOfFuel.

Inductive result (A : Type) : Type :=
| Ok (a : A)
| Raise (e : exn).
Arguments Ok {A} a.
Arguments Raise {A} e.

#[global] Instance result_ret : MRet result := λ A a, Ok a.
#[global] Instance result_bind : MBind result := λ A B f r,
  match r with
  | Ok a => f a
  | Raise e => Raise e
  end.

(** ** Python numbers *)

(** [int(x)] and the conversion done by a store into an integer matrix. *)
Definition trunc (q : Q) : Z :=
  if Qle_bool 0 q then Qfloor q else Qceiling q.

(** [min(x, y, ...)]: the first of the smallest arguments. *)
Fixpoint py_min (best : Q) (rest : list Q) : Q :=
  match rest with
  | [] => best
  | x :: rest' => py_min (if Qle_bool best x then best else x) rest'
  end.

(** [max(x, y, ...)]: the first of the greatest arguments. *)
Fixpoint py_max (best : Q) (rest : list Q) : Q :=
  match rest with
  | [] => best
  | x :: rest' => py_max (if Qle_bool x best then best else x) rest'
  end.

(** The builtin [max] applied to one list, the default normalizer. *)
Definition py_max_list (l : list Q) : Q :=
  match l with
  | [] => 0%Q
  | x :: l' => py_max x l'
  end.

(** The builtin [sum] applied to one list. *)
Definition py_sum_list (l : list Q) : Q := foldl Qplus 0%Q l.

(** True division [a / b]. *)
Definition truediv (a b : Q) : result Q :=
  if Qeq_bool b 0 then Raise ZeroDivisionError else Ok (a / b)%Q.

(** [sys.maxsize] *)
Definition maxsize : Z := 2 ^ 63 - 1.

(** [len(s)] as a Python number. *)
Definition len {A} (s : list A) : Z := Z.of_nat (length s).
Definition lenQ {A} (s : list A) : Q := inject_Z (len s).

(** ** Sequences and matrices *)

(** Python's index normalisation for a sequence of [n] items. *)
Definition norm_index (n : nat) (i : Z) : result nat :=
  if decide (0 ≤ i < Z.of_nat n) then Ok (Z.to_nat i)
  else if decide (- Z.of_nat n ≤ i < 0) then Ok (Z.to_nat (i + Z.of_nat n))
  else Raise IndexError.

(** [s[i]] *)
Definition getitem {A} (s : list A) (i : Z) : result A :=
  k ← norm_index (length s) i;
  match s !! k with
  | Some x => Ok x
  | None => Raise IndexError
  end.

(** A two-dimensional numpy array, as the list of its rows. *)
Abbreviation ndarray A := (list (list A)).

(** [np_zeros((r, c))] *)
Definition np_zeros {A} (zero : A) (r c : Z) : ndarray A :=
  replicate (Z.to_nat r) (replicate (Z.to_nat c) zero).

(** [m[i, j]] *)
Definition mat_get {A} (m : ndarray A) (i j : Z) : result A :=
  row ← getitem m i; getitem row j.

(** [m[i, j] = v] *)
Definition mat_set {A} (m : ndarray A) (i j : Z) (v : A) : result (ndarray A) :=
  ri ← norm_index (length m) i;
  match m !! ri with
  | None => Raise IndexError
  | Some row =>
      cj ← norm_index (length row) j;
      Ok (<[ri := <[cj := v]> row]> m)
  end.

(** ** Loops *)

(** [range(a, b)] *)
Definition range (a b : Z) : list Z := seqZ a (b - a).

(** [for x in xs: st = body x st] *)
Fixpoint for_each {S} (xs : list Z) (body : Z → S → result S) (st : S)
  : result S :=
  match xs with
  | [] => Ok st
  | x :: xs' => st' ← body x st; for_each xs' body st'
  end.

(** [while cond(st): st = body st], with an iteration budget. *)
Fixpoint while_loop {S} (fuel : nat) (cond : S → bool) (body : S → result S)
    (st : S) : result S :=
  if cond st then
    match fuel with
    | O => Raise OutOfFuel
    | S fuel' => st' ← body st; while_loop fuel' cond body st'
    end
  else Ok st.

(** ** Cost model *)

(** The 4-tuple [(ins_cost, del_cost, sub_cost, trans_cost)]. *)
Definition cost_t : Type := Q * Q * Q * Q.

Definition unit_cost : cost_t := (1%Q, 1%Q, 1%Q, 1%Q).

(** [cost[:2]] *)
Definition cost_ins (cost : cost_t) : Q := let '(i, _, _, _) := cost in i.
Definition cost_del (cost : cost_t) : Q := let '(_, d, _, _) := cost in d.

(** ** [_levenshtein.py] *)

(** [a < b] on Python numbers. *)
Definition Qlt_bool (a b : Q) : bool := negb (Qle_bool b a).

(** The loops of [Levenshtein.dist_abs]. *)
Section LevenshteinLoops.
Context `{Countable A}.

(** The condition of the [osa] branch, with Python's short-circuit [and]. *)
Definition osa_cond (src tar : list A) (i j : Z) : result bool :=
  if negb (bool_decide (i + 1 > 1)) then Ok false
  else if negb (bool_decide (j + 1 > 1)) then Ok false
  else
    si ← getitem src i;
    tj1 ← getitem tar (j - 1);
    if negb (bool_decide (si = tj1)) then Ok false
    else
      si1 ← getitem src (i - 1);
      tj ← getitem tar j;
      Ok (bool_decide (si1 = tj)).

(** The body of the inner loop: one cell of the matrix. *)
Definition lev_cell_body (src tar : list A) (mode : string) (cost : cost_t)
    (i j : Z) (d_mat : ndarray Z) : result (ndarray Z) :=
  let '(ins_cost, del_cost, sub_cost, trans_cost) := cost in
  a ← mat_get d_mat (i + 1) j;
  b ← mat_get d_mat i (j + 1);
  c ← mat_get d_mat i j;
  si ← getitem src i;
  tj ← getitem tar j;
  d_mat ← mat_set d_mat (i + 1) (j + 1)
    (trunc (py_min (inject_Z a + ins_cost)
              [inject_Z b + del_cost;
               inject_Z c + (if bool_decide (si ≠ tj) then sub_cost else 0)])%Q);
  if bool_decide (mode = "osa"%string) then
    t ← osa_cond src tar i j;
    if t : bool then
      x ← mat_get d_mat (i + 1) (j + 1);
      y ← mat_get d_mat (i - 1) (j - 1);
      mat_set d_mat (i + 1) (j + 1)
        (trunc (py_min (inject_Z x) [inject_Z y + trans_cost])%Q)
    else Ok d_mat
  else Ok d_mat.

(** The matrix built by [dist_abs] once the fast paths are passed. *)
Definition lev_matrix (src tar : list A) (mode : string) (cost : cost_t)
  : result (ndarray Z) :=
  let '(ins_cost, del_cost, sub_cost, trans_cost) := cost in
  let d_mat := np_zeros 0 (len src + 1) (len tar + 1) in
  d_mat ← for_each (range 0 (len src + 1))
    (λ i d_mat, mat_set d_mat i 0 (trunc (inject_Z i * del_cost)%Q)) d_mat;
  d_mat ← for_each (range 0 (len tar + 1))
    (λ j d_mat, mat_set d_mat 0 j (trunc (inject_Z j * ins_cost)%Q)) d_mat;
  for_each (range 0 (len src))
    (λ i d_mat,
       for_each (range 0 (len tar))
         (λ j d_mat, lev_cell_body src tar mode cost i j d_mat) d_mat)
    d_mat.

End LevenshteinLoops.

(** The class [Levenshtein]. *)
Module Levenshtein.
Section Methods.
Context `{Countable A}.

(** [Levenshtein.dist_abs] *)
Definition dist_abs (src tar : list A) (mode : string) (cost : cost_t)
  : result Q :=
  let '(ins_cost, del_cost, sub_cost, trans_cost) := cost in
  if bool_decide (src = tar) then Ok 0%Q
  else if bool_decide (src = []) then Ok (lenQ tar * ins_cost)%Q
  else if bool_decide (tar = []) then Ok (lenQ src * del_cost)%Q
  else
    d_mat ← lev_matrix src tar mode cost;
    v ← mat_get d_mat (len src) (len tar);
    Ok (inject_Z v).

(** [Levenshtein.dist]; the function [levenshtein] that it calls is
    [dist_abs] of a new instance. *)
Definition dist (src tar : list A) (mode : string) (cost : cost_t)
  : result Q :=
  if bool_decide (src = tar) then Ok 0%Q
  else
    let ins_cost := cost_ins cost in
    let del_cost := cost_del cost in
    d ← dist_abs src tar mode cost;
    truediv d (py_max (lenQ src * del_cost) [lenQ tar * ins_cost])%Q.

End Methods.
End Levenshtein.

(** The loops of [DamerauLevenshtein.dist_abs]. *)
Section DamerauLoops.
Context `{Countable A}.

(** The first-column loop: [d_mat[i, 0]] for [i] in [range(1, len(src))]. *)
Definition dl_col_body (src tar : list A) (cost : cost_t)
    (i : Z) (d_mat : ndarray Z) : result (ndarray Z) :=
  let '(ins_cost, del_cost, sub_cost, trans_cost) := cost in
  a ← mat_get d_mat (i - 1) 0;
  let del_distance := (inject_Z a + del_cost)%Q in
  let ins_distance := (inject_Z (i + 1) * del_cost + ins_cost)%Q in
  si ← getitem src i;
  t0 ← getitem tar 0;
  let match_distance :=
    (inject_Z i * del_cost + (if bool_decide (si = t0) then 0 else sub_cost))%Q in
  mat_set d_mat i 0 (trunc (py_min del_distance [ins_distance; match_distance])).

(** The first-row loop: [d_mat[0, j]] for [j] in [range(1, len(tar))]. *)
Definition dl_row_body (src tar : list A) (cost : cost_t)
    (j : Z) (d_mat : ndarray Z) : result (ndarray Z) :=
  let '(ins_cost, del_cost, sub_cost, trans_cost) := cost in
  let del_distance := (inject_Z (j + 1) * ins_cost + del_cost)%Q in
  a ← mat_get d_mat 0 (j - 1);
  let ins_distance := (inject_Z a + ins_cost)%Q in
  s0 ← getitem src 0;
  tj ← getitem tar j;
  let match_distance :=
    (inject_Z j * ins_cost + (if bool_decide (s0 = tj) then 0 else sub_cost))%Q in
  mat_set d_mat 0 j (trunc (py_min del_distance [ins_distance; match_distance])).

(** The body of the inner loop of the main double loop.  The loop state is
    the matrix and [max_src_letter_match_index]; the dictionary
    [src_index_by_character] is only read. *)
Definition dl_cell_body (src tar : list A) (cost : cost_t)
    (src_index_by_character : gmap A Z) (i j : Z)
    (st : ndarray Z * Z) : result (ndarray Z * Z) :=
  let '(ins_cost, del_cost, sub_cost, trans_cost) := cost in
  let '(d_mat, max_src_letter_match_index) := st in
  tj ← getitem tar j;
  let candidate_swap_index :=
    match src_index_by_character !! tj with
    | None => -1
    | Some k => k
    end in
  let j_swap := max_src_letter_match_index in
  a ← mat_get d_mat (i - 1) j;
  let del_distance := (inject_Z a + del_cost)%Q in
  b ← mat_get d_mat i (j - 1);
  let ins_distance := (inject_Z b + ins_cost)%Q in
  c ← mat_get d_mat (i - 1) (j - 1);
  si ← getitem src i;
  let match_distance :=
    if bool_decide (si ≠ tj) then (inject_Z c + sub_cost)%Q else inject_Z c in
  let max_src_letter_match_index :=
    if bool_decide (si ≠ tj) then max_src_letter_match_index else j in
  swap_distance ←
    (if bool_decide (candidate_swap_index ≠ -1) && bool_decide (j_swap ≠ -1)
     then
       let i_swap := candidate_swap_index in
       pre_swap_cost ←
         (if bool_decide (i_swap = 0) && bool_decide (j_swap = 0) then Ok 0
          else mat_get d_mat (Z.max 0 (i_swap - 1)) (Z.max 0 (j_swap - 1)));
       Ok (inject_Z pre_swap_cost
           + inject_Z (i - i_swap - 1) * del_cost
           + inject_Z (j - j_swap - 1) * ins_cost
           + trans_cost)%Q
     else Ok (inject_Z maxsize));
  d_mat ← mat_set d_mat i j
    (trunc (py_min del_distance [ins_distance; match_distance; swap_distance]));
  Ok (d_mat, max_src_letter_match_index).

(** The body of the outer loop of the main double loop.  The loop state is
    the matrix and the dictionary. *)
Definition dl_outer_body (src tar : list A) (cost : cost_t) (i : Z)
    (st : ndarray Z * gmap A Z) : result (ndarray Z * gmap A Z) :=
  let '(d_mat, src_index_by_character) := st in
  si ← getitem src i;
  t0 ← getitem tar 0;
  let max_src_letter_match_index := if bool_decide (si = t0) then 0 else -1 in
  '(d_mat, _) ← for_each (range 1 (len tar))
    (dl_cell_body src tar cost src_index_by_character i)
    (d_mat, max_src_letter_match_index);
  si ← getitem src i;
  Ok (d_mat, <[si := i]> src_index_by_character).

(** The matrix built by [dist_abs] after the fast paths and the check of the
    costs. *)
Definition dl_matrix (src tar : list A) (cost : cost_t)
  : result (ndarray Z) :=
  let '(ins_cost, del_cost, sub_cost, trans_cost) := cost in
  let d_mat := np_zeros 0 (len src) (len tar) in
  s0 ← getitem src 0;
  t0 ← getitem tar 0;
  d_mat ←
    (if bool_decide (s0 ≠ t0)
     then mat_set d_mat 0 0 (trunc (py_min sub_cost [ins_cost + del_cost])%Q)
     else Ok d_mat);
  s0 ← getitem src 0;
  let src_index_by_character : gmap A Z := {[ s0 := 0 ]} in
  d_mat ← for_each (range 1 (len src)) (dl_col_body src tar cost) d_mat;
  d_mat ← for_each (range 1 (len tar)) (dl_row_body src tar cost) d_mat;
  '(d_mat, _) ← for_each (range 1 (len src)) (dl_outer_body src tar cost)
    (d_mat, src_index_by_character);
  Ok d_mat.

End DamerauLoops.

(** The class [DamerauLevenshtein]. *)
Module DamerauLevenshtein.
Section Methods.
Context `{Countable A}.

(** [DamerauLevenshtein.dist_abs] *)
Definition dist_abs (src tar : list A) (cost : cost_t) : result Q :=
  let '(ins_cost, del_cost, sub_cost, trans_cost) := cost in
  if bool_decide (src = tar) then Ok 0%Q
  else if bool_decide (src = []) then Ok (lenQ tar * ins_cost)%Q
  else if bool_decide (tar = []) then Ok (lenQ src * del_cost)%Q
  else if Qlt_bool (2 * trans_cost) (ins_cost + del_cost) then Raise ValueError
  else
    d_mat ← dl_matrix src tar cost;
    v ← mat_get d_mat (len src - 1) (len tar - 1);
    Ok (inject_Z v).

(** [DamerauLevenshtein.dist] *)
Definition dist (src tar : list A) (cost : cost_t) : result Q :=
  if bool_decide (src = tar) then Ok 0%Q
  else
    let ins_cost := cost_ins cost in
    let del_cost := cost_del cost in
    d ← dist_abs src tar cost;
    truediv d (py_max (lenQ src * del_cost) [lenQ tar * ins_cost])%Q.

End Methods.
End DamerauLevenshtein.

(** The costs that [Indel.dist_abs] passes to [Levenshtein.dist_abs]. *)
Definition indel_cost : cost_t := (1%Q, 1%Q, 9999%Q, 9999%Q).

(** The class [Indel]. *)
Module Indel.
Section Methods.
Context `{Countable A}.

(** [Indel.dist_abs] *)
Definition dist_abs (src tar : list A) : result Q :=
  Levenshtein.dist_abs src tar "lev" indel_cost.

(** [Indel.dist] *)
Definition dist (src tar : list A) : result Q :=
  if bool_decide (src = tar) then Ok 0%Q
  else
    d ← dist_abs src tar;
    truediv d (inject_Z (len src + len tar)).

End Methods.
End Indel.

(** ** [_phonetic_edit_distance.py] *)

(** The instance and the loops of the class [PhoneticEditDistance]. *)
Section PhoneticLoops.
Context `{EqDecision A}.

(** The gap marker ['-'] of the alignment. *)
Variable gap : A.

(** The type of the [weights] argument, and [cmp_features], imported from
    [abydos.phones._phones], which grades the agreement of two feature codes
    under the weights. *)
Variable W : Type.
Variable cmp_features : Z → Z → W → Q.

(** The attributes set by [__init__]. *)
Record PhoneticEditDistance : Type := {
  _mode : string;
  _cost : cost_t;
  _normalizer : list Q → Q;
  _weights : W;
}.

(** The body of the inner loop of [_alignment_matrix]; [src] and [tar] are
    the feature lists.  The condition of the [osa] branch is the one of
    [Levenshtein.dist_abs], [osa_cond], on the feature codes. *)
Definition ped_cell_body (self : PhoneticEditDistance) (src tar : list Z)
    (i j : Z) (d_mat : ndarray Q) : result (ndarray Q) :=
  let '(ins_cost, del_cost, sub_cost, trans_cost) := _cost self in
  a ← mat_get d_mat (i + 1) j;
  b ← mat_get d_mat i (j + 1);
  c ← mat_get d_mat i j;
  si ← getitem src i;
  tj ← getitem tar j;
  sub ←
    (if bool_decide (si ≠ tj) then
       si ← getitem src i;
       ti ← getitem tar i;
       Ok (sub_cost * (1 - cmp_features si ti (_weights self)))%Q
     else Ok 0%Q);
  d_mat ← mat_set d_mat (i + 1) (j + 1)
    (py_min (a + ins_cost) [b + del_cost; c + sub])%Q;
  if bool_decide (_mode self = "osa"%string) then
    t ← osa_cond src tar i j;
    if t : bool then
      x ← mat_get d_mat (i + 1) (j + 1);
      y ← mat_get d_mat (i - 1) (j - 1);
      mat_set d_mat (i + 1) (j + 1) (py_min x [y + trans_cost])%Q
    else Ok d_mat
  else Ok d_mat.

(** The state of the loops of [alignment]:
    [(src_pos, tar_pos, src_aligned, tar_aligned)]. *)
Definition walk_state : Type := Z * Z * list A * list A.

(** [while src_pos and tar_pos] *)
Definition walk_cond (st : walk_state) : bool :=
  let '(src_pos, tar_pos, _, _) := st in
  bool_decide (src_pos ≠ 0) && bool_decide (tar_pos ≠ 0).

(** The body of the first loop; the call of [print] is left out. *)
Definition walk_body (d_mat : ndarray Q) (src tar : list A)
    (st : walk_state) : result walk_state :=
  let '(src_pos, tar_pos, src_aligned, tar_aligned) := st in
  up ← mat_get d_mat src_pos (tar_pos - 1);
  left ← mat_get d_mat (src_pos - 1) tar_pos;
  diag ← mat_get d_mat (src_pos - 1) (tar_pos - 1);
  if Qle_bool diag (py_min up [left]) then
    let src_pos := src_pos - 1 in
    let tar_pos := tar_pos - 1 in
    s ← getitem src src_pos;
    t ← getitem tar tar_pos;
    Ok (src_pos, tar_pos, src_aligned ++ [s], tar_aligned ++ [t])
  else if Qle_bool up left then
    let tar_pos := tar_pos - 1 in
    t ← getitem tar tar_pos;
    Ok (src_pos, tar_pos, src_aligned ++ [gap], tar_aligned ++ [t])
  else
    let src_pos := src_pos - 1 in
    s ← getitem src src_pos;
    Ok (src_pos, tar_pos, src_aligned ++ [s], tar_aligned ++ [gap]).

(** [while tar_pos] *)
Definition tar_rest_cond (st : walk_state) : bool :=
  let '(_, tar_pos, _, _) := st in bool_decide (tar_pos ≠ 0).

Definition tar_rest_body (tar : list A) (st : walk_state)
  : result walk_state :=
  let '(src_pos, tar_pos, src_aligned, tar_aligned) := st in
  let tar_pos := tar_pos - 1 in
  t ← getitem tar tar_pos;
  Ok (src_pos, tar_pos, src_aligned ++ [gap], tar_aligned ++ [t]).

(** [while src_pos] *)
Definition src_rest_cond (st : walk_state) : bool :=
  let '(src_pos, _, _, _) := st in bool_decide (src_pos ≠ 0).

Definition src_rest_body (src : list A) (st : walk_state)
  : result walk_state :=
  let '(src_pos, tar_pos, src_aligned, tar_aligned) := st in
  let src_pos := src_pos - 1 in
  s ← getitem src src_pos;
  Ok (src_pos, tar_pos, src_aligned ++ [s], tar_aligned ++ [gap]).

(** The three loops of [alignment] on a given matrix. *)
Definition backtrace (fuel : nat) (d_mat : ndarray Q) (src tar : list A)
  : result walk_state :=
  st ← while_loop fuel walk_cond (walk_body d_mat src tar)
         (len src, len tar, [], []);
  st ← while_loop fuel tar_rest_cond (tar_rest_body tar) st;
  while_loop fuel src_rest_cond (src_rest_body src) st.

End PhoneticLoops.

(** The methods of the class [PhoneticEditDistance]. *)
Module PhoneticEditDistance.
Section Methods.
Context `{EqDecision A}.

(** The gap marker ['-'] of the alignment. *)
Variable gap : A.

(** The functions imported from [abydos.phones._phones], which the distance
    only calls: [ipa_to_features] turns a string into the list of the feature
    codes of its phones, [cmp_features] grades the agreement of two feature
    codes under the weights.  [W] is the type of the [weights] argument. *)
Variable W : Type.
Variable ipa_to_features : list A → list Z.
Variable cmp_features : Z → Z → W → Q.

(** [PhoneticEditDistance._alignment_matrix] *)
Definition _alignment_matrix (self : PhoneticEditDistance W) (src tar : list A)
  : result (ndarray Q) :=
  let '(ins_cost, del_cost, sub_cost, trans_cost) := _cost W self in
  let src_len := len src in
  let tar_len := len tar in
  let src := ipa_to_features src in
  let tar := ipa_to_features tar in
  let d_mat := np_zeros 0%Q (src_len + 1) (tar_len + 1) in
  d_mat ← for_each (range 0 (src_len + 1))
    (λ i d_mat, mat_set d_mat i 0 (inject_Z i * del_cost)%Q) d_mat;
  d_mat ← for_each (range 0 (tar_len + 1))
    (λ j d_mat, mat_set d_mat 0 j (inject_Z j * ins_cost)%Q) d_mat;
  for_each (range 0 src_len)
    (λ i d_mat,
       for_each (range 0 tar_len)
         (λ j d_mat, ped_cell_body W cmp_features self src tar i j d_mat) d_mat)
    d_mat.

(** [PhoneticEditDistance.alignment].  Every iteration of the three loops
    lowers [src_pos + tar_pos], so [len(src) + len(tar)] iterations are
    enough for each of them. *)
Definition alignment (self : PhoneticEditDistance W) (src tar : list A)
  : result (Q * list A * list A) :=
  d_mat ← _alignment_matrix self src tar;
  distance ← mat_get d_mat (len src) (len tar);
  '(_, _, src_aligned, tar_aligned) ←
    backtrace gap (length src + length tar) d_mat src tar;
  Ok (distance, reverse src_aligned, reverse tar_aligned).

(** [PhoneticEditDistance.dist_abs] *)
Definition dist_abs (self : PhoneticEditDistance W) (src tar : list A)
  : result Q :=
  let '(ins_cost, del_cost, sub_cost, trans_cost) := _cost W self in
  let src_len := lenQ src in
  let tar_len := lenQ tar in
  if bool_decide (src = tar) then Ok 0%Q
  else if bool_decide (src = []) then Ok (ins_cost * tar_len)%Q
  else if bool_decide (tar = []) then Ok (del_cost * src_len)%Q
  else
    d_mat ← _alignment_matrix self src tar;
    v ← mat_get d_mat (len src) (len tar);
    if Qeq_bool (inject_Z (trunc v)) v then Ok (inject_Z (trunc v)) else Ok v.

(** [PhoneticEditDistance.dist] *)
Definition dist (self : PhoneticEditDistance W) (src tar : list A)
  : result Q :=
  if bool_decide (src = tar) then Ok 0%Q
  else
    let ins_cost := cost_ins (_cost W self) in
    let del_cost := cost_del (_cost W self) in
    let src_len := lenQ src in
    let tar_len := lenQ tar in
    let normalize_term :=
      _normalizer W self [src_len * del_cost; tar_len * ins_cost]%Q in
    d ← dist_abs self src tar;
    truediv d normalize_term.

End Methods.
End PhoneticEditDistance.

(** The constructor of the class [PhoneticEditDistance]. *)

(** The [weights] argument of [__init__]: [None], a list or a tuple of
    numbers, or a dictionary from feature names to numbers. *)
Inductive weights_arg : Type :=
  | WNone
  | WSeq (l : list Q)
  | WDict (d : gmap string Q).

(** The truth value of the argument in [if weights:]: [None] and the empty
    containers are false. *)
Definition weights_truthy (w : weights_arg) : bool :=
  match w with
  | WNone => false
  | WSeq l => negb (bool_decide (l = []))
  | WDict d => negb (bool_decide (d = ∅))
  end.

(** [sorted(d, key=d.get, reverse=True)] on the items of a dictionary in
    the order of its keys: a stable sort by decreasing value. *)
Fixpoint insert_desc (x : string * Z) (l : list (string * Z))
  : list (string * Z) :=
  match l with
  | [] => [x]
  | y :: l' =>
      if bool_decide (x.2 < y.2) then y :: insert_desc x l' else x :: l
  end.

Definition sorted_desc (l : list (string * Z)) : list (string * Z) :=
  foldr insert_desc [] l.

Section PhoneticInit.

(** The dictionary [_FEATURE_MASK] of [abydos.phones._phones], from the
    names of the features to their bit masks, as the list of its items. *)
Variable _FEATURE_MASK : list (string * Z).

(** The names of the features by decreasing mask. *)
Definition features_by_mask : list string := (sorted_desc _FEATURE_MASK).*1.

(** [PhoneticEditDistance.__init__] *)
Definition __init__ (mode : string) (cost : cost_t)
    (normalizer : list Q → Q) (weights : weights_arg)
  : PhoneticEditDistance weights_arg :=
  let weights :=
    if weights_truthy weights then
      match weights with
      | WDict d =>
          WSeq ((λ feature, default 0%Q (d !! feature)) <$> features_by_mask)
      | WSeq l =>
          WSeq (l ++ replicate (Z.to_nat (len _FEATURE_MASK - len l)) 0%Q)
      | WNone => weights
      end
    else weights in
  {| _mode := mode; _cost := cost; _normalizer := normalizer;
     _weights := weights |}.

End PhoneticInit.

(** A Python [str] literal as the sequence of its characters. *)
Definition str (s : string) : list Ascii.ascii := String.list_ascii_of_string s.

(** The examples of the docstrings of [_levenshtein.py]. *)
Example docstring_examples :
  DamerauLevenshtein.dist_abs (str "cat") (str "hat") unit_cost = Ok 1%Q
  ∧ DamerauLevenshtein.dist_abs (str "ATCG") (str "TAGC") unit_cost = Ok 2%Q
  ∧ DamerauLevenshtein.dist_abs (str "Niall") (str "Neil") unit_cost = Ok 3%Q
  ∧ DamerauLevenshtein.dist_abs (str "aluminum") (str "Catalan") unit_cost = Ok 7%Q
  ∧ Levenshtein.dist_abs (str "ATCG") (str "TAGC") "lev" unit_cost = Ok 3%Q
  ∧ Levenshtein.dist_abs (str "ATCG") (str "TAGC") "osa" unit_cost = Ok 2%Q
  ∧ Levenshtein.dist_abs (str "ACTG") (str "TAGC") "osa" unit_cost = Ok 4%Q
  ∧ Indel.dist_abs (str "Colin") (str "Cuilen") = Ok 5%Q
  ∧ Indel.dist (str "Colin") (str "Cuilen") = Ok (5 # 11)%Q.
Proof. vm_compute. repeat split. Qed.

(** * Properties of the embedding *)

(** ** The error monad and the loops *)

Lemma range_nil a b : b ≤ a → range a b = [].
Proof. intros Hab. unfold range, seqZ. replace (Z.to_nat (b - a)) with O by lia. reflexivity. Qed.

Lemma range_cons a b : a < b → range a b = a :: range (a + 1) b.
Proof.
  intros Hab. unfold range. rewrite seqZ_cons by lia.
  f_equal. f_equal; lia.
Qed.

(** A loop over [range(a, b)] whose body keeps an invariant runs to its end
    and establishes the invariant at [b]. *)
Lemma for_range_inv {S} (P : Z → S → Prop) (a b : Z)
    (body : Z → S → result S) (st : S) :
  a ≤ b →
  P a st →
  (∀ k s, a ≤ k < b → P k s → ∃ s', body k s = Ok s' ∧ P (k + 1) s') →
  ∃ s', for_each (range a b) body st = Ok s' ∧ P b s'.
Proof.
  intros Hab. remember (Z.to_nat (b - a)) as n eqn:Hn.
  revert a st Hab Hn. induction n as [|n IH]; intros a st Hab Hn HP Hstep.
  - assert (a = b) as -> by lia. rewrite range_nil by lia. eauto.
  - rewrite range_cons by lia. cbn.
    destruct (Hstep a st) as (s' & -> & HP'); [lia | done |]. cbn.
    apply IH; [lia | lia | done |].
    intros k s Hk. apply Hstep. lia.
Qed.

(** ** Indexing *)

Lemma getitem_lookup {A} (s : list A) (i : Z) (x : A) :
  0 ≤ i → s !! Z.to_nat i = Some x → getitem s i = Ok x.
Proof.
  intros Hi Hx. unfold getitem, norm_index.
  pose proof (lookup_lt_Some _ _ _ Hx) as Hlt.
  rewrite decide_True by lia. cbn. rewrite Hx. reflexivity.
Qed.

Lemma getitem_in_range {A} (s : list A) (i : Z) :
  0 ≤ i < len s → ∃ x, s !! Z.to_nat i = Some x ∧ getitem s i = Ok x.
Proof.
  intros Hi. unfold len in Hi.
  destruct (lookup_lt_is_Some_2 s (Z.to_nat i)) as [x Hx]; [lia |].
  exists x. split; [done |]. apply getitem_lookup; [lia | done].
Qed.

Lemma getitem_out_of_range {A} (s : list A) (i : Z) :
  len s ≤ i → getitem s i = Raise IndexError.
Proof.
  intros Hi. unfold len in Hi. unfold getitem, norm_index.
  rewrite decide_False by lia. rewrite decide_False by lia. reflexivity.
Qed.

(** ** Matrices *)

(** [shape m r c]: [m] has [r] rows of [c] cells. *)
Definition shape {A} (m : ndarray A) (r c : Z) : Prop :=
  len m = r ∧ ∀ k row, m !! k = Some row → len row = c.

(** The content of cell [(i, j)], [d] outside the matrix. *)
Definition cell {A} (d : A) (m : ndarray A) (i j : Z) : A :=
  if decide (0 ≤ i ∧ 0 ≤ j)
  then default d (m !! Z.to_nat i ≫= (.!! Z.to_nat j))
  else d.

Lemma shape_zeros {A} (z : A) (r c : Z) :
  0 ≤ r → 0 ≤ c → shape (np_zeros z r c) r c.
Proof.
  intros Hr Hc. unfold shape, np_zeros, len. split.
  - rewrite length_replicate. lia.
  - intros k row [-> _]%lookup_replicate. rewrite length_replicate. lia.
Qed.

Lemma cell_zeros {A} (z : A) (r c i j : Z) : cell z (np_zeros z r c) i j = z.
Proof.
  unfold cell, np_zeros. case_decide; [| done].
  destruct (replicate (Z.to_nat r) (replicate (Z.to_nat c) z) !! Z.to_nat i)
    as [row|] eqn:E; [| reflexivity].
  apply lookup_replicate in E as [-> _]. cbn.
  destruct (replicate (Z.to_nat c) z !! Z.to_nat j) as [x|] eqn:E;
    [| reflexivity].
  apply lookup_replicate in E as [-> _]. reflexivity.
Qed.

Lemma mat_get_ok {A} (d : A) (m : ndarray A) (r c i j : Z) :
  shape m r c → 0 ≤ i < r → 0 ≤ j < c →
  mat_get m i j = Ok (cell d m i j).
Proof.
  intros [Hr Hc] Hi Hj. unfold mat_get.
  destruct (getitem_in_range m i) as (row & Hrow & ->); [lia |]. cbn.
  specialize (Hc _ _ Hrow).
  destruct (getitem_in_range row j) as (x & Hx & ->); [lia |].
  unfold cell. rewrite decide_True by lia. rewrite Hrow. cbn. rewrite Hx. done.
Qed.

Lemma mat_set_ok {A} (d : A) (m : ndarray A) (r c i j : Z) (v : A) :
  shape m r c → 0 ≤ i < r → 0 ≤ j < c →
  ∃ m', mat_set m i j v = Ok m'
        ∧ shape m' r c
        ∧ cell d m' i j = v
        ∧ ∀ i' j', i' ≠ i ∨ j' ≠ j → cell d m' i' j' = cell d m i' j'.
Proof.
  intros [Hr Hc] Hi Hj. unfold mat_set, norm_index.
  unfold len in Hr. rewrite decide_True by lia. cbn.
  destruct (lookup_lt_is_Some_2 m (Z.to_nat i)) as [row Hrow]; [lia |].
  rewrite Hrow. pose proof (Hc _ _ Hrow) as Hlen. unfold len in Hlen.
  rewrite decide_True by lia. cbn.
  eexists. split; [reflexivity |]. split; [| split].
  - split.
    + unfold len. rewrite length_insert. done.
    + intros k row' Hk.
      destruct (decide (k = Z.to_nat i)) as [-> | Hne].
      * rewrite list_lookup_insert_eq in Hk by lia.
        injection Hk as <-. unfold len. rewrite length_insert. done.
      * rewrite list_lookup_insert_ne in Hk by done. eauto.
  - unfold cell. rewrite decide_True by lia.
    rewrite list_lookup_insert_eq by lia. cbn.
    rewrite list_lookup_insert_eq by lia. done.
  - intros i' j' Hne. unfold cell. case_decide as Hpos; [| done].
    destruct (decide (Z.to_nat i' = Z.to_nat i)) as [Heq | Hnei].
    + rewrite Heq. rewrite list_lookup_insert_eq by lia. rewrite Hrow. cbn.
      rewrite list_lookup_insert_ne by lia. done.
    + rewrite list_lookup_insert_ne by done. done.
Qed.

(** ** Python numbers *)

Lemma Qle_bool_true (a b : Q) : Qle_bool a b = true → (a <= b)%Q.
Proof. apply Qle_bool_iff. Qed.

Lemma Qle_bool_false (a b : Q) : Qle_bool a b = false → (b < a)%Q.
Proof.
  intros E. apply Qnot_le_lt. intros Hle.
  apply Qle_bool_iff in Hle. congruence.
Qed.

(** Case analysis on every comparison of the goal. *)
Ltac qcases :=
  repeat match goal with
    | |- context [Qle_bool ?a ?b] =>
        let E := fresh "E" in
        destruct (Qle_bool a b) eqn:E;
        [apply Qle_bool_true in E | apply Qle_bool_false in E]
    end.

#[global] Instance trunc_comp : Proper (Qeq ==> eq) trunc.
Proof.
  intros x y Hxy. unfold trunc.
  rewrite (Qfloor_comp _ _ Hxy), (Qceiling_comp _ _ Hxy).
  qcases; try reflexivity; lra.
Qed.

Lemma trunc_inject (z : Z) : trunc (inject_Z z) = z.
Proof. unfold trunc. rewrite Qfloor_Z, Qceiling_Z. by destruct (Qle_bool _ _). Qed.

Lemma trunc_mono (x y : Q) : (x <= y)%Q → trunc x ≤ trunc y.
Proof.
  intros Hxy. unfold trunc. qcases.
  - by apply Qfloor_resp_le.
  - lra.
  - transitivity 0.
    + rewrite <- (Qceiling_Z 0). apply Qceiling_resp_le.
      change (inject_Z 0) with 0%Q. lra.
    + rewrite <- (Qfloor_Z 0) at 1. apply Qfloor_resp_le.
      change (inject_Z 0) with 0%Q. lra.
  - by apply Qceiling_resp_le.
Qed.

Lemma trunc_nonneg (x : Q) : (0 <= x)%Q → 0 ≤ trunc x.
Proof. intros Hx. rewrite <- (trunc_inject 0). by apply trunc_mono. Qed.

Lemma py_min_comp (x x' : Q) (l l' : list Q) :
  (x == x')%Q → Forall2 Qeq l l' → (py_min x l == py_min x' l')%Q.
Proof.
  intros Hx Hl. revert x x' Hx.
  induction Hl as [| y y' l l' Hy Hl IH]; intros x x' Hx; cbn; [done |].
  apply IH. qcases; lra.
Qed.

Lemma py_min_swap (x y : Q) (l : list Q) :
  (py_min x (y :: l) == py_min y (x :: l))%Q.
Proof.
  cbn. apply py_min_comp; [| apply Forall2_same_length_lookup_2; [done|]].
  - qcases; lra.
  - intros i a b Ha Hb. rewrite Ha in Hb. injection Hb as ->. reflexivity.
Qed.

Lemma py_min_le_best (x : Q) (l : list Q) : (py_min x l <= x)%Q.
Proof.
  revert x. induction l as [| y l IH]; intros x; cbn; [lra |].
  eapply Qle_trans; [apply IH |]. qcases; lra.
Qed.

Lemma py_min_le_elem (x y : Q) (l : list Q) : y ∈ l → (py_min x l <= y)%Q.
Proof.
  revert x. induction l as [| z l IH]; intros x Hy; [by apply elem_of_nil in Hy |].
  apply elem_of_cons in Hy as [-> | Hy]; cbn.
  - eapply Qle_trans; [apply py_min_le_best |]. qcases; lra.
  - by apply IH.
Qed.

Lemma py_min_lower (lo x : Q) (l : list Q) :
  (lo <= x)%Q → Forall (Qle lo) l → (lo <= py_min x l)%Q.
Proof.
  intros Hx Hl. revert x Hx.
  induction Hl as [| y l Hy Hl IH]; intros x Hx; cbn; [done |].
  apply IH. by qcases.
Qed.
(** ** The matrix of [Levenshtein.dist_abs] *)

Section LevenshteinMatrix.
Context `{Countable A}.
Implicit Types (src tar : list A) (f : Z → Z → Z) (cost : cost_t).

(** The symbol at index [i], [None] outside the sequence. *)
Definition sym (s : list A) (i : Z) : option A :=
  if decide (0 ≤ i) then s !! Z.to_nat i else None.

Lemma getitem_sym (s : list A) (i : Z) :
  0 ≤ i < len s → ∃ x, sym s i = Some x ∧ getitem s i = Ok x.
Proof.
  intros Hi. destruct (getitem_in_range s i Hi) as (x & Hx & Hg).
  exists x. split; [| done]. unfold sym. by rewrite decide_True by lia.
Qed.

Lemma bool_decide_Some_eq (x y : A) :
  bool_decide (Some x = Some y) = bool_decide (x = y).
Proof. apply bool_decide_ext. split; congruence. Qed.

Lemma bool_decide_Some_ne (x y : A) :
  bool_decide (Some x ≠ Some y) = bool_decide (x ≠ y).
Proof. apply bool_decide_ext. split; congruence. Qed.

(** The guard of the transposition step, on indices in range. *)
Definition osa_guard src tar (i j : Z) : bool :=
  bool_decide (1 ≤ i) && bool_decide (1 ≤ j)
  && bool_decide (sym src i = sym tar (j - 1))
  && bool_decide (sym src (i - 1) = sym tar j).

(** The value stored in cell [(i + 1, j + 1)] by the body of the double
    loop, from the cells [f] stored before. *)
Definition lev_recurrence src tar (mode : string) cost f (i j : Z) : Z :=
  let '(ins_cost, del_cost, sub_cost, trans_cost) := cost in
  let a := f (i + 1) j in
  let b := f i (j + 1) in
  let c := f i j in
  let y := f (i - 1) (j - 1) in
  let v :=
    trunc (py_min (inject_Z a + ins_cost)
             [inject_Z b + del_cost;
              inject_Z c
              + (if bool_decide (sym src i ≠ sym tar j) then sub_cost else 0)])%Q
  in
  if bool_decide (mode = "osa"%string) && osa_guard src tar i j
  then trunc (py_min (inject_Z v) [inject_Z y + trans_cost])%Q
  else v.

(** [lev_filled src tar mode cost f]: the cells [f] are those of the
    matrix of [src] and [tar], every one truncated to an integer. *)
Definition lev_filled src tar (mode : string) cost f : Prop :=
  (∀ i, 0 ≤ i ≤ len src → f i 0 = trunc (inject_Z i * cost_del cost)%Q)
  ∧ (∀ j, 0 ≤ j ≤ len tar → f 0 j = trunc (inject_Z j * cost_ins cost)%Q)
  ∧ (∀ i j, 0 ≤ i < len src → 0 ≤ j < len tar →
       f (i + 1) (j + 1) = lev_recurrence src tar mode cost f i j).

Lemma osa_cond_ok src tar (i j : Z) :
  0 ≤ i < len src → 0 ≤ j < len tar →
  osa_cond src tar i j = Ok (osa_guard src tar i j).
Proof.
  intros Hi Hj. unfold osa_cond, osa_guard.
  destruct (decide (1 ≤ i)) as [Hi1 | Hi1]; cycle 1.
  { rewrite (bool_decide_eq_false_2 (i + 1 > 1)) by lia.
    by rewrite (bool_decide_eq_false_2 (1 ≤ i)) by lia. }
  rewrite (bool_decide_eq_true_2 (i + 1 > 1)) by lia.
  rewrite (bool_decide_eq_true_2 (1 ≤ i)) by lia.
  destruct (decide (1 ≤ j)) as [Hj1 | Hj1]; cycle 1.
  { rewrite (bool_decide_eq_false_2 (j + 1 > 1)) by lia.
    by rewrite (bool_decide_eq_false_2 (1 ≤ j)) by lia. }
  rewrite (bool_decide_eq_true_2 (j + 1 > 1)) by lia.
  rewrite (bool_decide_eq_true_2 (1 ≤ j)) by lia. cbn.
  destruct (getitem_sym src i) as (si & -> & ->); [lia |].
  destruct (getitem_sym tar (j - 1)) as (tj1 & -> & ->); [lia |].
  destruct (getitem_sym src (i - 1)) as (si1 & -> & ->); [lia |].
  destruct (getitem_sym tar j) as (tj & -> & ->); [lia |]. cbn.
  rewrite !bool_decide_Some_eq.
  by destruct (bool_decide (si = tj1)).
Qed.

Lemma lev_recurrence_ext src tar mode cost f g (i j : Z) :
  f (i + 1) j = g (i + 1) j → f i (j + 1) = g i (j + 1) → f i j = g i j →
  f (i - 1) (j - 1) = g (i - 1) (j - 1) →
  lev_recurrence src tar mode cost f i j = lev_recurrence src tar mode cost g i j.
Proof.
  intros H1 H2 H3 H4. unfold lev_recurrence.
  destruct cost as [[[ins_cost del_cost] sub_cost] trans_cost].
  by rewrite H1, H2, H3, H4.
Qed.

(** One run of the body of the inner loop fills cell [(i + 1, j + 1)] by
    the recurrence and changes no other cell. *)
Lemma lev_cell_body_ok src tar mode cost (i j : Z) (m : ndarray Z) :
  shape m (len src + 1) (len tar + 1) →
  0 ≤ i < len src → 0 ≤ j < len tar →
  ∃ m', lev_cell_body src tar mode cost i j m = Ok m'
        ∧ shape m' (len src + 1) (len tar + 1)
        ∧ cell 0 m' (i + 1) (j + 1)
          = lev_recurrence src tar mode cost (cell 0 m) i j
        ∧ ∀ i' j', i' ≠ i + 1 ∨ j' ≠ j + 1 → cell 0 m' i' j' = cell 0 m i' j'.
Proof.
  intros Hsh Hi Hj. unfold lev_cell_body, lev_recurrence.
  destruct cost as [[[ins_cost del_cost] sub_cost] trans_cost].
  rewrite !(mat_get_ok 0 m _ _ _ _ Hsh) by lia. cbn.
  destruct (getitem_sym src i) as (si & -> & ->); [lia |].
  destruct (getitem_sym tar j) as (tj & -> & ->); [lia |]. cbn.
  rewrite bool_decide_Some_ne.
  set (v := trunc _).
  destruct (mat_set_ok 0 m _ _ (i + 1) (j + 1) v Hsh)
    as (m1 & -> & Hsh1 & Hv1 & Hfr1); [lia | lia |]. cbn.
  destruct (bool_decide (mode = "osa"%string)); cbn; [| by eauto].
  rewrite osa_cond_ok by lia. cbn.
  destruct (osa_guard src tar i j) eqn:Hg; [| by eauto].
  assert (1 ≤ i ∧ 1 ≤ j) as [Hi1 Hj1].
  { unfold osa_guard in Hg.
    apply andb_prop in Hg as [[[Hg1 Hg2]%andb_prop _]%andb_prop _].
    apply bool_decide_eq_true_1 in Hg1, Hg2. done. }
  rewrite !(mat_get_ok 0 m1 _ _ _ _ Hsh1) by lia. cbn.
  rewrite Hv1, Hfr1 by lia.
  set (v2 := trunc _).
  destruct (mat_set_ok 0 m1 _ _ (i + 1) (j + 1) v2 Hsh1)
    as (m2 & -> & Hsh2 & Hv2 & Hfr2); [lia | lia |].
  exists m2. split; [done |]. split; [done |]. split; [done |].
  intros i' j' Hne. by rewrite Hfr2, Hfr1.
Qed.

Lemma trunc_zero_mul (q : Q) : trunc (inject_Z 0 * q)%Q = 0.
Proof.
  rewrite <- (trunc_inject 0) at 2. apply trunc_comp.
  change (inject_Z 0) with 0%Q. ring.
Qed.

(** The invariant of the double loop: the borders are set and the cells
    before [(i + 1, j + 1)], in the order of the loops, follow the
    recurrence. *)
Definition lev_inv src tar (mode : string) cost (i j : Z) (m : ndarray Z)
  : Prop :=
  shape m (len src + 1) (len tar + 1)
  ∧ (∀ i', 0 ≤ i' ≤ len src →
       cell 0 m i' 0 = trunc (inject_Z i' * cost_del cost)%Q)
  ∧ (∀ j', 0 ≤ j' ≤ len tar →
       cell 0 m 0 j' = trunc (inject_Z j' * cost_ins cost)%Q)
  ∧ (∀ i' j', 0 ≤ i' → 0 ≤ j' < len tar → i' < i ∨ (i' = i ∧ j' < j) →
       cell 0 m (i' + 1) (j' + 1)
       = lev_recurrence src tar mode cost (cell 0 m) i' j').

Lemma lev_inv_step src tar mode cost (i j : Z) (m : ndarray Z) :
  0 ≤ i < len src → 0 ≤ j < len tar →
  lev_inv src tar mode cost i j m →
  ∃ m', lev_cell_body src tar mode cost i j m = Ok m'
        ∧ lev_inv src tar mode cost i (j + 1) m'.
Proof.
  intros Hi Hj (Hsh & Hcol & Hrow & Hrec).
  destruct (lev_cell_body_ok src tar mode cost i j m Hsh Hi Hj)
    as (m' & Hrun & Hsh' & Hnew & Hfr).
  exists m'. split; [done |]. split; [done |]. split; [| split].
  - intros i' Hi'. rewrite Hfr by lia. by apply Hcol.
  - intros j' Hj'. rewrite Hfr by lia. by apply Hrow.
  - intros i' j' Hi' Hj' Hlt.
    destruct (decide (i' = i ∧ j' = j)) as [[-> ->] | Hne].
    + rewrite Hnew. apply lev_recurrence_ext; symmetry; apply Hfr; lia.
    + rewrite Hfr by lia. rewrite Hrec by lia.
      apply lev_recurrence_ext; symmetry; apply Hfr; lia.
Qed.

(** [lev_matrix] never raises, and the matrix it returns is filled by the
    recurrence. *)
Lemma lev_matrix_filled src tar mode cost :
  ∃ m, lev_matrix src tar mode cost = Ok m
       ∧ shape m (len src + 1) (len tar + 1)
       ∧ lev_filled src tar mode cost (cell 0 m).
Proof.
  unfold lev_matrix.
  assert (0 ≤ len src ∧ 0 ≤ len tar) as [Hn Hm] by (unfold len; lia).
  pose proof (shape_zeros (0 : Z) (len src + 1) (len tar + 1)
                ltac:(lia) ltac:(lia)) as Hsh0.
  destruct cost as [[[ins_cost del_cost] sub_cost] trans_cost] eqn:Hcost.
  (* first column *)
  edestruct (for_range_inv
    (λ k (m : ndarray Z), shape m (len src + 1) (len tar + 1)
       ∧ ∀ i, 0 ≤ i < k → cell 0 m i 0 = trunc (inject_Z i * del_cost)%Q)
    0 (len src + 1)) as (m1 & -> & Hsh1 & Hcol1); [lia | | |].
  { split; [exact Hsh0 | intros; lia]. }
  { intros k m Hk [Hsh Hc].
    destruct (mat_set_ok 0 m _ _ k 0 (trunc (inject_Z k * del_cost)%Q) Hsh)
      as (m' & -> & Hsh' & Hv & Hfr); [lia.. |].
    exists m'. split; [done |]. split; [done |].
    intros i Hi. destruct (decide (i = k)) as [-> | Hne]; [done |].
    rewrite Hfr by lia. apply Hc. lia. }
  cbn.
  (* first row *)
  edestruct (for_range_inv
    (λ k (m : ndarray Z), shape m (len src + 1) (len tar + 1)
       ∧ (∀ i, 1 ≤ i ≤ len src → cell 0 m i 0 = trunc (inject_Z i * del_cost)%Q)
       ∧ ∀ j, 0 ≤ j < k → cell 0 m 0 j = trunc (inject_Z j * ins_cost)%Q)
    0 (len tar + 1)) as (m2 & -> & Hsh2 & Hcol2 & Hrow2); [lia | | |].
  { split; [exact Hsh1 |]. split; [| intros; lia]. intros i Hi. apply Hcol1. lia. }
  { intros k m Hk (Hsh & Hc & Hr).
    destruct (mat_set_ok 0 m _ _ 0 k (trunc (inject_Z k * ins_cost)%Q) Hsh)
      as (m' & -> & Hsh' & Hv & Hfr); [lia.. |].
    exists m'. split; [done |]. split; [done |]. split.
    - intros i Hi. rewrite Hfr by lia. by apply Hc.
    - intros j Hj. destruct (decide (j = k)) as [-> | Hne]; [done |].
      rewrite Hfr by lia. apply Hr. lia. }
  cbn.
  (* the double loop *)
  edestruct (for_range_inv
    (λ i (m : ndarray Z),
       lev_inv src tar mode (ins_cost, del_cost, sub_cost, trans_cost) i 0 m)
    0 (len src)) as (m3 & -> & Hsh3 & Hcol3 & Hrow3 & Hrec3); [lia | | |].
  { split; [exact Hsh2 |]. split; [| split].
    - intros i Hi. cbn. destruct (decide (i = 0)) as [-> | Hne].
      + rewrite Hrow2 by lia. by rewrite !trunc_zero_mul.
      + apply Hcol2. lia.
    - intros j Hj. cbn. apply Hrow2. lia.
    - intros; lia. }
  { intros i m Hi Hinv.
    edestruct (for_range_inv
      (λ j (m : ndarray Z),
         lev_inv src tar mode (ins_cost, del_cost, sub_cost, trans_cost) i j m)
      0 (len tar)) as (m' & Hrun & Hinv'); [lia | exact Hinv | |].
    { intros j m0 Hj Hinv0. by apply lev_inv_step. }
    exists m'. split; [exact Hrun |].
    destruct Hinv' as (Hsh' & Hc' & Hr' & Hrec').
    split; [done |]. split; [done |]. split; [done |].
    intros i' j' Hi' Hj' Hlt. apply Hrec'; lia. }
  exists m3. split; [done |]. split; [done |].
  split; [exact Hcol3 |]. split; [exact Hrow3 |].
  intros i j Hi Hj. apply Hrec3; lia.
Qed.

End LevenshteinMatrix.
(** ** Results up to the equality of numbers *)

(** Two outcomes are the same when they raise the same exception or return
    equal numbers. *)
Definition result_eq (r1 r2 : result Q) : Prop :=
  match r1, r2 with
  | Ok a, Ok b => (a == b)%Q
  | Raise e1, Raise e2 => e1 = e2
  | _, _ => False
  end.

Lemma trunc_min_upper (x y : Q) (l : list Q) (z : Z) :
  y ∈ x :: l → (y <= inject_Z z)%Q → trunc (py_min x l) ≤ z.
Proof.
  intros Hy Hz. rewrite <- (trunc_inject z). apply trunc_mono.
  eapply Qle_trans; [| exact Hz].
  apply elem_of_cons in Hy as [-> | Hy].
  - apply py_min_le_best.
  - by apply py_min_le_elem.
Qed.

Lemma trunc_min_lower (x : Q) (l : list Q) :
  Forall (Qle 0) (x :: l) → 0 ≤ trunc (py_min x l).
Proof.
  intros Hl. apply Forall_cons in Hl as [Hx Hl].
  apply trunc_nonneg. by apply py_min_lower.
Qed.

Lemma lenQ_nonneg {A} (s : list A) : (0 <= lenQ s)%Q.
Proof.
  unfold lenQ, len. change 0%Q with (inject_Z 0).
  rewrite <- Zle_Qle. lia.
Qed.

Lemma lenQ_pos {A} (s : list A) : s ≠ [] → (0 < lenQ s)%Q.
Proof.
  intros Hs. unfold lenQ, len. change 0%Q with (inject_Z 0).
  rewrite <- Zlt_Qlt. destruct s; [done | cbn; lia].
Qed.

Lemma py_max_pair (a b : Q) :
  (a <= py_max a [b] ∧ b <= py_max a [b])%Q
  ∧ (py_max a [b] == a ∨ py_max a [b] == b)%Q.
Proof. cbn. qcases; split; (split || idtac); try lra; (left; lra) || (right; lra). Qed.

(** A quotient of a number between [0] and a positive divisor. *)
Lemma truediv_unit_interval (d D : Q) :
  (0 <= d)%Q → (d <= D)%Q → (0 < D)%Q →
  ∃ q, truediv d D = Ok q ∧ (0 <= q <= 1)%Q.
Proof.
  intros Hd HdD HD. unfold truediv.
  destruct (Qeq_bool D 0) eqn:E.
  { apply Qeq_bool_eq in E. lra. }
  eexists. split; [reflexivity |]. split.
  - apply Qle_shift_div_l; lra.
  - apply Qle_shift_div_r; lra.
Qed.
Lemma inject_Z_add_nonneg (z : Z) (q : Q) :
  0 ≤ z → (0 <= q)%Q → (0 <= inject_Z z + q)%Q.
Proof.
  intros Hz Hq. rewrite Zle_Qle in Hz. change (inject_Z 0) with 0%Q in Hz. lra.
Qed.

Lemma inject_Z_nonneg (z : Z) : 0 ≤ z → (0 <= inject_Z z)%Q.
Proof. intros Hz. rewrite Zle_Qle in Hz. exact Hz. Qed.

Lemma inject_Z_add_upper (c z : Z) (q : Q) :
  (q <= 1)%Q → c + 1 ≤ z → (inject_Z c + q <= inject_Z z)%Q.
Proof.
  intros Hq Hz. rewrite Zle_Qle, inject_Z_plus in Hz.
  change (inject_Z 1) with 1%Q in Hz. lra.
Qed.

(** Membership in a list written out. *)
Ltac in_list := repeat constructor.

(** Prove [Forall P [x; y; ...]] item by item with [tac]. *)
Ltac forall_items tac :=
  repeat (apply Forall_cons_2; [tac |]); apply Forall_nil_2.

Lemma lev_min_swap (a b c s ins_cost del_cost : Q) :
  (ins_cost == del_cost)%Q →
  trunc (py_min (a + ins_cost) [b + del_cost; c + s])%Q
  = trunc (py_min (b + ins_cost) [a + del_cost; c + s])%Q.
Proof.
  intros Hc. apply trunc_comp. rewrite py_min_swap.
  apply py_min_comp; [by rewrite Hc |].
  repeat constructor; by rewrite Hc.
Qed.

(** ** Symmetry and bounds of the Levenshtein matrix *)

Section LevenshteinProps.
Context `{Countable A}.
Implicit Types (src tar : list A) (f g : Z → Z → Z) (cost : cost_t).

Lemma osa_guard_sym src tar (i j : Z) :
  osa_guard src tar i j = osa_guard tar src j i.
Proof.
  unfold osa_guard.
  rewrite (bool_decide_ext (sym src i = sym tar (j - 1))
             (sym tar (j - 1) = sym src i)) by (split; congruence).
  rewrite (bool_decide_ext (sym src (i - 1) = sym tar j)
             (sym tar j = sym src (i - 1))) by (split; congruence).
  destruct (bool_decide (1 ≤ i)), (bool_decide (1 ≤ j)),
    (bool_decide (sym tar (j - 1) = sym src i)),
    (bool_decide (sym tar j = sym src (i - 1))); reflexivity.
Qed.

(** With equal insert and delete costs the matrix of [(tar, src)] is the
    transpose of the matrix of [(src, tar)]. *)
Lemma lev_filled_transpose src tar mode cost f g :
  (cost_ins cost == cost_del cost)%Q →
  lev_filled src tar mode cost f →
  lev_filled tar src mode cost g →
  ∀ i j, 0 ≤ i ≤ len src → 0 ≤ j ≤ len tar → f i j = g j i.
Proof.
  intros Hc (Hfc & Hfr & Hf) (Hgc & Hgr & Hg).
  assert (∀ n : nat, ∀ i j, 0 ≤ i ≤ len src → 0 ≤ j ≤ len tar →
            i + j ≤ Z.of_nat n → f i j = g j i) as Hind; cycle 1.
  { intros i j Hi Hj. apply (Hind (Z.to_nat (i + j))); lia. }
  induction n as [n IH] using lt_wf_ind. intros i j Hi Hj Hn.
  destruct (decide (i = 0)) as [-> | Hi0].
  { rewrite Hfr, Hgc by lia. apply trunc_comp. by rewrite Hc. }
  destruct (decide (j = 0)) as [-> | Hj0].
  { rewrite Hfc, Hgr by lia. apply trunc_comp. by rewrite Hc. }
  replace i with (i - 1 + 1) by lia. replace j with (j - 1 + 1) by lia.
  rewrite Hf, Hg by lia.
  set (i' := i - 1). set (j' := j - 1).
  assert (f (i' + 1) j' = g j' (i' + 1)) as E1
    by (apply (IH (Z.to_nat (i + j - 1))); lia).
  assert (f i' (j' + 1) = g (j' + 1) i') as E2
    by (apply (IH (Z.to_nat (i + j - 1))); lia).
  assert (f i' j' = g j' i') as E3
    by (apply (IH (Z.to_nat (i + j - 2))); lia).
  unfold lev_recurrence.
  destruct cost as [[[ins_cost del_cost] sub_cost] trans_cost].
  cbn in Hc. cbv zeta.
  rewrite <- (osa_guard_sym src tar i' j').
  rewrite (bool_decide_ext (sym tar j' ≠ sym src i') (sym src i' ≠ sym tar j'))
    by (split; congruence).
  rewrite <- E1, <- E2, <- E3.
  set (s := if bool_decide (sym src i' ≠ sym tar j') then sub_cost else 0%Q).
  rewrite (lev_min_swap (inject_Z (f i' (j' + 1))) _ _ _ _ _ Hc).
  destruct (bool_decide (mode = "osa"%string) && osa_guard src tar i' j')
    eqn:Hg'; [| done].
  apply andb_prop in Hg' as [_ Hg'].
  assert (1 ≤ i' ∧ 1 ≤ j') as [Hi1 Hj1].
  { unfold osa_guard in Hg'.
    apply andb_prop in Hg' as [[[Hg1 Hg2]%andb_prop _]%andb_prop _].
    apply bool_decide_eq_true_1 in Hg1, Hg2. done. }
  assert (f (i' - 1) (j' - 1) = g (j' - 1) (i' - 1)) as ->
    by (apply (IH (Z.to_nat (i + j - 4))); lia).
  done.
Qed.

(** Under unit costs a cell is at most the greater of its indices. *)
Lemma lev_filled_unit_bound src tar mode f :
  lev_filled src tar mode unit_cost f →
  ∀ i j, 0 ≤ i ≤ len src → 0 ≤ j ≤ len tar → 0 ≤ f i j ≤ Z.max i j.
Proof.
  intros (Hfc & Hfr & Hf).
  assert (∀ z, trunc (inject_Z z * 1)%Q = z) as Hmul1.
  { intros z. rewrite <- (trunc_inject z) at 2. apply trunc_comp. ring. }
  assert (∀ n : nat, ∀ i j, 0 ≤ i ≤ len src → 0 ≤ j ≤ len tar →
            i + j ≤ Z.of_nat n → 0 ≤ f i j ≤ Z.max i j) as Hind; cycle 1.
  { intros i j Hi Hj. apply (Hind (Z.to_nat (i + j))); lia. }
  induction n as [n IH] using lt_wf_ind. intros i j Hi Hj Hn.
  destruct (decide (i = 0)) as [-> | Hi0].
  { rewrite Hfr by lia. cbn. rewrite Hmul1. lia. }
  destruct (decide (j = 0)) as [-> | Hj0].
  { rewrite Hfc by lia. cbn. rewrite Hmul1. lia. }
  replace i with (i - 1 + 1) at 1 2 by lia.
  replace j with (j - 1 + 1) at 1 2 by lia.
  rewrite Hf by lia.
  set (i' := i - 1). set (j' := j - 1).
  assert (0 ≤ f (i' + 1) j') as B1
    by (apply (IH (Z.to_nat (i + j - 1))); lia).
  assert (0 ≤ f i' (j' + 1)) as B2
    by (apply (IH (Z.to_nat (i + j - 1))); lia).
  assert (0 ≤ f i' j' ≤ Z.max i' j') as B3
    by (apply (IH (Z.to_nat (i + j - 2))); lia).
  unfold lev_recurrence, unit_cost. cbv zeta.
  set (s := if bool_decide (sym src i' ≠ sym tar j') then 1%Q else 0%Q).
  assert (0 <= s <= 1)%Q as Hs by (unfold s; case_bool_decide; lra).
  set (v := trunc (py_min _ [_; _])).
  assert (0 ≤ v ≤ Z.max i j) as Hv.
  { unfold v. split.
    - apply trunc_min_lower.
      forall_items ltac:(apply inject_Z_add_nonneg; (lia || lra)).
    - apply (trunc_min_upper _ (inject_Z (f i' j') + s)%Q);
        [in_list |].
      apply inject_Z_add_upper; [lra | lia]. }
  destruct (bool_decide (mode = "osa"%string) && osa_guard src tar i' j')
    eqn:Hg'; [| done].
  apply andb_prop in Hg' as [_ Hg'].
  assert (1 ≤ i' ∧ 1 ≤ j') as [Hi1 Hj1].
  { unfold osa_guard in Hg'.
    apply andb_prop in Hg' as [[[Hg1 Hg2]%andb_prop _]%andb_prop _].
    apply bool_decide_eq_true_1 in Hg1, Hg2. done. }
  assert (0 ≤ f (i' - 1) (j' - 1)) as B4
    by (apply (IH (Z.to_nat (i + j - 4))); lia).
  split.
  - apply trunc_min_lower.
    forall_items ltac:(first [apply inject_Z_nonneg; lia
                             | apply inject_Z_add_nonneg; (lia || lra)]).
  - apply (trunc_min_upper _ (inject_Z v)); [in_list |].
    rewrite <- Zle_Qle. lia.
Qed.

End LevenshteinProps.
Section LevenshteinDistance.
Context `{Countable A}.
Implicit Types (src tar : list A) (f g : Z → Z → Z) (cost : cost_t).

(** With the Indel costs, in [lev] mode, a cell is at most the sum of its
    indices. *)
Lemma lev_filled_indel_bound src tar f :
  lev_filled src tar "lev" indel_cost f →
  ∀ i j, 0 ≤ i ≤ len src → 0 ≤ j ≤ len tar → 0 ≤ f i j ≤ i + j.
Proof.
  intros (Hfc & Hfr & Hf).
  assert (∀ z, trunc (inject_Z z * 1)%Q = z) as Hmul1.
  { intros z. rewrite <- (trunc_inject z) at 2. apply trunc_comp. ring. }
  assert (∀ n : nat, ∀ i j, 0 ≤ i ≤ len src → 0 ≤ j ≤ len tar →
            i + j ≤ Z.of_nat n → 0 ≤ f i j ≤ i + j) as Hind; cycle 1.
  { intros i j Hi Hj. apply (Hind (Z.to_nat (i + j))); lia. }
  induction n as [n IH] using lt_wf_ind. intros i j Hi Hj Hn.
  destruct (decide (i = 0)) as [-> | Hi0].
  { rewrite Hfr by lia. cbn. rewrite Hmul1. lia. }
  destruct (decide (j = 0)) as [-> | Hj0].
  { rewrite Hfc by lia. cbn. rewrite Hmul1. lia. }
  replace i with (i - 1 + 1) at 1 2 by lia.
  replace j with (j - 1 + 1) at 1 2 by lia.
  rewrite Hf by lia.
  set (i' := i - 1). set (j' := j - 1).
  assert (0 ≤ f (i' + 1) j' ≤ i' + 1 + j') as B1
    by (apply (IH (Z.to_nat (i + j - 1))); lia).
  assert (0 ≤ f i' (j' + 1)) as B2
    by (apply (IH (Z.to_nat (i + j - 1))); lia).
  assert (0 ≤ f i' j') as B3
    by (apply (IH (Z.to_nat (i + j - 2))); lia).
  unfold lev_recurrence, indel_cost. cbv zeta.
  rewrite (bool_decide_eq_false_2 ("lev"%string = "osa"%string)) by done.
  cbn [andb].
  set (s := if bool_decide (sym src i' ≠ sym tar j') then 9999%Q else 0%Q).
  assert (0 <= s)%Q as Hs by (unfold s; case_bool_decide; lra).
  split.
  - apply trunc_min_lower.
    forall_items ltac:(apply inject_Z_add_nonneg; (lia || lra)).
  - apply (trunc_min_upper _ (inject_Z (f (i' + 1)%Z j') + 1)%Q); [in_list |].
    apply inject_Z_add_upper; [lra | lia].
Qed.

(** Past the fast paths [dist_abs] returns the last cell of the matrix. *)
Lemma lev_dist_abs_matrix src tar mode cost :
  src ≠ tar → src ≠ [] → tar ≠ [] →
  ∃ m, lev_matrix src tar mode cost = Ok m
       ∧ lev_filled src tar mode cost (cell 0 m)
       ∧ Levenshtein.dist_abs src tar mode cost
         = Ok (inject_Z (cell 0 m (len src) (len tar))).
Proof.
  intros Hne Hs Ht.
  destruct (lev_matrix_filled src tar mode cost) as (m & Hm & Hsh & Hfill).
  exists m. split; [done |]. split; [done |].
  unfold Levenshtein.dist_abs.
  destruct cost as [[[ins_cost del_cost] sub_cost] trans_cost].
  rewrite !bool_decide_eq_false_2 by done.
  rewrite Hm. cbn.
  rewrite (mat_get_ok 0 m _ _ _ _ Hsh) by (unfold len; lia). done.
Qed.

(** [dist_abs] with equal insert and delete costs does not depend on the
    order of its arguments. *)
Lemma lev_dist_abs_sym src tar mode cost :
  (cost_ins cost == cost_del cost)%Q →
  result_eq (Levenshtein.dist_abs src tar mode cost)
            (Levenshtein.dist_abs tar src mode cost).
Proof.
  intros Hc.
  destruct (decide (src = tar)) as [-> | Hne].
  { unfold Levenshtein.dist_abs.
    destruct cost as [[[ins_cost del_cost] sub_cost] trans_cost].
    by rewrite bool_decide_eq_true_2 by done. }
  destruct (decide (src = [] ∨ tar = [])) as [Hempty | Hfull].
  { unfold Levenshtein.dist_abs.
    destruct cost as [[[ins_cost del_cost] sub_cost] trans_cost].
    unfold cost_ins, cost_del in Hc.
    repeat case_bool_decide; subst; try congruence; try tauto;
      unfold result_eq; by rewrite Hc. }
  assert (src ≠ [] ∧ tar ≠ []) as [Hs Ht] by tauto.
  destruct (lev_dist_abs_matrix src tar mode cost) as (m & _ & Hf & ->);
    [done.. |].
  destruct (lev_dist_abs_matrix tar src mode cost) as (m' & _ & Hg & ->);
    [done.. |].
  cbn. rewrite (lev_filled_transpose src tar mode cost _ _ Hc Hf Hg);
    [reflexivity | unfold len; lia..].
Qed.

(** Under unit costs [dist_abs] lies between [0] and the greater length. *)
Lemma lev_dist_abs_unit_bound src tar mode :
  ∃ d, Levenshtein.dist_abs src tar mode unit_cost = Ok d
       ∧ (0 <= d <= inject_Z (Z.max (len src) (len tar)))%Q.
Proof.
  destruct (decide (src = tar)) as [-> | Hne].
  { exists 0%Q. unfold Levenshtein.dist_abs, unit_cost.
    rewrite bool_decide_eq_true_2 by done. split; [done |].
    split; [lra |]. apply inject_Z_nonneg. unfold len. lia. }
  destruct (decide (src = [])) as [-> | Hs].
  { exists (lenQ tar * 1)%Q. unfold Levenshtein.dist_abs, unit_cost.
    rewrite (bool_decide_eq_false_2 _ Hne).
    rewrite bool_decide_eq_true_2 by done. split; [done |].
    pose proof (lenQ_nonneg tar). split; [lra |].
    unfold lenQ. rewrite Qmult_1_r. rewrite <- Zle_Qle. lia. }
  destruct (decide (tar = [])) as [-> | Ht].
  { exists (lenQ src * 1)%Q. unfold Levenshtein.dist_abs, unit_cost.
    rewrite (bool_decide_eq_false_2 _ Hne), (bool_decide_eq_false_2 _ Hs).
    rewrite bool_decide_eq_true_2 by done. split; [done |].
    pose proof (lenQ_nonneg src). split; [lra |].
    unfold lenQ. rewrite Qmult_1_r. rewrite <- Zle_Qle. lia. }
  destruct (lev_dist_abs_matrix src tar mode unit_cost) as (m & _ & Hf & ->);
    [done.. |].
  eexists. split; [done |].
  pose proof (lev_filled_unit_bound src tar mode _ Hf (len src) (len tar)
                ltac:(unfold len; lia) ltac:(unfold len; lia)) as [Hlo Hhi].
  split; [by apply inject_Z_nonneg | by rewrite <- Zle_Qle].
Qed.

End LevenshteinDistance.
(** ** The matrix of [DamerauLevenshtein.dist_abs] *)

(** The last index below [n] at which [p] holds, [-1] when there is none. *)
Fixpoint last_below (p : Z → bool) (n : nat) : Z :=
  match n with
  | O => -1
  | S k => if p (Z.of_nat k) then Z.of_nat k else last_below p k
  end.

Lemma last_below_bounds (p : Z → bool) (n : nat) :
  -1 ≤ last_below p n < Z.of_nat n.
Proof. induction n as [| n IH]; cbn [last_below]; [lia |]. destruct (p _); lia. Qed.

Lemma last_below_ext (p q : Z → bool) (n : nat) :
  (∀ k, 0 ≤ k < Z.of_nat n → p k = q k) → last_below p n = last_below q n.
Proof.
  induction n as [| n IH]; intros Hpq; cbn [last_below]; [done |].
  rewrite Hpq by lia. rewrite IH; [done |]. intros k Hk. apply Hpq. lia.
Qed.

Lemma last_below_succ (p : Z → bool) (i : Z) :
  0 ≤ i →
  last_below p (Z.to_nat (i + 1))
  = if p i then i else last_below p (Z.to_nat i).
Proof.
  intros Hi. replace (Z.to_nat (i + 1)) with (S (Z.to_nat i)) by lia.
  cbn [last_below]. by rewrite Z2Nat.id by lia.
Qed.

(** Run the binds whose first action has returned. *)
Ltac monad_step := cbn [mbind result_bind].

Section DamerauMatrix.
Context `{Countable A}.
Implicit Types (src tar : list A) (f g : Z → Z → Z) (cost : cost_t).

(** The value of [src_index_by_character] read at [tar[j]] in row [i]: the
    last index below [i] where [src] has the symbol [tar[j]]. *)
Definition i_swap_of src tar (i j : Z) : Z :=
  last_below (λ k, bool_decide (sym src k = sym tar j)) (Z.to_nat i).

(** The value of [max_src_letter_match_index] read at column [j] of row
    [i]: the last index below [j] where [tar] has the symbol [src[i]]. *)
Definition j_swap_of src tar (i j : Z) : Z :=
  last_below (λ k, bool_decide (sym src i = sym tar k)) (Z.to_nat j).

Definition dl_swap_distance cost f (i j i_swap j_swap : Z) : Q :=
  let '(ins_cost, del_cost, sub_cost, trans_cost) := cost in
  if bool_decide (i_swap ≠ -1) && bool_decide (j_swap ≠ -1) then
    let pre_swap_cost :=
      if bool_decide (i_swap = 0) && bool_decide (j_swap = 0) then 0
      else f (Z.max 0 (i_swap - 1)) (Z.max 0 (j_swap - 1)) in
    let di := i - i_swap - 1 in
    let dj := j - j_swap - 1 in
    (inject_Z pre_swap_cost + inject_Z di * del_cost + inject_Z dj * ins_cost
     + trans_cost)%Q
  else inject_Z maxsize.

(** The value stored in cell [(i, j)] by the body of the main double loop. *)
Definition dl_recurrence src tar cost f (i j : Z) : Z :=
  let '(ins_cost, del_cost, sub_cost, trans_cost) := cost in
  let a := f (i - 1) j in
  let b := f i (j - 1) in
  let c := f (i - 1) (j - 1) in
  let swap_distance :=
    dl_swap_distance cost f i j (i_swap_of src tar i j) (j_swap_of src tar i j)
  in
  let match_distance :=
    if bool_decide (sym src i ≠ sym tar j) then (inject_Z c + sub_cost)%Q
    else inject_Z c in
  trunc (py_min (inject_Z a + del_cost)
           [inject_Z b + ins_cost; match_distance; swap_distance])%Q.

(** The value stored in cell [(i, 0)] by the first-column loop. *)
Definition dl_col src tar cost f (i : Z) : Z :=
  let '(ins_cost, del_cost, sub_cost, trans_cost) := cost in
  let a := f (i - 1) 0 in
  let i1 := i + 1 in
  trunc (py_min (inject_Z a + del_cost)
           [inject_Z i1 * del_cost + ins_cost;
            inject_Z i * del_cost
            + (if bool_decide (sym src i = sym tar 0) then 0 else sub_cost)])%Q.

(** The value stored in cell [(0, j)] by the first-row loop. *)
Definition dl_row src tar cost f (j : Z) : Z :=
  let '(ins_cost, del_cost, sub_cost, trans_cost) := cost in
  let a := f 0 (j - 1) in
  let j1 := j + 1 in
  trunc (py_min (inject_Z j1 * ins_cost + del_cost)
           [inject_Z a + ins_cost;
            inject_Z j * ins_cost
            + (if bool_decide (sym src 0 = sym tar j) then 0 else sub_cost)])%Q.

(** The value of cell [(0, 0)]. *)
Definition dl_corner src tar cost : Z :=
  let '(ins_cost, del_cost, sub_cost, trans_cost) := cost in
  if bool_decide (sym src 0 ≠ sym tar 0)
  then trunc (py_min sub_cost [ins_cost + del_cost])%Q
  else 0.

(** [dl_filled src tar cost f]: the cells [f] are those of the matrix of
    [DamerauLevenshtein.dist_abs] for [src] and [tar]; cell [(i, j)] is
    about the first [i + 1] symbols of [src] and the first [j + 1] of
    [tar]. *)
Definition dl_filled src tar cost f : Prop :=
  f 0 0 = dl_corner src tar cost
  ∧ (∀ i, 1 ≤ i < len src → f i 0 = dl_col src tar cost f i)
  ∧ (∀ j, 1 ≤ j < len tar → f 0 j = dl_row src tar cost f j)
  ∧ (∀ i j, 1 ≤ i < len src → 1 ≤ j < len tar →
       f i j = dl_recurrence src tar cost f i j).

Lemma dl_swap_distance_ext cost f g (i j i_swap j_swap : Z) :
  f (Z.max 0 (i_swap - 1)) (Z.max 0 (j_swap - 1))
  = g (Z.max 0 (i_swap - 1)) (Z.max 0 (j_swap - 1)) →
  dl_swap_distance cost f i j i_swap j_swap
  = dl_swap_distance cost g i j i_swap j_swap.
Proof.
  intros E. unfold dl_swap_distance.
  destruct cost as [[[ins_cost del_cost] sub_cost] trans_cost].
  by rewrite E.
Qed.

(** The recurrence at [(i, j)] reads cells above and to the left only. *)
Lemma dl_recurrence_ext src tar cost f g (i j : Z) :
  1 ≤ i → 1 ≤ j →
  (∀ x y, 0 ≤ x ≤ i → 0 ≤ y ≤ j → x ≠ i ∨ y ≠ j → f x y = g x y) →
  dl_recurrence src tar cost f i j = dl_recurrence src tar cost g i j.
Proof.
  intros Hi Hj E. unfold dl_recurrence.
  destruct cost as [[[ins_cost del_cost] sub_cost] trans_cost].
  pose proof (last_below_bounds
    (λ k, bool_decide (sym src k = sym tar j)) (Z.to_nat i)) as Bi.
  pose proof (last_below_bounds
    (λ k, bool_decide (sym src i = sym tar k)) (Z.to_nat j)) as Bj.
  fold (i_swap_of src tar i j) in Bi. fold (j_swap_of src tar i j) in Bj.
  rewrite (dl_swap_distance_ext _ f g) by (apply E; lia).
  by rewrite !(E (i - 1)), (E i (j - 1)) by lia.
Qed.

(** The dictionary read as in the source: [-1] for a missing key. *)
Definition dict_index (d : gmap A Z) (c : A) : Z :=
  match d !! c with
  | None => -1
  | Some k => k
  end.

(** [dict_upto src i d]: [d] maps every symbol to the last index below [i]
    where [src] has it. *)
Definition dict_upto src (i : Z) (d : gmap A Z) : Prop :=
  ∀ c, dict_index d c
       = last_below (λ k, bool_decide (sym src k = Some c)) (Z.to_nat i).

(** One run of the body of the inner loop fills cell [(i, j)] by the
    recurrence, changes no other cell and updates the match index. *)
Lemma dl_cell_body_ok src tar cost (d : gmap A Z) (i j : Z) (m : ndarray Z) :
  shape m (len src) (len tar) →
  1 ≤ i < len src → 1 ≤ j < len tar →
  dict_upto src i d →
  ∃ m', dl_cell_body src tar cost d i j (m, j_swap_of src tar i j)
        = Ok (m', j_swap_of src tar i (j + 1))
        ∧ shape m' (len src) (len tar)
        ∧ cell 0 m' i j = dl_recurrence src tar cost (cell 0 m) i j
        ∧ ∀ i' j', i' ≠ i ∨ j' ≠ j → cell 0 m' i' j' = cell 0 m i' j'.
Proof.
  intros Hsh Hi Hj Hd. unfold dl_cell_body, dl_recurrence, dl_swap_distance.
  destruct cost as [[[ins_cost del_cost] sub_cost] trans_cost].
  destruct (getitem_sym tar j) as (tj & Htj & ->); [lia |]. monad_step.
  rewrite (mat_get_ok 0 m _ _ (i - 1) j Hsh) by lia. monad_step.
  rewrite (mat_get_ok 0 m _ _ i (j - 1) Hsh) by lia. monad_step.
  rewrite (mat_get_ok 0 m _ _ (i - 1) (j - 1) Hsh) by lia. monad_step.
  destruct (getitem_sym src i) as (si & Hsi & ->); [lia |]. monad_step.
  fold (dict_index d tj). rewrite (Hd tj).
  rewrite <- Htj. fold (i_swap_of src tar i j).
  pose proof (last_below_bounds
    (λ k, bool_decide (sym src k = sym tar j)) (Z.to_nat i)) as Bi.
  pose proof (last_below_bounds
    (λ k, bool_decide (sym src i = sym tar k)) (Z.to_nat j)) as Bj.
  fold (i_swap_of src tar i j) in Bi. fold (j_swap_of src tar i j) in Bj.
  rewrite Hsi, Htj, bool_decide_Some_ne.
  assert ((if bool_decide (si ≠ tj) then j_swap_of src tar i j else j)
          = j_swap_of src tar i (j + 1)) as ->.
  { unfold j_swap_of at 2. rewrite last_below_succ by lia.
    fold (j_swap_of src tar i j).
    rewrite Hsi, Htj, bool_decide_Some_eq.
    by destruct (decide (si = tj));
      [rewrite bool_decide_eq_false_2, bool_decide_eq_true_2 by tauto
      | rewrite bool_decide_eq_true_2, bool_decide_eq_false_2 by tauto]. }
  destruct (bool_decide (i_swap_of src tar i j ≠ -1)
            && bool_decide (j_swap_of src tar i j ≠ -1)) eqn:Hsw;
    monad_step.
  - destruct (bool_decide (i_swap_of src tar i j = 0)
              && bool_decide (j_swap_of src tar i j = 0)) eqn:Hz;
      monad_step.
    + set (v := trunc _).
      destruct (mat_set_ok 0 m _ _ i j v Hsh)
        as (m' & -> & Hsh' & Hv & Hfr); [lia | lia |]. monad_step. eauto.
    + rewrite (mat_get_ok 0 m _ _ _ _ Hsh) by lia. monad_step.
      set (v := trunc _).
      destruct (mat_set_ok 0 m _ _ i j v Hsh)
        as (m' & -> & Hsh' & Hv & Hfr); [lia | lia |]. monad_step. eauto.
  - set (v := trunc _).
    destruct (mat_set_ok 0 m _ _ i j v Hsh)
      as (m' & -> & Hsh' & Hv & Hfr); [lia | lia |]. monad_step. eauto.
Qed.

Lemma dl_col_ext src tar cost f g (i : Z) :
  f (i - 1) 0 = g (i - 1) 0 → dl_col src tar cost f i = dl_col src tar cost g i.
Proof.
  intros E. unfold dl_col.
  destruct cost as [[[ins_cost del_cost] sub_cost] trans_cost]. by rewrite E.
Qed.

Lemma dl_row_ext src tar cost f g (j : Z) :
  f 0 (j - 1) = g 0 (j - 1) → dl_row src tar cost f j = dl_row src tar cost g j.
Proof.
  intros E. unfold dl_row.
  destruct cost as [[[ins_cost del_cost] sub_cost] trans_cost]. by rewrite E.
Qed.

Lemma dl_col_body_ok src tar cost (i : Z) (m : ndarray Z) :
  shape m (len src) (len tar) → 1 ≤ i < len src → 1 ≤ len tar →
  ∃ m', dl_col_body src tar cost i m = Ok m'
        ∧ shape m' (len src) (len tar)
        ∧ cell 0 m' i 0 = dl_col src tar cost (cell 0 m) i
        ∧ ∀ i' j', i' ≠ i ∨ j' ≠ 0 → cell 0 m' i' j' = cell 0 m i' j'.
Proof.
  intros Hsh Hi Ht. unfold dl_col_body, dl_col.
  destruct cost as [[[ins_cost del_cost] sub_cost] trans_cost].
  rewrite (mat_get_ok 0 m _ _ (i - 1) 0 Hsh) by lia. monad_step.
  destruct (getitem_sym src i) as (si & -> & ->); [lia |]. monad_step.
  destruct (getitem_sym tar 0) as (t0 & -> & ->); [lia |]. monad_step.
  rewrite bool_decide_Some_eq.
  set (v := trunc _).
  destruct (mat_set_ok 0 m _ _ i 0 v Hsh)
    as (m' & -> & Hsh' & Hv & Hfr); [lia | lia |]. eauto.
Qed.

Lemma dl_row_body_ok src tar cost (j : Z) (m : ndarray Z) :
  shape m (len src) (len tar) → 1 ≤ j < len tar → 1 ≤ len src →
  ∃ m', dl_row_body src tar cost j m = Ok m'
        ∧ shape m' (len src) (len tar)
        ∧ cell 0 m' 0 j = dl_row src tar cost (cell 0 m) j
        ∧ ∀ i' j', i' ≠ 0 ∨ j' ≠ j → cell 0 m' i' j' = cell 0 m i' j'.
Proof.
  intros Hsh Hj Hs. unfold dl_row_body, dl_row.
  destruct cost as [[[ins_cost del_cost] sub_cost] trans_cost].
  rewrite (mat_get_ok 0 m _ _ 0 (j - 1) Hsh) by lia. monad_step.
  destruct (getitem_sym src 0) as (s0 & -> & ->); [lia |]. monad_step.
  destruct (getitem_sym tar j) as (tj & -> & ->); [lia |]. monad_step.
  rewrite bool_decide_Some_eq.
  set (v := trunc _).
  destruct (mat_set_ok 0 m _ _ 0 j v Hsh)
    as (m' & -> & Hsh' & Hv & Hfr); [lia | lia |]. eauto.
Qed.

(** The invariant of the main double loop: the corner, the first column and
    the first row are set, and the cells before [(i, j)], in the order of
    the loops, follow the recurrence. *)
Definition dl_inv src tar cost (i j : Z) (m : ndarray Z) : Prop :=
  shape m (len src) (len tar)
  ∧ cell 0 m 0 0 = dl_corner src tar cost
  ∧ (∀ i', 1 ≤ i' < len src →
       cell 0 m i' 0 = dl_col src tar cost (cell 0 m) i')
  ∧ (∀ j', 1 ≤ j' < len tar →
       cell 0 m 0 j' = dl_row src tar cost (cell 0 m) j')
  ∧ (∀ i' j', 1 ≤ i' → 1 ≤ j' < len tar → i' < i ∨ (i' = i ∧ j' < j) →
       cell 0 m i' j' = dl_recurrence src tar cost (cell 0 m) i' j').

Lemma dl_inv_step src tar cost (d : gmap A Z) (i j : Z) (m : ndarray Z) :
  1 ≤ i < len src → 1 ≤ j < len tar →
  dict_upto src i d →
  dl_inv src tar cost i j m →
  ∃ m', dl_cell_body src tar cost d i j (m, j_swap_of src tar i j)
        = Ok (m', j_swap_of src tar i (j + 1))
        ∧ dl_inv src tar cost i (j + 1) m'.
Proof.
  intros Hi Hj Hd (Hsh & Hcorner & Hcol & Hrow & Hrec).
  destruct (dl_cell_body_ok src tar cost d i j m Hsh Hi Hj Hd)
    as (m' & Hrun & Hsh' & Hnew & Hfr).
  exists m'. split; [done |]. split; [done |]. split; [| split; [| split]].
  - rewrite Hfr by lia. done.
  - intros i' Hi'. rewrite Hfr by lia. rewrite Hcol by done.
    apply dl_col_ext. symmetry. apply Hfr. lia.
  - intros j' Hj'. rewrite Hfr by lia. rewrite Hrow by done.
    apply dl_row_ext. symmetry. apply Hfr. lia.
  - intros i' j' Hi' Hj' Hlt.
    destruct (decide (i' = i ∧ j' = j)) as [[-> ->] | Hne].
    + rewrite Hnew. apply dl_recurrence_ext; [lia | lia |].
      intros x y Hx Hy Hxy. symmetry. apply Hfr. lia.
    + rewrite Hfr by lia. rewrite Hrec by lia.
      apply dl_recurrence_ext; [lia | lia |].
      intros x y Hx Hy Hxy. symmetry. apply Hfr. lia.
Qed.

Lemma dict_upto_insert src (i : Z) (d : gmap A Z) (si : A) :
  0 ≤ i → sym src i = Some si →
  dict_upto src i d → dict_upto src (i + 1) (<[si := i]> d).
Proof.
  intros Hi Hsi Hd c. unfold dict_index.
  rewrite last_below_succ by lia. rewrite Hsi, bool_decide_Some_eq.
  destruct (decide (si = c)) as [-> | Hne].
  - rewrite lookup_insert_eq. by rewrite bool_decide_eq_true_2.
  - rewrite lookup_insert_ne by done. rewrite bool_decide_eq_false_2 by done.
    apply Hd.
Qed.

Lemma dl_outer_body_ok src tar cost (d : gmap A Z) (i : Z) (m : ndarray Z) :
  1 ≤ i < len src → 1 ≤ len tar →
  dict_upto src i d →
  dl_inv src tar cost i 1 m →
  ∃ m' d', dl_outer_body src tar cost i (m, d) = Ok (m', d')
           ∧ dict_upto src (i + 1) d'
           ∧ dl_inv src tar cost (i + 1) 1 m'.
Proof.
  intros Hi Ht Hd Hinv. unfold dl_outer_body.
  destruct (getitem_sym src i) as (si & Hsi & ->); [lia |]. monad_step.
  destruct (getitem_sym tar 0) as (t0 & Ht0 & ->); [lia |]. monad_step.
  edestruct (for_range_inv
    (λ j (st : ndarray Z * Z),
       dl_inv src tar cost i j st.1 ∧ st.2 = j_swap_of src tar i j)
    1 (len tar)) as ([m' mx] & -> & Hinv' & _); [lia | | |].
  { split; [exact Hinv |]. cbn. unfold j_swap_of.
    change (Z.to_nat 1) with 1%nat. cbn [last_below].
    change (Z.of_nat 0) with 0.
    by rewrite Hsi, Ht0, bool_decide_Some_eq. }
  { intros j [m0 mx] Hj [Hinv0 Hmx]. cbn in Hinv0, Hmx. subst mx.
    destruct (dl_inv_step src tar cost d i j m0 Hi Hj Hd Hinv0)
      as (m1 & -> & Hinv1). eauto. }
  monad_step.
  exists m', (<[si := i]> d). split; [done |].
  split; [apply dict_upto_insert; [lia | done..] |].
  cbn in Hinv'. destruct Hinv' as (Hsh' & Hc' & Hcol' & Hrow' & Hrec').
  split; [done |]. split; [done |]. split; [done |]. split; [done |].
  intros i' j' Hi' Hj' Hlt. apply Hrec'; lia.
Qed.

(** [dl_matrix] never raises on non-empty sequences, and the matrix it
    returns is filled by the recurrences. *)
Lemma dl_matrix_filled src tar cost :
  src ≠ [] → tar ≠ [] →
  ∃ m, dl_matrix src tar cost = Ok m
       ∧ shape m (len src) (len tar)
       ∧ dl_filled src tar cost (cell 0 m).
Proof.
  intros Hs Ht. unfold dl_matrix.
  assert (1 ≤ len src ∧ 1 ≤ len tar) as [Hn Hm].
  { unfold len. destruct src, tar; cbn; try done; lia. }
  pose proof (shape_zeros (0 : Z) (len src) (len tar)
                ltac:(lia) ltac:(lia)) as Hsh0.
  destruct cost as [[[ins_cost del_cost] sub_cost] trans_cost] eqn:Hcost.
  rewrite <- Hcost.
  destruct (getitem_sym src 0) as (s0 & Hs0 & ->); [lia |]. monad_step.
  destruct (getitem_sym tar 0) as (t0 & Ht0 & ->); [lia |]. monad_step.
  (* the corner *)
  assert (∃ m0, (if bool_decide (s0 ≠ t0)
                 then mat_set (np_zeros 0 (len src) (len tar)) 0 0
                        (trunc (py_min sub_cost [ins_cost + del_cost])%Q)
                 else Ok (np_zeros 0 (len src) (len tar))) = Ok m0
                ∧ shape m0 (len src) (len tar)
                ∧ cell 0 m0 0 0 = dl_corner src tar cost)
    as (m0 & -> & Hshc & Hcorner).
  { unfold dl_corner. rewrite Hcost, Hs0, Ht0, bool_decide_Some_ne.
    destruct (bool_decide (s0 ≠ t0)).
    - destruct (mat_set_ok 0 _ _ _ 0 0
                  (trunc (py_min sub_cost [ins_cost + del_cost])%Q) Hsh0)
        as (m0 & -> & Hshc & Hv & _); [lia | lia |]. eauto.
    - eexists. split; [done |]. split; [done |]. apply cell_zeros. }
  monad_step.
  (* the first column *)
  edestruct (for_range_inv
    (λ k (m : ndarray Z), shape m (len src) (len tar)
       ∧ cell 0 m 0 0 = dl_corner src tar cost
       ∧ ∀ i, 1 ≤ i < k → cell 0 m i 0 = dl_col src tar cost (cell 0 m) i)
    1 (len src)) as (m1 & -> & Hsh1 & Hcorner1 & Hcol1); [lia | | |].
  { split; [done |]. split; [done |]. intros; lia. }
  { intros k m Hk (Hsh & Hc & Hcol).
    destruct (dl_col_body_ok src tar cost k m Hsh)
      as (m' & -> & Hsh' & Hv & Hfr); [lia | lia |].
    exists m'. split; [done |]. split; [done |]. split.
    - rewrite Hfr by lia. done.
    - intros i Hi. destruct (decide (i = k)) as [-> | Hne].
      + rewrite Hv. apply dl_col_ext. symmetry. apply Hfr. lia.
      + rewrite Hfr by lia. rewrite Hcol by lia.
        apply dl_col_ext. symmetry. apply Hfr. lia. }
  monad_step.
  (* the first row *)
  edestruct (for_range_inv
    (λ k (m : ndarray Z), shape m (len src) (len tar)
       ∧ cell 0 m 0 0 = dl_corner src tar cost
       ∧ (∀ i, 1 ≤ i < len src →
            cell 0 m i 0 = dl_col src tar cost (cell 0 m) i)
       ∧ ∀ j, 1 ≤ j < k → cell 0 m 0 j = dl_row src tar cost (cell 0 m) j)
    1 (len tar)) as (m2 & -> & Hsh2 & Hcorner2 & Hcol2 & Hrow2); [lia | | |].
  { split; [done |]. split; [done |]. split; [done |]. intros; lia. }
  { intros k m Hk (Hsh & Hc & Hcol & Hrow).
    destruct (dl_row_body_ok src tar cost k m Hsh)
      as (m' & -> & Hsh' & Hv & Hfr); [lia | lia |].
    exists m'. split; [done |]. split; [done |]. split; [| split].
    - rewrite Hfr by lia. done.
    - intros i Hi. rewrite Hfr by lia. rewrite Hcol by lia.
      apply dl_col_ext. symmetry. apply Hfr. lia.
    - intros j Hj. destruct (decide (j = k)) as [-> | Hne].
      + rewrite Hv. apply dl_row_ext. symmetry. apply Hfr. lia.
      + rewrite Hfr by lia. rewrite Hrow by lia.
        apply dl_row_ext. symmetry. apply Hfr. lia. }
  monad_step.
  (* the main double loop *)
  edestruct (for_range_inv
    (λ i (st : ndarray Z * gmap A Z),
       dl_inv src tar cost i 1 st.1 ∧ dict_upto src i st.2)
    1 (len src)) as ([m3 d3] & Hrun & Hinv3 & _); [lia | | |]; cycle 2.
  { rewrite Hrun. monad_step.
    exists m3. split; [done |].
    cbn in Hinv3. destruct Hinv3 as (Hsh3 & Hc3 & Hcol3 & Hrow3 & Hrec3).
    split; [done |]. split; [done |]. split; [done |]. split; [done |].
    intros i j Hi Hj. apply Hrec3; lia. }
  { split; cbn.
    - split; [done |]. split; [done |]. split; [done |]. split; [done |].
      intros; lia.
    - intros c. unfold dict_index. change (Z.to_nat 1) with 1%nat.
      cbn [last_below]. change (Z.of_nat 0) with 0.
      rewrite Hs0, bool_decide_Some_eq.
      destruct (decide (s0 = c)) as [-> | Hne].
      + rewrite lookup_singleton_eq. by rewrite bool_decide_eq_true_2.
      + rewrite lookup_singleton_ne by done.
        by rewrite bool_decide_eq_false_2. }
  { intros i [m d] Hi [Hinv Hd]. cbn in Hinv, Hd.
    destruct (dl_outer_body_ok src tar cost d i m Hi ltac:(lia) Hd Hinv)
      as (m' & d' & -> & Hd' & Hinv'). eauto. }
Qed.

End DamerauMatrix.
(** ** Symmetry and bounds of the Damerau-Levenshtein matrix *)

(** Prove [Forall2 R [x; ...] [y; ...]] pair by pair with [tac]. *)
Ltac forall2_items tac :=
  repeat (apply Forall2_cons_2; [tac |]); apply Forall2_nil_2.

Lemma py_min_swap_comp (x y x' y' : Q) (l l' : list Q) :
  (x == y')%Q → (y == x')%Q → Forall2 Qeq l l' →
  (py_min x (y :: l) == py_min x' (y' :: l'))%Q.
Proof.
  intros Hx Hy Hl. rewrite py_min_swap.
  apply py_min_comp; [done |]. by constructor.
Qed.

Section DamerauProps.
Context `{Countable A}.
Implicit Types (src tar : list A) (f g : Z → Z → Z) (cost : cost_t).

Lemma i_swap_of_transpose src tar (i j : Z) :
  i_swap_of tar src j i = j_swap_of src tar i j.
Proof.
  unfold i_swap_of, j_swap_of. apply last_below_ext. intros k _.
  apply bool_decide_ext. split; congruence.
Qed.

Lemma j_swap_of_transpose src tar (i j : Z) :
  j_swap_of tar src j i = i_swap_of src tar i j.
Proof.
  unfold i_swap_of, j_swap_of. apply last_below_ext. intros k _.
  apply bool_decide_ext. split; congruence.
Qed.

Lemma dl_corner_sym src tar cost : dl_corner src tar cost = dl_corner tar src cost.
Proof.
  unfold dl_corner.
  destruct cost as [[[ins_cost del_cost] sub_cost] trans_cost].
  by rewrite (bool_decide_ext (sym src 0 ≠ sym tar 0) (sym tar 0 ≠ sym src 0))
    by (split; congruence).
Qed.

Lemma dl_swap_distance_sym cost f g (i j i_swap j_swap : Z) :
  (cost_ins cost == cost_del cost)%Q →
  (i_swap ≠ -1 → j_swap ≠ -1 →
   f (Z.max 0 (i_swap - 1)) (Z.max 0 (j_swap - 1))
   = g (Z.max 0 (j_swap - 1)) (Z.max 0 (i_swap - 1))) →
  (dl_swap_distance cost f i j i_swap j_swap
   == dl_swap_distance cost g j i j_swap i_swap)%Q.
Proof.
  intros Hc E. unfold dl_swap_distance.
  destruct cost as [[[ins_cost del_cost] sub_cost] trans_cost].
  unfold cost_ins, cost_del in Hc.
  rewrite (andb_comm (bool_decide (j_swap ≠ -1))).
  rewrite (andb_comm (bool_decide (j_swap = 0))).
  destruct (bool_decide (i_swap ≠ -1) && bool_decide (j_swap ≠ -1)) eqn:Hsw;
    [| reflexivity].
  apply andb_prop in Hsw as [H1%bool_decide_eq_true_1 H2%bool_decide_eq_true_1].
  rewrite E by done. rewrite Hc. ring.
Qed.

(** With equal insert and delete costs the matrix of [(tar, src)] is the
    transpose of the matrix of [(src, tar)]. *)
Lemma dl_filled_transpose src tar cost f g :
  (cost_ins cost == cost_del cost)%Q →
  dl_filled src tar cost f →
  dl_filled tar src cost g →
  ∀ i j, 0 ≤ i < len src → 0 ≤ j < len tar → f i j = g j i.
Proof.
  intros Hc (Hf0 & Hfc & Hfr & Hf) (Hg0 & Hgc & Hgr & Hg).
  assert (∀ n : nat, ∀ i j, 0 ≤ i < len src → 0 ≤ j < len tar →
            i + j ≤ Z.of_nat n → f i j = g j i) as Hind; cycle 1.
  { intros i j Hi Hj. apply (Hind (Z.to_nat (i + j))); lia. }
  induction n as [n IH] using lt_wf_ind. intros i j Hi Hj Hn.
  assert (∀ x y, 0 ≤ x < len src → 0 ≤ y < len tar → x + y < i + j →
            f x y = g y x) as IH'.
  { intros x y Hx Hy Hlt. apply (IH (Z.to_nat (x + y))); lia. }
  clear IH.
  destruct (decide (i = 0)) as [-> | Hi0]; destruct (decide (j = 0)) as [-> | Hj0].
  - rewrite Hf0, Hg0. apply dl_corner_sym.
  - rewrite Hfr, Hgc by lia. unfold dl_row, dl_col.
    destruct cost as [[[ins_cost del_cost] sub_cost] trans_cost].
    unfold cost_ins, cost_del in Hc. cbv zeta.
    rewrite IH' by lia.
    rewrite (bool_decide_ext (sym tar j = sym src 0) (sym src 0 = sym tar j))
      by (split; congruence).
    apply trunc_comp. apply py_min_swap_comp.
    + rewrite Hc. ring.
    + by rewrite Hc.
    + forall2_items ltac:(by rewrite Hc).
  - rewrite Hfc, Hgr by lia. unfold dl_row, dl_col.
    destruct cost as [[[ins_cost del_cost] sub_cost] trans_cost].
    unfold cost_ins, cost_del in Hc. cbv zeta.
    rewrite IH' by lia.
    rewrite (bool_decide_ext (sym tar 0 = sym src i) (sym src i = sym tar 0))
      by (split; congruence).
    apply trunc_comp. apply py_min_swap_comp.
    + by rewrite Hc.
    + rewrite Hc. ring.
    + forall2_items ltac:(by rewrite Hc).
  - rewrite Hf, Hg by lia. unfold dl_recurrence.
    pose proof (last_below_bounds
      (λ k, bool_decide (sym src k = sym tar j)) (Z.to_nat i)) as Bi.
    pose proof (last_below_bounds
      (λ k, bool_decide (sym src i = sym tar k)) (Z.to_nat j)) as Bj.
    fold (i_swap_of src tar i j) in Bi. fold (j_swap_of src tar i j) in Bj.
    rewrite (i_swap_of_transpose src tar i j), (j_swap_of_transpose src tar i j).
    pose proof (dl_swap_distance_sym cost f g i j
                  (i_swap_of src tar i j) (j_swap_of src tar i j) Hc) as Hsw.
    destruct cost as [[[ins_cost del_cost] sub_cost] trans_cost].
    unfold cost_ins, cost_del in Hc. cbv zeta.
    rewrite <- !IH' by lia.
    rewrite (bool_decide_ext (sym tar j ≠ sym src i) (sym src i ≠ sym tar j))
      by (split; congruence).
    apply trunc_comp. apply py_min_swap_comp.
    + by rewrite Hc.
    + by rewrite Hc.
    + forall2_items ltac:(first [reflexivity | apply Hsw; intros; apply IH'; lia]).
Qed.

(** Under unit costs a cell is at most one more than the greater of its
    indices: the cell is about prefixes one symbol longer than its
    indices. *)
Lemma dl_filled_unit_bound src tar f :
  dl_filled src tar unit_cost f →
  ∀ i j, 0 ≤ i < len src → 0 ≤ j < len tar → 0 ≤ f i j ≤ Z.max i j + 1.
Proof.
  intros (Hf0 & Hfc & Hfr & Hf).
  assert (∀ n : nat, ∀ i j, 0 ≤ i < len src → 0 ≤ j < len tar →
            i + j ≤ Z.of_nat n → 0 ≤ f i j ≤ Z.max i j + 1) as Hind; cycle 1.
  { intros i j Hi Hj. apply (Hind (Z.to_nat (i + j))); lia. }
  induction n as [n IH] using lt_wf_ind. intros i j Hi Hj Hn.
  assert (∀ x y, 0 ≤ x < len src → 0 ≤ y < len tar → x + y < i + j →
            0 ≤ f x y ≤ Z.max x y + 1) as IH'.
  { intros x y Hx Hy Hlt. apply (IH (Z.to_nat (x + y))); lia. }
  clear IH.
  destruct (decide (i = 0)) as [-> | Hi0]; destruct (decide (j = 0)) as [-> | Hj0].
  - rewrite Hf0. unfold dl_corner, unit_cost. case_bool_decide; [| lia].
    vm_compute. split; discriminate.
  - rewrite Hfr by lia. unfold dl_row, unit_cost. cbv zeta.
    pose proof (IH' 0 (j - 1) ltac:(lia) ltac:(lia) ltac:(lia)) as B.
    set (s := if bool_decide (sym src 0 = sym tar j) then 0%Q else 1%Q).
    assert (0 <= s <= 1)%Q as Hs by (unfold s; case_bool_decide; lra).
    split.
    + apply trunc_min_lower.
      forall_items ltac:(first
        [ apply inject_Z_add_nonneg; (lia || lra)
        | apply Qle_trans with (inject_Z (j + 1) * 1)%Q; [| lra];
          apply Qmult_le_0_compat; [apply inject_Z_nonneg; lia | lra]
        | apply Qle_trans with (inject_Z j * 1)%Q; [| lra];
          apply Qmult_le_0_compat; [apply inject_Z_nonneg; lia | lra] ]).
    + apply (trunc_min_upper _ (inject_Z j * 1 + s)%Q); [in_list |].
      rewrite Qmult_1_r. apply inject_Z_add_upper; [lra | lia].
  - rewrite Hfc by lia. unfold dl_col, unit_cost. cbv zeta.
    pose proof (IH' (i - 1) 0 ltac:(lia) ltac:(lia) ltac:(lia)) as B.
    set (s := if bool_decide (sym src i = sym tar 0) then 0%Q else 1%Q).
    assert (0 <= s <= 1)%Q as Hs by (unfold s; case_bool_decide; lra).
    split.
    + apply trunc_min_lower.
      forall_items ltac:(first
        [ apply inject_Z_add_nonneg; (lia || lra)
        | apply Qle_trans with (inject_Z (i + 1) * 1)%Q; [| lra];
          apply Qmult_le_0_compat; [apply inject_Z_nonneg; lia | lra]
        | apply Qle_trans with (inject_Z i * 1)%Q; [| lra];
          apply Qmult_le_0_compat; [apply inject_Z_nonneg; lia | lra] ]).
    + apply (trunc_min_upper _ (inject_Z i * 1 + s)%Q); [in_list |].
      rewrite Qmult_1_r. apply inject_Z_add_upper; [lra | lia].
  - rewrite Hf by lia. unfold dl_recurrence, unit_cost. cbv zeta.
    fold unit_cost.
    pose proof (last_below_bounds
      (λ k, bool_decide (sym src k = sym tar j)) (Z.to_nat i)) as Bi.
    pose proof (last_below_bounds
      (λ k, bool_decide (sym src i = sym tar k)) (Z.to_nat j)) as Bj.
    fold (i_swap_of src tar i j) in Bi. fold (j_swap_of src tar i j) in Bj.
    pose proof (IH' (i - 1) j ltac:(lia) ltac:(lia) ltac:(lia)) as B1.
    pose proof (IH' i (j - 1) ltac:(lia) ltac:(lia) ltac:(lia)) as B2.
    pose proof (IH' (i - 1) (j - 1) ltac:(lia) ltac:(lia) ltac:(lia)) as B3.
    set (md := if bool_decide (sym src i ≠ sym tar j)
               then (inject_Z (f (i - 1)%Z (j - 1)%Z) + 1)%Q
               else inject_Z (f (i - 1) (j - 1))).
    assert (0 <= md <= inject_Z (Z.max i j + 1))%Q as Hmd.
    { unfold md. case_bool_decide.
      - split; [apply inject_Z_add_nonneg; (lia || lra) |].
        apply inject_Z_add_upper; [lra | lia].
      - split; [apply inject_Z_nonneg; lia | rewrite <- Zle_Qle; lia]. }
    assert (0 <= dl_swap_distance unit_cost f i j
                  (i_swap_of src tar i j) (j_swap_of src tar i j))%Q as Hsw.
    { unfold dl_swap_distance, unit_cost.
      destruct (_ && _) eqn:Hb; [| by vm_compute].
      apply andb_prop in Hb
        as [H1%bool_decide_eq_true_1 H2%bool_decide_eq_true_1].
      assert (0 ≤ (if bool_decide (i_swap_of src tar i j = 0)
                      && bool_decide (j_swap_of src tar i j = 0)
                   then 0
                   else f (0 `max` (i_swap_of src tar i j - 1))
                          (0 `max` (j_swap_of src tar i j - 1)))) as Hpre.
      { destruct (_ && _); [lia |]. apply IH'; lia. }
      apply inject_Z_nonneg in Hpre.
      assert (0 <= inject_Z (i - i_swap_of src tar i j - 1))%Q
        by (apply inject_Z_nonneg; lia).
      assert (0 <= inject_Z (j - j_swap_of src tar i j - 1))%Q
        by (apply inject_Z_nonneg; lia).
      lra. }
    split.
    + apply trunc_min_lower.
      forall_items ltac:(first
        [ apply inject_Z_add_nonneg; (lia || lra) | apply Hmd | apply Hsw ]).
    + apply (trunc_min_upper _ md); [in_list | apply Hmd].
Qed.

End DamerauProps.
(** The check of the costs made by [DamerauLevenshtein.dist_abs]. *)
Definition cost_unsupported (cost : cost_t) : bool :=
  let '(ins_cost, del_cost, sub_cost, trans_cost) := cost in
  Qlt_bool (2 * trans_cost) (ins_cost + del_cost).

Section DamerauDistance.
Context `{Countable A}.
Implicit Types (src tar : list A) (f g : Z → Z → Z) (cost : cost_t).

(** Past the fast paths and the check of the costs, [dist_abs] returns the
    last cell of the matrix. *)
Lemma dl_dist_abs_matrix src tar cost :
  src ≠ tar → src ≠ [] → tar ≠ [] → cost_unsupported cost = false →
  ∃ m, dl_matrix src tar cost = Ok m
       ∧ dl_filled src tar cost (cell 0 m)
       ∧ DamerauLevenshtein.dist_abs src tar cost
         = Ok (inject_Z (cell 0 m (len src - 1) (len tar - 1))).
Proof.
  intros Hne Hs Ht Hc.
  destruct (dl_matrix_filled src tar cost Hs Ht) as (m & Hm & Hsh & Hfill).
  exists m. split; [done |]. split; [done |].
  unfold DamerauLevenshtein.dist_abs.
  destruct cost as [[[ins_cost del_cost] sub_cost] trans_cost].
  rewrite !bool_decide_eq_false_2 by done.
  unfold cost_unsupported in Hc. rewrite Hc, Hm. monad_step.
  assert (1 ≤ len src ∧ 1 ≤ len tar) as [Hn Hm'].
  { unfold len. destruct src, tar; cbn; try done; lia. }
  rewrite (mat_get_ok 0 m _ _ _ _ Hsh) by lia. done.
Qed.

(** With unsupported costs [dist_abs] raises [ValueError] on distinct
    non-empty sequences, whatever the matrix would have been. *)
Lemma dl_dist_abs_unsupported src tar cost :
  src ≠ tar → src ≠ [] → tar ≠ [] → cost_unsupported cost = true →
  DamerauLevenshtein.dist_abs src tar cost = Raise ValueError.
Proof.
  intros Hne Hs Ht Hc. unfold DamerauLevenshtein.dist_abs.
  destruct cost as [[[ins_cost del_cost] sub_cost] trans_cost].
  rewrite !bool_decide_eq_false_2 by done.
  unfold cost_unsupported in Hc. by rewrite Hc.
Qed.

Lemma dl_dist_abs_sym src tar cost :
  (cost_ins cost == cost_del cost)%Q →
  result_eq (DamerauLevenshtein.dist_abs src tar cost)
            (DamerauLevenshtein.dist_abs tar src cost).
Proof.
  intros Hc.
  destruct (decide (src = tar)) as [-> | Hne].
  { unfold DamerauLevenshtein.dist_abs.
    destruct cost as [[[ins_cost del_cost] sub_cost] trans_cost].
    by rewrite bool_decide_eq_true_2 by done. }
  destruct (decide (src = [] ∨ tar = [])) as [Hempty | Hfull].
  { unfold DamerauLevenshtein.dist_abs.
    destruct cost as [[[ins_cost del_cost] sub_cost] trans_cost].
    unfold cost_ins, cost_del in Hc.
    repeat case_bool_decide; subst; try congruence; try tauto;
      unfold result_eq; by rewrite Hc. }
  assert (src ≠ [] ∧ tar ≠ []) as [Hs Ht] by tauto.
  destruct (cost_unsupported cost) eqn:Hu.
  { by rewrite !dl_dist_abs_unsupported by done. }
  destruct (dl_dist_abs_matrix src tar cost) as (m & _ & Hf & ->);
    [done.. |].
  destruct (dl_dist_abs_matrix tar src cost) as (m' & _ & Hg & ->);
    [done.. |].
  assert (1 ≤ len src ∧ 1 ≤ len tar) as [Hn Hm'].
  { unfold len. destruct src, tar; cbn; try done; lia. }
  unfold result_eq.
  rewrite (dl_filled_transpose src tar cost _ _ Hc Hf Hg);
    [reflexivity | lia..].
Qed.

(** Under unit costs [dist_abs] lies between [0] and the greater length. *)
Lemma dl_dist_abs_unit_bound src tar :
  ∃ d, DamerauLevenshtein.dist_abs src tar unit_cost = Ok d
       ∧ (0 <= d <= inject_Z (Z.max (len src) (len tar)))%Q.
Proof.
  destruct (decide (src = tar)) as [-> | Hne].
  { exists 0%Q. unfold DamerauLevenshtein.dist_abs, unit_cost.
    rewrite bool_decide_eq_true_2 by done. split; [done |].
    split; [lra |]. apply inject_Z_nonneg. unfold len. lia. }
  destruct (decide (src = [])) as [-> | Hs].
  { exists (lenQ tar * 1)%Q. unfold DamerauLevenshtein.dist_abs, unit_cost.
    rewrite (bool_decide_eq_false_2 _ Hne).
    rewrite bool_decide_eq_true_2 by done. split; [done |].
    pose proof (lenQ_nonneg tar). split; [lra |].
    unfold lenQ. rewrite Qmult_1_r. rewrite <- Zle_Qle. lia. }
  destruct (decide (tar = [])) as [-> | Ht].
  { exists (lenQ src * 1)%Q. unfold DamerauLevenshtein.dist_abs, unit_cost.
    rewrite (bool_decide_eq_false_2 _ Hne), (bool_decide_eq_false_2 _ Hs).
    rewrite bool_decide_eq_true_2 by done. split; [done |].
    pose proof (lenQ_nonneg src). split; [lra |].
    unfold lenQ. rewrite Qmult_1_r. rewrite <- Zle_Qle. lia. }
  destruct (dl_dist_abs_matrix src tar unit_cost) as (m & _ & Hf & ->);
    [done.. |].
  eexists. split; [done |].
  assert (1 ≤ len src ∧ 1 ≤ len tar) as [Hn Hm'].
  { unfold len. destruct src, tar; cbn; try done; lia. }
  pose proof (dl_filled_unit_bound src tar _ Hf (len src - 1) (len tar - 1)
                ltac:(lia) ltac:(lia)) as [Hlo Hhi].
  split; [by apply inject_Z_nonneg | rewrite <- Zle_Qle; lia].
Qed.

End DamerauDistance.
(** * The distances of [_levenshtein.py] *)


(** C1. With unit costs the distance of "ATCG" and "TAGC" is 3 in [lev]
    mode, 2 in [osa] mode and 2 for Damerau-Levenshtein, and the
    Damerau-Levenshtein distance of "cat" and "hat" is 1. *)
Theorem unit_cost_distances :
  Levenshtein.dist_abs (str "ATCG") (str "TAGC") "lev" unit_cost = Ok 3%Q
  ∧ Levenshtein.dist_abs (str "ATCG") (str "TAGC") "osa" unit_cost = Ok 2%Q
  ∧ DamerauLevenshtein.dist_abs (str "ATCG") (str "TAGC") unit_cost = Ok 2%Q
  ∧ DamerauLevenshtein.dist_abs (str "cat") (str "hat") unit_cost = Ok 1%Q.
Proof. vm_compute. repeat split. Qed.

(** The costs of the validation scenario: a transposition costs [0.1]. *)
Definition cheap_transposition : cost_t := (1%Q, 1%Q, 1%Q, (1 # 10)%Q).

(** C2, as stated, fails: with unsupported costs the Damerau-Levenshtein
    distance of two equal sequences is [0], and no error is raised. *)
Lemma unsupported_cost_not_raised_on_equal :
  ¬ (∀ (src tar : list Ascii.ascii) (cost : cost_t),
       cost_unsupported cost = true →
       DamerauLevenshtein.dist_abs src tar cost = Raise ValueError).
Proof.
  intros Hall.
  specialize (Hall (str "cat") (str "cat") cheap_transposition eq_refl).
  vm_compute in Hall. discriminate.
Qed.

Section DistanceClaims.
Context `{Countable A}.
Implicit Types (src tar : list A) (cost : cost_t).

(** C2, amended.  With costs such that [2 * trans_cost < ins_cost +
    del_cost], the Damerau-Levenshtein distance of two distinct non-empty
    sequences raises [ValueError]; the check stands before the construction
    of the matrix, which itself would not have raised.  Two equal sequences
    have distance [0] and an empty sequence has the fast-path distance to
    the other one, both without the check. *)
Theorem unsupported_cost_raised src tar cost :
  cost_unsupported cost = true →
  (src ≠ tar → src ≠ [] → tar ≠ [] →
   DamerauLevenshtein.dist_abs src tar cost = Raise ValueError
   ∧ ∃ m, dl_matrix src tar cost = Ok m)
  ∧ DamerauLevenshtein.dist_abs src src cost = Ok 0%Q
  ∧ (tar ≠ [] →
     DamerauLevenshtein.dist_abs [] tar cost
     = Ok (lenQ tar * cost_ins cost)%Q)
  ∧ (src ≠ [] →
     DamerauLevenshtein.dist_abs src [] cost
     = Ok (lenQ src * cost_del cost)%Q).
Proof.
  intros Hc. split; [| split; [| split]].
  - intros Hne Hs Ht. split; [by apply dl_dist_abs_unsupported |].
    destruct (dl_matrix_filled src tar cost Hs Ht) as (m & Hm & _). eauto.
  - unfold DamerauLevenshtein.dist_abs.
    destruct cost as [[[ins_cost del_cost] sub_cost] trans_cost].
    by rewrite bool_decide_eq_true_2.
  - intros Ht. unfold DamerauLevenshtein.dist_abs.
    destruct cost as [[[ins_cost del_cost] sub_cost] trans_cost].
    rewrite bool_decide_eq_false_2 by done.
    by rewrite bool_decide_eq_true_2.
  - intros Hs. unfold DamerauLevenshtein.dist_abs.
    destruct cost as [[[ins_cost del_cost] sub_cost] trans_cost].
    rewrite !bool_decide_eq_false_2 by done.
    by rewrite bool_decide_eq_true_2.
Qed.

(** C7. Under unit costs the normalized distance of any two sequences lies
    between [0] and [1], in every mode of [Levenshtein] and for
    [DamerauLevenshtein]: the distance itself is returned and lies between
    [0] and the greater of the two lengths. *)
Theorem unit_cost_normalized_bounds src tar (mode : string) :
  (∃ d, Levenshtein.dist_abs src tar mode unit_cost = Ok d
        ∧ (0 <= d <= inject_Z (Z.max (len src) (len tar)))%Q)
  ∧ (∃ q, Levenshtein.dist src tar mode unit_cost = Ok q ∧ (0 <= q <= 1)%Q)
  ∧ (∃ d, DamerauLevenshtein.dist_abs src tar unit_cost = Ok d
          ∧ (0 <= d <= inject_Z (Z.max (len src) (len tar)))%Q)
  ∧ (∃ q, DamerauLevenshtein.dist src tar unit_cost = Ok q ∧ (0 <= q <= 1)%Q).
Proof.
  assert (src ≠ tar →
          (0 < py_max (lenQ src * cost_del unit_cost)
                 [lenQ tar * cost_ins unit_cost])%Q
          ∧ (inject_Z (Z.max (len src) (len tar))
             <= py_max (lenQ src * cost_del unit_cost)
                  [lenQ tar * cost_ins unit_cost])%Q) as Hden.
  { intros Hne. cbn [cost_del cost_ins unit_cost].
    destruct (py_max_pair (lenQ src * 1) (lenQ tar * 1)) as [[H1 H2] _].
    pose proof (lenQ_nonneg src) as Hs. pose proof (lenQ_nonneg tar) as Ht.
    split.
    - destruct (decide (src = [])) as [-> | Hs'].
      + pose proof (lenQ_pos tar ltac:(congruence)). lra.
      + pose proof (lenQ_pos src Hs'). lra.
    - destruct (Z.max_spec (len src) (len tar)) as [[_ ->] | [_ ->]];
        fold (lenQ src); fold (lenQ tar); lra. }
  destruct (lev_dist_abs_unit_bound src tar mode) as (d & Hd & Hd0 & Hd1).
  destruct (dl_dist_abs_unit_bound src tar) as (d' & Hd' & Hd0' & Hd1').
  split; [by eauto |]. split; [| split; [by eauto |]].
  - unfold Levenshtein.dist. case_bool_decide as Hne.
    + exists 0%Q. split; [done | lra].
    + rewrite Hd. monad_step. destruct (Hden Hne) as [Hpos Hle].
      apply truediv_unit_interval; [done | lra | done].
  - unfold DamerauLevenshtein.dist. case_bool_decide as Hne.
    + exists 0%Q. split; [done | lra].
    + rewrite Hd'. monad_step. destruct (Hden Hne) as [Hpos Hle].
      apply truediv_unit_interval; [done | lra | done].
Qed.

(** C8. With equal insert and delete costs the distance does not depend
    on the order of the two sequences, in every mode of [Levenshtein] and
    for [DamerauLevenshtein]. *)
Theorem distance_symmetric src tar (mode : string) cost :
  (cost_ins cost == cost_del cost)%Q →
  result_eq (Levenshtein.dist_abs src tar mode cost)
            (Levenshtein.dist_abs tar src mode cost)
  ∧ result_eq (DamerauLevenshtein.dist_abs src tar cost)
              (DamerauLevenshtein.dist_abs tar src cost).
Proof.
  intros Hc. split; [by apply lev_dist_abs_sym | by apply dl_dist_abs_sym].
Qed.


(** C10. The normalized Indel distance of two distinct sequences is the
    Indel distance, which is the [lev] distance with costs
    [(1, 1, 9999, 9999)], divided by the sum of the two lengths, and lies
    between [0] and [1]. *)
Theorem indel_dist_sum_normalized src tar :
  src ≠ tar →
  ∃ d, Levenshtein.dist_abs src tar "lev" (1%Q, 1%Q, 9999%Q, 9999%Q) = Ok d
       ∧ Indel.dist_abs src tar = Ok d
       ∧ Indel.dist src tar = Ok (d / inject_Z (len src + len tar))%Q
       ∧ (0 <= d / inject_Z (len src + len tar) <= 1)%Q.
Proof.
  intros Hne.
  assert (0 < len src + len tar) as Hpos.
  { unfold len. destruct src, tar; cbn; try done; lia. }
  assert (0 < inject_Z (len src + len tar))%Q as HposQ
    by (change 0%Q with (inject_Z 0); by rewrite <- Zlt_Qlt).
  assert (∃ d, Levenshtein.dist_abs src tar "lev" indel_cost = Ok d
               ∧ (0 <= d <= inject_Z (len src + len tar))%Q)
    as (d & Hd & Hd0 & Hd1).
  { destruct (decide (src = [])) as [-> | Hs].
    { exists (lenQ tar * 1)%Q. unfold Levenshtein.dist_abs, indel_cost.
      rewrite (bool_decide_eq_false_2 _ Hne).
      rewrite bool_decide_eq_true_2 by done. split; [done |].
      pose proof (lenQ_nonneg tar). split; [lra |].
      unfold lenQ. rewrite Qmult_1_r. rewrite <- Zle_Qle. unfold len. cbn. lia. }
    destruct (decide (tar = [])) as [-> | Ht].
    { exists (lenQ src * 1)%Q. unfold Levenshtein.dist_abs, indel_cost.
      rewrite (bool_decide_eq_false_2 _ Hne), (bool_decide_eq_false_2 _ Hs).
      rewrite bool_decide_eq_true_2 by done. split; [done |].
      pose proof (lenQ_nonneg src). split; [lra |].
      unfold lenQ. rewrite Qmult_1_r. rewrite <- Zle_Qle. unfold len. cbn. lia. }
    destruct (lev_dist_abs_matrix src tar "lev" indel_cost)
      as (m & _ & Hf & ->); [done.. |].
    eexists. split; [done |].
    pose proof (lev_filled_indel_bound src tar _ Hf (len src) (len tar)
                  ltac:(unfold len; lia) ltac:(unfold len; lia)) as [Hlo Hhi].
    split; [by apply inject_Z_nonneg | by rewrite <- Zle_Qle]. }
  exists d. split; [exact Hd |]. split; [exact Hd |].
  destruct (truediv_unit_interval d (inject_Z (len src + len tar)))
    as (q & Hq & Hq01); [done.. |].
  unfold Indel.dist. rewrite bool_decide_eq_false_2 by done.
  unfold Indel.dist_abs. rewrite Hd. monad_step.
  unfold truediv in Hq |- *.
  destruct (Qeq_bool _ _); [done |]. injection Hq as <-. done.
Qed.

End DistanceClaims.

(** The validation scenario of the design: "ATCG" and "TAGC" with a
    transposition of cost [0.1]. *)
Lemma unsupported_cost_raised_witness :
  cost_unsupported cheap_transposition = true
  ∧ DamerauLevenshtein.dist_abs (str "ATCG") (str "TAGC") cheap_transposition
    = Raise ValueError.
Proof.
  split; [reflexivity |].
  apply (unsupported_cost_raised (str "ATCG") (str "TAGC")
           cheap_transposition eq_refl); discriminate.
Defined.

(** The symmetry on "ATCG" and "TAGC" under unit costs. *)
Lemma distance_symmetric_witness :
  result_eq (Levenshtein.dist_abs (str "ATCG") (str "TAGC") "osa" unit_cost)
            (Levenshtein.dist_abs (str "TAGC") (str "ATCG") "osa" unit_cost)
  ∧ result_eq (DamerauLevenshtein.dist_abs (str "ATCG") (str "TAGC") unit_cost)
              (DamerauLevenshtein.dist_abs (str "TAGC") (str "ATCG") unit_cost).
Proof.
  apply (distance_symmetric (str "ATCG") (str "TAGC") "osa" unit_cost).
  reflexivity.
Defined.

(** Fractional costs: every edit costs one half. *)
Definition half_cost : cost_t := ((1 # 2)%Q, (1 # 2)%Q, (1 # 2)%Q, (1 # 2)%Q).


(** Two substitutions of cost one half each add up to [0], not to [1]. *)
Example lev_dist_abs_half_cost :
  Levenshtein.dist_abs (str "ab") (str "cd") "lev" half_cost = Ok 0%Q.
Proof. vm_compute. reflexivity. Qed.

(** The normalized Indel distance of "cat" and "hat". *)
Lemma indel_dist_sum_normalized_witness :
  ∃ d, Levenshtein.dist_abs (str "cat") (str "hat") "lev" (1%Q, 1%Q, 9999%Q, 9999%Q)
       = Ok d
       ∧ Indel.dist_abs (str "cat") (str "hat") = Ok d
       ∧ Indel.dist (str "cat") (str "hat")
         = Ok (d / inject_Z (len (str "cat") + len (str "hat")))%Q
       ∧ (0 <= d / inject_Z (len (str "cat") + len (str "hat")) <= 1)%Q.
Proof.
  apply (indel_dist_sum_normalized (str "cat") (str "hat")). discriminate.
Defined.
(** * The phonetic edit distance *)

(** ** Loops and stores that return keep the shape of the matrix *)

Lemma for_each_preserves {S} (P : S → Prop) (xs : list Z)
    (body : Z → S → result S) (st st' : S) :
  (∀ k s s', body k s = Ok s' → P s → P s') →
  P st → for_each xs body st = Ok st' → P st'.
Proof.
  intros Hbody. revert st. induction xs as [| x xs IH]; intros st HP Hrun.
  - cbn in Hrun. by injection Hrun as <-.
  - cbn in Hrun. destruct (body x st) as [s1 |] eqn:E; [| done].
    cbn in Hrun. eapply IH; [| exact Hrun]. by eapply Hbody.
Qed.

Lemma mat_set_shape {A} (m m' : ndarray A) (r c i j : Z) (v : A) :
  mat_set m i j v = Ok m' → shape m r c → shape m' r c.
Proof.
  unfold mat_set. intros Hset [Hr Hc].
  destruct (norm_index (length m) i) as [ri |]; [| done]. cbn in Hset.
  destruct (m !! ri) as [row |] eqn:Hrow; [| done].
  destruct (norm_index (length row) j) as [cj |]; [| done]. cbn in Hset.
  injection Hset as <-. split.
  - unfold len. by rewrite length_insert.
  - intros k row' Hk. destruct (decide (k = ri)) as [-> | Hne].
    + rewrite list_lookup_insert_eq in Hk by (by eapply lookup_lt_Some).
      injection Hk as <-. unfold len. rewrite length_insert.
      by apply (Hc ri).
    + rewrite list_lookup_insert_ne in Hk by done. by eapply Hc.
Qed.

(** Split a run that returned into the runs of its steps. *)
Ltac bind_inv H :=
  repeat match type of H with
    | (?x ≫= _) = Ok _ =>
        let E := fresh "E" in
        destruct x eqn:E; [cbn [mbind result_bind] in H | discriminate H]
    | (if ?b then _ else _) = Ok _ =>
        let E := fresh "E" in destruct b eqn:E
    end.

Section PhoneticMatrix.
Context `{EqDecision A}.
Variable gap : A.
Variable W : Type.
Variable ipa_to_features : list A → list Z.
Variable cmp_features : Z → Z → W → Q.

Abbreviation PED := (PhoneticEditDistance W).

Lemma ped_cell_body_shape (self : PED) (src tar : list Z) (i j r c : Z)
    (m m' : ndarray Q) :
  ped_cell_body W cmp_features self src tar i j m = Ok m' →
  shape m r c → shape m' r c.
Proof.
  unfold ped_cell_body. intros Hrun Hsh.
  destruct (_cost W self) as [[[ins_cost del_cost] sub_cost] trans_cost].
  bind_inv Hrun;
    repeat match goal with
      | H : mat_set _ _ _ _ = Ok _ |- _ =>
          apply (mat_set_shape _ _ r c) in H; [| assumption]
      end;
    try (injection Hrun as <-); done.
Qed.

(** The matrix of [_alignment_matrix], when it is returned, has one row
    more than [src] has symbols and one column more than [tar]. *)
Lemma alignment_matrix_shape (self : PED) (src tar : list A) (m : ndarray Q) :
  PhoneticEditDistance._alignment_matrix W ipa_to_features cmp_features
    self src tar = Ok m →
  shape m (len src + 1) (len tar + 1).
Proof.
  unfold PhoneticEditDistance._alignment_matrix. intros Hrun.
  destruct (_cost W self) as [[[ins_cost del_cost] sub_cost] trans_cost].
  assert (0 ≤ len src ∧ 0 ≤ len tar) as [Hn Hm] by (unfold len; lia).
  pose proof (shape_zeros 0%Q (len src + 1) (len tar + 1)
                ltac:(lia) ltac:(lia)) as Hsh0.
  destruct (for_each _ _ _) as [m1 |] eqn:E1; [| done].
  cbn [mbind result_bind] in Hrun.
  destruct (for_each _ _ m1) as [m2 |] eqn:E2; [| done].
  cbn [mbind result_bind] in Hrun.
  set (P := λ m : ndarray Q, shape m (len src + 1) (len tar + 1)).
  apply (for_each_preserves P) in E1; [| | exact Hsh0]; cycle 1.
  { intros k s s' Hs. by eapply mat_set_shape. }
  apply (for_each_preserves P) in E2; [| | exact E1]; cycle 1.
  { intros k s s' Hs. by eapply mat_set_shape. }
  apply (for_each_preserves P) in Hrun; [exact Hrun | | exact E2].
  intros i s s' Hs Hsh.
  apply (for_each_preserves P) in Hs; [exact Hs | | exact Hsh].
  intros j s0 s0' Hs0. by eapply ped_cell_body_shape.
Qed.

End PhoneticMatrix.
(** ** The cells of [PhoneticEditDistance._alignment_matrix] *)

Lemma for_each_app {S} (xs ys : list Z) (body : Z → S → result S) (st : S) :
  for_each (xs ++ ys) body st = for_each xs body st ≫= for_each ys body.
Proof.
  revert st. induction xs as [| x xs IH]; intros st; cbn; [done |].
  destruct (body x st); cbn; [apply IH | done].
Qed.

Lemma range_split (a b c : Z) :
  a ≤ b ≤ c → range a c = range a b ++ range b c.
Proof.
  intros Habc. unfold range.
  replace (c - a) with ((b - a) + (c - b)) by lia.
  rewrite seqZ_app by lia. do 2 f_equal; lia.
Qed.

Section PhoneticCells.
Variable W : Type.
Variable cmp_features : Z → Z → W → Q.
Implicit Types (src tar : list Z) (f : Z → Z → Q).

Abbreviation PED' := (PhoneticEditDistance W).

(** The feature code at index [i], [0] outside the list. *)
Definition code_at (s : list Z) (i : Z) : Z := default 0 (s !! Z.to_nat i).

(** The value stored in cell [(i + 1, j + 1)] by the body of the double
    loop: the symbols compared are [src[i]] and [tar[j]], the symbols graded
    are [src[i]] and [tar[i]]. *)
Definition ped_recurrence (self : PED') src tar f (i j : Z) : Q :=
  let '(ins_cost, del_cost, sub_cost, trans_cost) := _cost W self in
  let a := f (i + 1) j in
  let b := f i (j + 1) in
  let c := f i j in
  let y := f (i - 1) (j - 1) in
  let sub :=
    if bool_decide (sym src i ≠ sym tar j)
    then (sub_cost
          * (1 - cmp_features (code_at src i) (code_at tar i)
                   (_weights W self)))%Q
    else 0%Q in
  let v := py_min (a + ins_cost)%Q [(b + del_cost)%Q; (c + sub)%Q] in
  if bool_decide (_mode W self = "osa"%string) && osa_guard src tar i j
  then py_min v [(y + trans_cost)%Q]
  else v.

Lemma ped_recurrence_ext (self : PED') src tar f g (i j : Z) :
  f (i + 1) j = g (i + 1) j → f i (j + 1) = g i (j + 1) → f i j = g i j →
  f (i - 1) (j - 1) = g (i - 1) (j - 1) →
  ped_recurrence self src tar f i j = ped_recurrence self src tar g i j.
Proof.
  intros H1 H2 H3 H4. unfold ped_recurrence.
  destruct (_cost W self) as [[[ins_cost del_cost] sub_cost] trans_cost].
  by rewrite H1, H2, H3, H4.
Qed.

Lemma getitem_code_at (s : list Z) (i : Z) :
  0 ≤ i < len s → getitem s i = Ok (code_at s i).
Proof.
  intros Hi. destruct (getitem_in_range s i Hi) as (x & Hx & ->).
  unfold code_at. by rewrite Hx.
Qed.

(** The second half of the body of the inner loop: the [osa] branch run on
    the matrix [m1] in which cell [(i + 1, j + 1)] holds [v]. *)
Lemma ped_cell_osa_ok (self : PED') src tar (n k i j : Z)
    (m m1 : ndarray Q) (v trans_cost : Q) :
  0 ≤ i < n → 0 ≤ j < k → i < len src → j < len tar →
  shape m1 (n + 1) (k + 1) →
  cell 0%Q m1 (i + 1) (j + 1) = v →
  (∀ i' j', i' ≠ i + 1 ∨ j' ≠ j + 1 → cell 0%Q m1 i' j' = cell 0%Q m i' j') →
  ∃ m',
    (if bool_decide (_mode W self = "osa"%string) then
       t ← osa_cond src tar i j;
       if t : bool then
         x ← mat_get m1 (i + 1) (j + 1);
         y ← mat_get m1 (i - 1) (j - 1);
         mat_set m1 (i + 1) (j + 1) (py_min x [y + trans_cost])%Q
       else Ok m1
     else Ok m1) = Ok m'
    ∧ shape m' (n + 1) (k + 1)
    ∧ cell 0%Q m' (i + 1) (j + 1)
      = (if bool_decide (_mode W self = "osa"%string) && osa_guard src tar i j
         then py_min v [(cell 0%Q m (i - 1) (j - 1) + trans_cost)%Q]
         else v)
    ∧ ∀ i' j', i' ≠ i + 1 ∨ j' ≠ j + 1 →
        cell 0%Q m' i' j' = cell 0%Q m i' j'.
Proof.
  intros Hi Hj Hsi Htj Hsh1 Hv1 Hfr1.
  destruct (bool_decide (_mode W self = "osa"%string)); cbn [andb];
    [| by eauto].
  rewrite osa_cond_ok by lia. monad_step.
  destruct (osa_guard src tar i j) eqn:Hg; [| by eauto].
  assert (1 ≤ i ∧ 1 ≤ j) as [Hi1 Hj1].
  { unfold osa_guard in Hg.
    apply andb_prop in Hg as [[[Hg1 Hg2]%andb_prop _]%andb_prop _].
    apply bool_decide_eq_true_1 in Hg1, Hg2. done. }
  rewrite (mat_get_ok 0%Q m1 _ _ (i + 1) (j + 1) Hsh1) by lia. monad_step.
  rewrite (mat_get_ok 0%Q m1 _ _ (i - 1) (j - 1) Hsh1) by lia. monad_step.
  rewrite Hv1, Hfr1 by lia.
  set (v2 := py_min _ _).
  destruct (mat_set_ok 0%Q m1 _ _ (i + 1) (j + 1) v2 Hsh1)
    as (m2 & -> & Hsh2 & Hv2 & Hfr2); [lia | lia |].
  exists m2. split; [done |]. split; [done |]. split; [done |].
  intros i' j' Hne. by rewrite Hfr2, Hfr1.
Qed.

(** Where [tar] has a symbol at the source index, or the two symbols
    compared are equal, the body of the inner loop fills cell
    [(i + 1, j + 1)] by the recurrence and changes no other cell. *)
Lemma ped_cell_body_ok (self : PED') src tar (n k i j : Z) (m : ndarray Q) :
  shape m (n + 1) (k + 1) →
  0 ≤ i < n → 0 ≤ j < k → i < len src → j < len tar →
  (sym src i ≠ sym tar j → i < len tar) →
  ∃ m', ped_cell_body W cmp_features self src tar i j m = Ok m'
        ∧ shape m' (n + 1) (k + 1)
        ∧ cell 0%Q m' (i + 1) (j + 1)
          = ped_recurrence self src tar (cell 0%Q m) i j
        ∧ ∀ i' j', i' ≠ i + 1 ∨ j' ≠ j + 1 →
            cell 0%Q m' i' j' = cell 0%Q m i' j'.
Proof.
  intros Hsh Hi Hj Hsi Htj Hti. unfold ped_cell_body, ped_recurrence.
  destruct (_cost W self) as [[[ins_cost del_cost] sub_cost] trans_cost].
  rewrite (mat_get_ok 0%Q m _ _ (i + 1) j Hsh) by lia. monad_step.
  rewrite (mat_get_ok 0%Q m _ _ i (j + 1) Hsh) by lia. monad_step.
  rewrite (mat_get_ok 0%Q m _ _ i j Hsh) by lia. monad_step.
  destruct (getitem_sym src i) as (si & Hsi' & Hgi); [lia |].
  destruct (getitem_sym tar j) as (tj & Htj' & Hgj); [lia |].
  rewrite Hgi, Hgj. monad_step.
  rewrite Hsi', Htj', bool_decide_Some_ne.
  assert (code_at src i = si) as ->.
  { unfold sym in Hsi'. rewrite decide_True in Hsi' by lia.
    unfold code_at. by rewrite Hsi'. }
  destruct (bool_decide (si ≠ tj)) eqn:Hb.
  1: { rewrite (getitem_code_at tar i); [| split; [lia |]].
       2: { apply Hti. rewrite Hsi', Htj'.
            apply bool_decide_eq_true_1 in Hb. congruence. }
       monad_step.
       set (v := py_min _ _).
       destruct (mat_set_ok 0%Q m _ _ (i + 1) (j + 1) v Hsh)
         as (m1 & -> & Hsh1 & Hv1 & Hfr1); [lia | lia |]. monad_step.
       by apply (ped_cell_osa_ok self src tar n k i j m m1 v trans_cost). }
  monad_step.
  set (v := py_min _ _).
  destruct (mat_set_ok 0%Q m _ _ (i + 1) (j + 1) v Hsh)
    as (m1 & -> & Hsh1 & Hv1 & Hfr1); [lia | lia |]. monad_step.
  by apply (ped_cell_osa_ok self src tar n k i j m m1 v trans_cost).
Qed.

(** Where the two symbols compared differ and [tar] has no symbol at the
    source index, the body of the inner loop raises [IndexError]. *)
Lemma ped_cell_body_index_error (self : PED') src tar (n k i j : Z)
    (m : ndarray Q) :
  shape m (n + 1) (k + 1) →
  0 ≤ i < n → 0 ≤ j < k → i < len src → j < len tar →
  sym src i ≠ sym tar j → len tar ≤ i →
  ped_cell_body W cmp_features self src tar i j m = Raise IndexError.
Proof.
  intros Hsh Hi Hj Hsi Htj Hne Hti. unfold ped_cell_body.
  destruct (_cost W self) as [[[ins_cost del_cost] sub_cost] trans_cost].
  rewrite (mat_get_ok 0%Q m _ _ (i + 1) j Hsh) by lia. monad_step.
  rewrite (mat_get_ok 0%Q m _ _ i (j + 1) Hsh) by lia. monad_step.
  rewrite (mat_get_ok 0%Q m _ _ i j Hsh) by lia. monad_step.
  destruct (getitem_sym src i) as (si & Hsi' & Hgi); [lia |].
  destruct (getitem_sym tar j) as (tj & Htj' & Hgj); [lia |].
  rewrite Hgi, Hgj. monad_step.
  rewrite (bool_decide_eq_true_2 (si ≠ tj))
    by (intros Heq; apply Hne; rewrite Hsi', Htj'; congruence).
  monad_step.
  by rewrite (getitem_out_of_range tar i Hti).
Qed.

(** [ped_filled self src tar n k f]: the cells [f] are those of the matrix
    of [n + 1] rows and [k + 1] columns built on the feature lists [src] and
    [tar]. *)
Definition ped_filled (self : PED') src tar (n k : Z) f : Prop :=
  (∀ i, 1 ≤ i ≤ n → f i 0 = (inject_Z i * cost_del (_cost W self))%Q)
  ∧ (∀ j, 0 ≤ j ≤ k → f 0 j = (inject_Z j * cost_ins (_cost W self))%Q)
  ∧ (∀ i j, 0 ≤ i < n → 0 ≤ j < k →
       f (i + 1) (j + 1) = ped_recurrence self src tar f i j).

(** The invariant of the double loop, as [lev_inv]. *)
Definition ped_inv (self : PED') src tar (n k i j : Z) (m : ndarray Q)
  : Prop :=
  shape m (n + 1) (k + 1)
  ∧ (∀ i', 1 ≤ i' ≤ n →
       cell 0%Q m i' 0 = (inject_Z i' * cost_del (_cost W self))%Q)
  ∧ (∀ j', 0 ≤ j' ≤ k →
       cell 0%Q m 0 j' = (inject_Z j' * cost_ins (_cost W self))%Q)
  ∧ (∀ i' j', 0 ≤ i' → 0 ≤ j' < k → i' < i ∨ (i' = i ∧ j' < j) →
       cell 0%Q m (i' + 1) (j' + 1)
       = ped_recurrence self src tar (cell 0%Q m) i' j').

(** [graded_in_range src tar i j]: the body of the inner loop at [(i, j)]
    reads [tar[i]] only where [tar] has a symbol at index [i]. *)
Definition graded_in_range src tar (i j : Z) : Prop :=
  sym src i ≠ sym tar j → i < len tar.

Lemma ped_inv_step (self : PED') src tar (n k i j : Z) (m : ndarray Q) :
  0 ≤ i < n → 0 ≤ j < k → n ≤ len src → k ≤ len tar →
  graded_in_range src tar i j →
  ped_inv self src tar n k i j m →
  ∃ m', ped_cell_body W cmp_features self src tar i j m = Ok m'
        ∧ ped_inv self src tar n k i (j + 1) m'.
Proof.
  intros Hi Hj Hn Hk Hgr (Hsh & Hcol & Hrow & Hrec).
  destruct (ped_cell_body_ok self src tar n k i j m Hsh Hi Hj
              ltac:(lia) ltac:(lia) Hgr)
    as (m' & Hrun & Hsh' & Hnew & Hfr).
  exists m'. split; [done |]. split; [done |]. split; [| split].
  - intros i' Hi'. rewrite Hfr by lia. by apply Hcol.
  - intros j' Hj'. rewrite Hfr by lia. by apply Hrow.
  - intros i' j' Hi' Hj' Hlt.
    destruct (decide (i' = i ∧ j' = j)) as [[-> ->] | Hne].
    + rewrite Hnew. apply ped_recurrence_ext; symmetry; apply Hfr; lia.
    + rewrite Hfr by lia. rewrite Hrec by lia.
      apply ped_recurrence_ext; symmetry; apply Hfr; lia.
Qed.

(** The two loops that set the first column and the first row. *)
Lemma ped_borders_ok (self : PED') src tar (n k : Z) :
  0 ≤ n → 0 ≤ k →
  ∃ m1 m,
    for_each (range 0 (n + 1))
      (λ i d_mat,
         mat_set d_mat i 0 (inject_Z i * cost_del (_cost W self))%Q)
      (np_zeros 0%Q (n + 1) (k + 1)) = Ok m1
    ∧ for_each (range 0 (k + 1))
        (λ j d_mat,
           mat_set d_mat 0 j (inject_Z j * cost_ins (_cost W self))%Q)
        m1 = Ok m
    ∧ ped_inv self src tar n k 0 0 m.
Proof.
  intros Hn Hk.
  pose proof (shape_zeros 0%Q (n + 1) (k + 1) ltac:(lia) ltac:(lia)) as Hsh0.
  edestruct (for_range_inv
    (λ x (m : ndarray Q), shape m (n + 1) (k + 1)
       ∧ ∀ i, 0 ≤ i < x →
           cell 0%Q m i 0 = (inject_Z i * cost_del (_cost W self))%Q)
    0 (n + 1)
    (λ i d_mat, mat_set d_mat i 0 (inject_Z i * cost_del (_cost W self))%Q)
    (np_zeros 0%Q (n + 1) (k + 1)))
    as (m1 & Hrun1 & Hsh1 & Hcol1); [lia | | |].
  { split; [exact Hsh0 | intros; lia]. }
  { intros x m Hx [Hsh Hc].
    destruct (mat_set_ok 0%Q m _ _ x 0
                (inject_Z x * cost_del (_cost W self))%Q Hsh)
      as (m' & -> & Hsh' & Hv & Hfr); [lia.. |].
    exists m'. split; [done |]. split; [done |].
    intros i Hi. destruct (decide (i = x)) as [-> | Hne]; [done |].
    rewrite Hfr by lia. apply Hc. lia. }
  edestruct (for_range_inv
    (λ x (m : ndarray Q), shape m (n + 1) (k + 1)
       ∧ (∀ i, 1 ≤ i ≤ n →
            cell 0%Q m i 0 = (inject_Z i * cost_del (_cost W self))%Q)
       ∧ ∀ j, 0 ≤ j < x →
           cell 0%Q m 0 j = (inject_Z j * cost_ins (_cost W self))%Q)
    0 (k + 1)
    (λ j d_mat, mat_set d_mat 0 j (inject_Z j * cost_ins (_cost W self))%Q)
    m1)
    as (m2 & Hrun2 & Hsh2 & Hcol2 & Hrow2); [lia | | |].
  { split; [exact Hsh1 |]. split; [| intros; lia].
    intros i Hi. apply Hcol1. lia. }
  { intros x m Hx (Hsh & Hc & Hr).
    destruct (mat_set_ok 0%Q m _ _ 0 x
                (inject_Z x * cost_ins (_cost W self))%Q Hsh)
      as (m' & -> & Hsh' & Hv & Hfr); [lia.. |].
    exists m'. split; [done |]. split; [done |]. split.
    - intros i Hi. rewrite Hfr by lia. by apply Hc.
    - intros j Hj. destruct (decide (j = x)) as [-> | Hne]; [done |].
      rewrite Hfr by lia. apply Hr. lia. }
  exists m1, m2. split; [exact Hrun1 |]. split; [exact Hrun2 |].
  split; [done |]. split; [done |].
  split; [intros; apply Hrow2; lia | intros; lia].
Qed.

(** The rows before [i1] of the double loop, when every cell of them reads
    [tar] in range. *)
Lemma ped_rows_ok (self : PED') src tar (n k i1 : Z) (m : ndarray Q) :
  0 ≤ i1 ≤ n → 0 ≤ k → n ≤ len src → k ≤ len tar →
  (∀ i j, 0 ≤ i < i1 → 0 ≤ j < k → graded_in_range src tar i j) →
  ped_inv self src tar n k 0 0 m →
  ∃ m', for_each (range 0 i1)
          (λ i d_mat,
             for_each (range 0 k)
               (λ j d_mat, ped_cell_body W cmp_features self src tar i j d_mat)
               d_mat) m = Ok m'
        ∧ ped_inv self src tar n k i1 0 m'.
Proof.
  intros Hi1 Hk Hn Hk' Hgr Hinv.
  apply (for_range_inv (λ i m, ped_inv self src tar n k i 0 m));
    [lia | done |].
  intros i m0 Hi Hinv0.
  edestruct (for_range_inv (λ j m, ped_inv self src tar n k i j m) 0 k)
    as (m' & Hrun & Hinv'); [lia | exact Hinv0 | |].
  { intros j m1 Hj Hinv1. apply ped_inv_step; try done; try lia.
    apply Hgr; lia. }
  exists m'. split; [exact Hrun |].
  destruct Hinv' as (Hsh' & Hc' & Hr' & Hrec').
  split; [done |]. split; [done |]. split; [done |].
  intros i' j' Hi' Hj' Hlt. apply Hrec'; lia.
Qed.

End PhoneticCells.

Section PhoneticTotality.
Context `{EqDecision A}.
Variable W : Type.
Variable ipa_to_features : list A → list Z.
Variable cmp_features : Z → Z → W → Q.

(** When every cell reads the target features in range,
    [_alignment_matrix] returns the matrix filled by the recurrence. *)
Lemma alignment_matrix_filled (self : PhoneticEditDistance W)
    (src tar : list A) :
  len src ≤ len (ipa_to_features src) →
  len tar ≤ len (ipa_to_features tar) →
  (∀ i j, 0 ≤ i < len src → 0 ≤ j < len tar →
     graded_in_range (ipa_to_features src) (ipa_to_features tar) i j) →
  ∃ m, PhoneticEditDistance._alignment_matrix W ipa_to_features cmp_features
         self src tar = Ok m
       ∧ ped_filled W cmp_features self
           (ipa_to_features src) (ipa_to_features tar)
           (len src) (len tar) (cell 0%Q m).
Proof.
  intros Hs Ht Hgr.
  assert (0 ≤ len src ∧ 0 ≤ len tar) as [Hn Hk] by (unfold len; lia).
  destruct (ped_borders_ok W cmp_features self
              (ipa_to_features src) (ipa_to_features tar)
              (len src) (len tar) Hn Hk) as (m1 & m2 & Hrun1 & Hrun2 & Hinv2).
  destruct (ped_rows_ok W cmp_features self
              (ipa_to_features src) (ipa_to_features tar)
              (len src) (len tar) (len src) m2)
    as (m3 & Hrun3 & Hsh3 & Hcol3 & Hrow3 & Hrec3); [lia.. | done | done |].
  exists m3. split.
  - unfold PhoneticEditDistance._alignment_matrix.
    destruct (_cost W self) as [[[ins_cost del_cost] sub_cost] trans_cost].
    cbn [cost_del cost_ins] in Hrun1, Hrun2.
    rewrite Hrun1. monad_step. rewrite Hrun2. monad_step. exact Hrun3.
  - split; [done |]. split; [done |].
    intros i j Hi Hj. apply Hrec3; lia.
Qed.

(** When the cell of loop indices [(i0, j0)] is the first to compare two
    different codes at a source index that [tar] does not have,
    [PhoneticEditDistance._alignment_matrix] raises [IndexError]. *)
Lemma alignment_matrix_index_error (self : PhoneticEditDistance W)
    (src tar : list A) (i0 j0 : Z) :
  len src ≤ len (ipa_to_features src) →
  len tar ≤ len (ipa_to_features tar) →
  0 ≤ i0 < len src → 0 ≤ j0 < len tar →
  (∀ i j, 0 ≤ i → 0 ≤ j < len tar → i < i0 ∨ (i = i0 ∧ j < j0) →
     graded_in_range (ipa_to_features src) (ipa_to_features tar) i j) →
  sym (ipa_to_features src) i0 ≠ sym (ipa_to_features tar) j0 →
  len (ipa_to_features tar) ≤ i0 →
  PhoneticEditDistance._alignment_matrix W ipa_to_features cmp_features self src tar
  = Raise IndexError.
Proof.
  intros Hs Ht Hi0 Hj0 Hgr Hne Hout.
  destruct (ped_borders_ok W cmp_features self
              (ipa_to_features src) (ipa_to_features tar)
              (len src) (len tar) ltac:(lia) ltac:(lia))
    as (m1 & m2 & Hrun1 & Hrun2 & Hinv2).
  destruct (ped_rows_ok W cmp_features self
              (ipa_to_features src) (ipa_to_features tar)
              (len src) (len tar) i0 m2)
    as (m3 & Hrun3 & Hinv3); [lia.. | | done |].
  { intros i j Hi Hj. apply Hgr; lia. }
  edestruct (for_range_inv
    (λ j m, ped_inv W cmp_features self
              (ipa_to_features src) (ipa_to_features tar)
              (len src) (len tar) i0 j m) 0 j0)
    as (m4 & Hrun4 & Hsh4 & _); [lia | exact Hinv3 | |].
  { intros j m Hj Hinv. apply ped_inv_step; try done; try lia.
    apply Hgr; lia. }
  unfold PhoneticEditDistance._alignment_matrix.
  destruct (_cost W self) as [[[ins_cost del_cost] sub_cost] trans_cost].
  cbn [cost_del cost_ins] in Hrun1, Hrun2.
  rewrite Hrun1. monad_step. rewrite Hrun2. monad_step.
  rewrite (range_split 0 i0 (len src)) by lia.
  rewrite for_each_app, Hrun3. monad_step.
  rewrite (range_cons i0) by lia. cbn [for_each].
  rewrite (range_split 0 j0 (len tar)) by lia.
  rewrite for_each_app, Hrun4. monad_step.
  rewrite (range_cons j0) by lia. cbn [for_each].
  by rewrite (ped_cell_body_index_error W cmp_features _ _ _
                (len src) (len tar) i0 j0 m4) by (done || lia).
Qed.

(** A source longer than a non-empty target, with one feature code for
    each symbol, whose code at index [len(tar)] is not the first code of
    the target: [dist_abs] raises [IndexError]. *)
Lemma ped_dist_abs_longer_source (self : PhoneticEditDistance W)
    (src tar : list A) :
  len (ipa_to_features src) = len src →
  len (ipa_to_features tar) = len tar →
  1 ≤ len tar < len src →
  sym (ipa_to_features src) (len tar) ≠ sym (ipa_to_features tar) 0 →
  PhoneticEditDistance.dist_abs W ipa_to_features cmp_features self src tar
  = Raise IndexError.
Proof.
  intros Hs Ht Hlen Hne.
  assert (src ≠ tar) as Hst by (intros ->; lia).
  assert (src ≠ []) as Hs0 by (intros ->; unfold len in Hlen; cbn in Hlen; lia).
  assert (tar ≠ []) as Ht0 by (intros ->; unfold len in Hlen; cbn in Hlen; lia).
  unfold PhoneticEditDistance.dist_abs.
  destruct (_cost W self) as [[[ins_cost del_cost] sub_cost] trans_cost] eqn:Hc.
  rewrite !bool_decide_eq_false_2 by done.
  rewrite (alignment_matrix_index_error self src tar (len tar) 0);
    [done | lia | lia | lia | lia | | done | lia].
  intros i j Hi Hj Hlt Hd. lia.
Qed.

End PhoneticTotality.

(** ** The backtrace of [alignment] *)

Lemma while_loop_exit {S} (fuel : nat) (cond : S → bool)
    (body : S → result S) (st : S) :
  cond st = false → while_loop fuel cond body st = Ok st.
Proof. intros Hc. destruct fuel; cbn; by rewrite Hc. Qed.

Lemma while_loop_step {S} (fuel : nat) (cond : S → bool)
    (body : S → result S) (st : S) :
  cond st = true →
  while_loop (Datatypes.S fuel) cond body st
  = body st ≫= while_loop fuel cond body.
Proof. intros Hc. cbn. by rewrite Hc. Qed.

Section PhoneticAlignment.
Context `{EqDecision A}.
Variable gap : A.
Variable W : Type.
Variable ipa_to_features : list A → list Z.
Variable cmp_features : Z → Z → W → Q.

(** The alignment as the design describes it, as the list of the aligned
    pairs of symbols from left to right.  From cell [(i, j)] with both
    indices positive: the diagonal step when the diagonal cell is at most
    the least of the upper and the left one, else the upper step, with a
    gap on the source side, when the upper cell is at most the left one,
    else the left step, with a gap on the target side.  Once an index is
    zero the rest of the other sequence is aligned with gaps.  [n] bounds
    the number of steps. *)
Fixpoint aligned_pairs (n : nat) (d : Z → Z → Q) (src tar : list A)
    (i j : nat) : list (A * A) :=
  match n with
  | O => []
  | S n' =>
      match i, j with
      | O, O => []
      | O, S j' =>
          aligned_pairs n' d src tar O j' ++ [(gap, default gap (tar !! j'))]
      | S i', O =>
          aligned_pairs n' d src tar i' O ++ [(default gap (src !! i'), gap)]
      | S i', S j' =>
          let diag := d (Z.of_nat i') (Z.of_nat j') in
          let upper := d (Z.of_nat i) (Z.of_nat j') in
          let left := d (Z.of_nat i') (Z.of_nat j) in
          if Qle_bool diag (py_min upper [left]) then
            aligned_pairs n' d src tar i' j'
            ++ [(default gap (src !! i'), default gap (tar !! j'))]
          else if Qle_bool upper left then
            aligned_pairs n' d src tar i j' ++ [(gap, default gap (tar !! j'))]
          else
            aligned_pairs n' d src tar i' j ++ [(default gap (src !! i'), gap)]
      end
  end.

Lemma getitem_default (s : list A) (k : nat) :
  (k < length s)%nat → getitem s (Z.of_nat k) = Ok (default gap (s !! k)).
Proof.
  intros Hk. destruct (lookup_lt_is_Some_2 s k Hk) as [x Hx].
  rewrite Hx. apply getitem_lookup; [lia |]. by rewrite Nat2Z.id.
Qed.

Lemma reverse_fst_snoc (l : list (A * A)) (p : A * A) (acc : list A) :
  acc ++ reverse ((l ++ [p]).*1) = (acc ++ [p.1]) ++ reverse (l.*1).
Proof. rewrite fmap_app, reverse_app. cbn. by rewrite <- app_assoc. Qed.

Lemma reverse_snd_snoc (l : list (A * A)) (p : A * A) (acc : list A) :
  acc ++ reverse ((l ++ [p]).*2) = (acc ++ [p.2]) ++ reverse (l.*2).
Proof. rewrite fmap_app, reverse_app. cbn. by rewrite <- app_assoc. Qed.

Lemma tar_rest_body_eq (tar : list A) (sp tp : Z) (sa ta : list A) :
  tar_rest_body gap tar (sp, tp, sa, ta)
  = (t ← getitem tar (tp - 1); Ok (sp, tp - 1, sa ++ [gap], ta ++ [t])).
Proof. reflexivity. Qed.

Lemma src_rest_body_eq (src : list A) (sp tp : Z) (sa ta : list A) :
  src_rest_body gap src (sp, tp, sa, ta)
  = (s ← getitem src (sp - 1); Ok (sp - 1, tp, sa ++ [s], ta ++ [gap])).
Proof. reflexivity. Qed.

Lemma walk_body_eq (m : ndarray Q) (src tar : list A) (sp tp : Z)
    (sa ta : list A) :
  walk_body gap m src tar (sp, tp, sa, ta)
  = (up ← mat_get m sp (tp - 1);
     left ← mat_get m (sp - 1) tp;
     diag ← mat_get m (sp - 1) (tp - 1);
     if Qle_bool diag (py_min up [left]) then
       s ← getitem src (sp - 1);
       t ← getitem tar (tp - 1);
       Ok (sp - 1, tp - 1, sa ++ [s], ta ++ [t])
     else if Qle_bool up left then
       t ← getitem tar (tp - 1);
       Ok (sp, tp - 1, sa ++ [gap], ta ++ [t])
     else
       s ← getitem src (sp - 1);
       Ok (sp - 1, tp, sa ++ [s], ta ++ [gap])).
Proof. reflexivity. Qed.

(** The three loops of [alignment], run from position [(i, j)] with enough
    iterations, reach [(0, 0)] and have appended the aligned pairs of
    [aligned_pairs], last pair first. *)
Lemma backtrace_from (m : ndarray Q) (src tar : list A) :
  shape m (len src + 1) (len tar + 1) →
  ∀ (n i j f1 f2 f3 : nat) (sa ta : list A),
    (i + j ≤ n)%nat → (i ≤ length src)%nat → (j ≤ length tar)%nat →
    (i + j ≤ f1)%nat → (i + j ≤ f2)%nat → (i + j ≤ f3)%nat →
    (st ← while_loop f1 walk_cond (walk_body gap m src tar)
           (Z.of_nat i, Z.of_nat j, sa, ta);
     st ← while_loop f2 tar_rest_cond (tar_rest_body gap tar) st;
     while_loop f3 src_rest_cond (src_rest_body gap src) st)
    = Ok (0, 0,
          sa ++ reverse ((aligned_pairs n (cell 0%Q m) src tar i j).*1),
          ta ++ reverse ((aligned_pairs n (cell 0%Q m) src tar i j).*2)).
Proof.
  intros Hsh. induction n as [| n IH]; intros i j f1 f2 f3 sa ta Hn Hi Hj H1 H2 H3.
  { assert (i = O ∧ j = O) as [-> ->] by lia.
    rewrite while_loop_exit by done. monad_step.
    rewrite while_loop_exit by done. monad_step.
    rewrite while_loop_exit by done. cbn. by rewrite !app_nil_r. }
  destruct i as [| i'], j as [| j'].
  - rewrite while_loop_exit by done. monad_step.
    rewrite while_loop_exit by done. monad_step.
    rewrite while_loop_exit by done. cbn. by rewrite !app_nil_r.
  - rewrite while_loop_exit by done. monad_step.
    destruct f2 as [| f2']; [lia |].
    rewrite while_loop_step by done.
    rewrite tar_rest_body_eq.
    replace (Z.of_nat (S j') - 1) with (Z.of_nat j') by lia.
    rewrite getitem_default by lia. monad_step.
    specialize (IH O j' f1 f2' f3 (sa ++ [gap])
                  (ta ++ [default gap (tar !! j')])
                  ltac:(lia) ltac:(lia) ltac:(lia) ltac:(lia) ltac:(lia)
                  ltac:(lia)).
    rewrite while_loop_exit in IH by done. cbn [mbind result_bind] in IH.
    cbn [aligned_pairs]. rewrite reverse_fst_snoc, reverse_snd_snoc.
    exact IH.
  - rewrite while_loop_exit by (cbn; by rewrite andb_false_r). monad_step.
    rewrite while_loop_exit by done. monad_step.
    destruct f3 as [| f3']; [lia |].
    rewrite while_loop_step by done.
    rewrite src_rest_body_eq.
    replace (Z.of_nat (S i') - 1) with (Z.of_nat i') by lia.
    rewrite getitem_default by lia. monad_step.
    specialize (IH i' O f1 f2 f3' (sa ++ [default gap (src !! i')])
                  (ta ++ [gap])
                  ltac:(lia) ltac:(lia) ltac:(lia) ltac:(lia) ltac:(lia)
                  ltac:(lia)).
    rewrite while_loop_exit in IH by (cbn; by rewrite andb_false_r).
    cbn [mbind result_bind] in IH.
    rewrite while_loop_exit in IH by done. cbn [mbind result_bind] in IH.
    cbn [aligned_pairs]. rewrite reverse_fst_snoc, reverse_snd_snoc.
    exact IH.
  - destruct f1 as [| f1']; [lia |].
    rewrite while_loop_step by done.
    rewrite walk_body_eq.
    replace (Z.of_nat (S j') - 1) with (Z.of_nat j') by lia.
    replace (Z.of_nat (S i') - 1) with (Z.of_nat i') by lia.
    unfold len in Hsh.
    rewrite !(mat_get_ok 0%Q m _ _ _ _ Hsh) by lia. monad_step.
    cbn [aligned_pairs]. cbv zeta.
    destruct (Qle_bool _ (py_min _ _)); [| destruct (Qle_bool _ _)].
    + rewrite !getitem_default by lia. monad_step.
      rewrite reverse_fst_snoc, reverse_snd_snoc.
      apply IH; lia.
    + rewrite !getitem_default by lia. monad_step.
      rewrite reverse_fst_snoc, reverse_snd_snoc.
      apply (IH (S i')); lia.
    + rewrite !getitem_default by lia. monad_step.
      rewrite reverse_fst_snoc, reverse_snd_snoc.
      apply (IH i' (S j')); lia.
Qed.

End PhoneticAlignment.
(** ** The claims on the phonetic edit distance and on the normalizer *)

(** The normalizer as the design describes it: [0] for equal sequences,
    without calling the reduction, and otherwise the raw distance divided by
    the reduction of the two products of a length and a cost. *)
Definition normalized_spec `{EqDecision A} (reduce : list Q → Q)
    (raw : result Q) (src tar : list A) (cost : cost_t) : result Q :=
  if bool_decide (src = tar) then Ok 0%Q
  else
    d ← raw;
    truediv d (reduce [lenQ src * cost_del cost; lenQ tar * cost_ins cost]%Q).

Section PhoneticClaims.
Context `{Countable A}.
Variable gap : A.
Variable W : Type.
Variable ipa_to_features : list A → list Z.
Variable cmp_features : Z → Z → W → Q.

(** The instance made by [PhoneticEditDistance()] with the default
    arguments of [__init__]; [weights] is the value stored for
    [weights=None]. *)
Definition PhoneticEditDistance_default (weights : W)
  : PhoneticEditDistance W :=
  {| _mode := "lev";
     _cost := ((3 # 10)%Q, (3 # 10)%Q, 1%Q, (1 # 10)%Q);
     _normalizer := py_max_list;
     _weights := weights |}.

(** C5. On the matrix returned by [_alignment_matrix], [alignment] returns
    the last cell as the distance and the two sides of the alignment that
    the fixed order of the three steps gives: diagonal first, then upper
    with a gap on the source side, then left with a gap on the target side,
    and the rest of one sequence against gaps once the other is used up.
    The two aligned sequences have the same length. *)
Theorem alignment_tie_break (self : PhoneticEditDistance W)
    (src tar : list A) (m : ndarray Q) :
  PhoneticEditDistance._alignment_matrix W ipa_to_features cmp_features
    self src tar = Ok m →
  let pairs :=
    aligned_pairs gap (length src + length tar) (cell 0%Q m) src tar
      (length src) (length tar) in
  PhoneticEditDistance.alignment gap W ipa_to_features cmp_features self src tar
  = Ok (cell 0%Q m (len src) (len tar), pairs.*1, pairs.*2)
  ∧ length pairs.*1 = length pairs.*2.
Proof.
  intros Hm pairs. split; [| by rewrite !length_fmap].
  pose proof (alignment_matrix_shape W ipa_to_features cmp_features
                self src tar m Hm) as Hsh.
  unfold PhoneticEditDistance.alignment. rewrite Hm. monad_step.
  rewrite (mat_get_ok 0%Q m _ _ _ _ Hsh) by (unfold len; lia). monad_step.
  unfold backtrace, len.
  rewrite (backtrace_from gap m src tar Hsh (length src + length tar))
    by lia.
  monad_step. cbn [app]. by rewrite !reverse_involutive.
Qed.

(** [alignment] returns whenever the source, with one feature code for each
    symbol, is not longer than the target. *)
Lemma alignment_returns (self : PhoneticEditDistance W) (src tar : list A) :
  len (ipa_to_features src) = len src →
  len (ipa_to_features tar) = len tar →
  len src ≤ len tar →
  ∃ d sa ta,
    PhoneticEditDistance.alignment gap W ipa_to_features cmp_features
      self src tar = Ok (d, sa, ta).
Proof.
  intros Hs Ht Hlen.
  destruct (alignment_matrix_filled W ipa_to_features cmp_features
              self src tar) as (m & Hm & _); [lia | lia | |].
  { intros i j Hi Hj Hne. lia. }
  pose proof (alignment_matrix_shape W ipa_to_features cmp_features
                self src tar m Hm) as Hsh.
  unfold PhoneticEditDistance.alignment. rewrite Hm. monad_step.
  rewrite (mat_get_ok 0%Q m _ _ _ _ Hsh) by (unfold len; lia). monad_step.
  unfold backtrace, len.
  rewrite (backtrace_from gap m src tar Hsh (length src + length tar))
    by lia.
  monad_step. eauto.
Qed.

(** C6. The three normalized distances are the raw distance divided by
    the reduction of [len(src) * del_cost] and [len(tar) * ins_cost], the
    reduction being [max] for [Levenshtein] and [DamerauLevenshtein] and
    the normalizer of the instance, [max] by default, for the phonetic
    distance; for equal sequences they are [0] whatever the costs and the
    reduction. *)
Theorem normalized_distance_spec (self : PhoneticEditDistance W)
    (src tar : list A) (mode : string) (cost : cost_t) (weights : W) :
  Levenshtein.dist src tar mode cost
  = normalized_spec py_max_list (Levenshtein.dist_abs src tar mode cost) src tar cost
  ∧ DamerauLevenshtein.dist src tar cost
    = normalized_spec py_max_list (DamerauLevenshtein.dist_abs src tar cost)
        src tar cost
  ∧ PhoneticEditDistance.dist W ipa_to_features cmp_features self src tar
    = normalized_spec (_normalizer W self)
        (PhoneticEditDistance.dist_abs W ipa_to_features cmp_features self src tar)
        src tar (_cost W self)
  ∧ _normalizer W (PhoneticEditDistance_default weights) = py_max_list
  ∧ Levenshtein.dist src src mode cost = Ok 0%Q
  ∧ DamerauLevenshtein.dist src src cost = Ok 0%Q
  ∧ PhoneticEditDistance.dist W ipa_to_features cmp_features self src src = Ok 0%Q.
Proof.
  split; [| split; [| split; [| split; [| split; [| split]]]]].
  - unfold Levenshtein.dist, normalized_spec. by case_bool_decide.
  - unfold DamerauLevenshtein.dist, normalized_spec. by case_bool_decide.
  - unfold PhoneticEditDistance.dist, normalized_spec. by case_bool_decide.
  - reflexivity.
  - unfold Levenshtein.dist. by rewrite bool_decide_eq_true_2.
  - unfold DamerauLevenshtein.dist. by rewrite bool_decide_eq_true_2.
  - unfold PhoneticEditDistance.dist. by rewrite bool_decide_eq_true_2.
Qed.

End PhoneticClaims.
(** ** The phonetic distance on concrete inputs *)

(** A stand-in for the feature table of [abydos.phones]: the feature code
    of a character is its character code, one code for each character. *)
Definition char_features (s : list Ascii.ascii) : list Z :=
  (λ c, Z.of_nat (Ascii.nat_of_ascii c)) <$> s.

(** A stand-in for [cmp_features]: an agreement that is [1] for equal codes,
    symmetric, and lower the farther the codes are apart. *)
Definition char_agreement (a b : Z) (_ : unit) : Q :=
  (1 / (1 + inject_Z (Z.abs (a - b))))%Q.

(** The gap marker ['-']. *)
Definition char_gap : Ascii.ascii := Ascii.ascii_of_nat 45.

(** The substitution cost of two feature codes as the design states it. *)
Definition sub_cost_claimed {W} (cmp_features : Z → Z → W → Q)
    (self : PhoneticEditDistance W) (a b : Z) : Q :=
  let '(ins_cost, del_cost, sub_cost, trans_cost) := _cost W self in
  if bool_decide (a = b) then 0%Q
  else (sub_cost * (1 - cmp_features a b (_weights W self)))%Q.

(** The interior cell [(i, j)] as the design states it, from the cells [d]:
    the substitution candidate is graded on the symbols [src[i - 1]] and
    [tar[j - 1]]. *)
Definition interior_cell_claimed {W} (cmp_features : Z → Z → W → Q)
    (self : PhoneticEditDistance W) (src tar : list Z) (d : Z → Z → Q)
    (i j : Z) : Q :=
  let '(ins_cost, del_cost, sub_cost, trans_cost) := _cost W self in
  let a := d i (j - 1) in
  let b := d (i - 1) j in
  let c := d (i - 1) (j - 1) in
  let si := default 0 (src !! Z.to_nat (i - 1)) in
  let tj := default 0 (tar !! Z.to_nat (j - 1)) in
  py_min (a + ins_cost)%Q
    [(b + del_cost)%Q; (c + sub_cost_claimed cmp_features self si tj)%Q].

(** C3 fails on the code.  For "b" and "zc" the cell [(1, 2)] compares [b]
    with [c], but its substitution candidate is graded on [b] and [z], the
    target symbol at the index of the source symbol: the cell is [9/10]
    where the design gives [8/10], and so is the distance. *)
Theorem graded_cost_reads_wrong_target_symbol :
  let self := PhoneticEditDistance_default unit tt in
  ∃ m : ndarray Q,
    PhoneticEditDistance._alignment_matrix unit char_features char_agreement self
      (str "b") (str "zc") = Ok m
    ∧ (cell 0 m 1 2 == 9 # 10)%Q
    ∧ (cell 0 m 1 2
       == py_min (cell 0 m 1 1 + (3 # 10))
            [cell 0 m 0 2 + (3 # 10);
             cell 0 m 0 1 + 1 * (1 - char_agreement 98 122 tt)])%Q
    ∧ (interior_cell_claimed char_agreement self
         (char_features (str "b")) (char_features (str "zc")) (cell 0 m) 1 2
       == 8 # 10)%Q
    ∧ result_eq (PhoneticEditDistance.dist_abs unit char_features char_agreement self
                   (str "b") (str "zc")) (Ok (9 # 10)%Q).
Proof.
  eexists. split; [vm_compute; reflexivity |].
  repeat split; vm_compute; reflexivity.
Qed.

(** C4 fails on the code.  For "ab" and "c" the loop reaches the source
    index [1], reads the target at that index and raises [IndexError]. *)
Theorem ped_dist_abs_raises_index_error :
  let self := PhoneticEditDistance_default unit tt in
  PhoneticEditDistance.dist_abs unit char_features char_agreement self
    (str "ab") (str "c")
  = Raise IndexError
  ∧ PhoneticEditDistance.dist unit char_features char_agreement self
      (str "ab") (str "c")
    = Raise IndexError
  ∧ PhoneticEditDistance.alignment char_gap unit char_features char_agreement self
      (str "ab") (str "c") = Raise IndexError.
Proof. vm_compute. repeat split. Qed.

(** The alignment of "cat" and "hats" with the default costs. *)
Lemma alignment_tie_break_witness :
  let self := PhoneticEditDistance_default unit tt in
  ∃ m : ndarray Q,
    PhoneticEditDistance._alignment_matrix unit char_features char_agreement self
      (str "cat") (str "hats") = Ok m
    ∧ PhoneticEditDistance.alignment char_gap unit char_features char_agreement self
        (str "cat") (str "hats")
      = Ok (cell 0%Q m 3 4,
            (aligned_pairs char_gap 7 (cell 0%Q m) (str "cat") (str "hats")
               3 4).*1,
            (aligned_pairs char_gap 7 (cell 0%Q m) (str "cat") (str "hats")
               3 4).*2).
Proof.
  eexists. split; [vm_compute; reflexivity |].
  apply (alignment_tie_break char_gap unit char_features char_agreement
           (PhoneticEditDistance_default unit tt) (str "cat") (str "hats")).
  vm_compute. reflexivity.
Defined.

(** The normalizer may be [sum]: the distance of "cat" and "hat" under unit
    costs, [1 - 1/6 = 5/6], divided by [3 + 3]. *)
Example dist_sum_normalizer :
  result_eq
    (PhoneticEditDistance.dist unit char_features char_agreement
       {| _mode := "lev"; _cost := unit_cost;
          _normalizer := py_sum_list; _weights := tt |}
       (str "cat") (str "hat"))
    (Ok (5 # 36)%Q).
Proof. vm_compute. reflexivity. Qed.

Example alignment_cat_hats :
  let self := PhoneticEditDistance_default unit tt in
  ∃ d, PhoneticEditDistance.alignment char_gap unit char_features char_agreement self
         (str "cat") (str "hats") = Ok (d, str "cat--", str "-hats").
Proof. eexists. vm_compute. reflexivity. Qed.
(** * Further properties of the distances *)

(** ** Lemmas on [min], [trunc] and on inductions over a matrix *)

(** [min] returns one of its arguments. *)
Lemma py_min_in (x : Q) (l : list Q) : py_min x l ∈ x :: l.
Proof.
  revert x. induction l as [| y l IH]; intros x; cbn; [in_list |].
  destruct (Qle_bool x y).
  - specialize (IH x). apply elem_of_cons in IH as [-> | IH]; [in_list |].
    by do 2 apply list_elem_of_further.
  - specialize (IH y). by apply list_elem_of_further.
Qed.

Lemma py_min_mono (x x' : Q) (l l' : list Q) :
  (x <= x')%Q → Forall2 Qle l l' → (py_min x l <= py_min x' l')%Q.
Proof.
  intros Hx Hl. revert x x' Hx.
  induction Hl as [| y y' l l' Hy Hl IH]; intros x x' Hx; cbn; [done |].
  apply IH. qcases; lra.
Qed.

(** The truncated least argument is at least any integer below all the
    arguments. *)
Lemma trunc_min_ge (x : Q) (l : list Q) (z : Z) :
  Forall (Qle (inject_Z z)) (x :: l) → z ≤ trunc (py_min x l).
Proof.
  intros Hl. apply Forall_cons in Hl as [Hx Hl].
  rewrite <- (trunc_inject z) at 1. apply trunc_mono. by apply py_min_lower.
Qed.


(** Induction over the cells of a matrix, from the cells above and to the
    left. *)
Lemma grid_ind (P : Z → Z → Prop) :
  (∀ i j, 0 ≤ i → 0 ≤ j →
     (∀ i' j', 0 ≤ i' ≤ i → 0 ≤ j' ≤ j → i' + j' < i + j → P i' j') →
     P i j) →
  ∀ i j, 0 ≤ i → 0 ≤ j → P i j.
Proof.
  intros Hstep.
  assert (∀ n : nat, ∀ i j, 0 ≤ i → 0 ≤ j → i + j ≤ Z.of_nat n → P i j)
    as Hind; cycle 1.
  { intros i j Hi Hj. apply (Hind (Z.to_nat (i + j))); lia. }
  induction n as [n IH] using lt_wf_ind. intros i j Hi Hj Hn.
  apply Hstep; [done.. |]. intros i' j' Hi' Hj' Hlt.
  apply (IH (Z.to_nat (i' + j'))); lia.
Qed.

Lemma osa_guard_ge_1 {A} `{EqDecision A} (src tar : list A) (i j : Z) :
  osa_guard src tar i j = true → 1 ≤ i ∧ 1 ≤ j.
Proof.
  unfold osa_guard. intros Hg.
  apply andb_prop in Hg as [[[Hg1 Hg2]%andb_prop _]%andb_prop _].
  by apply bool_decide_eq_true_1 in Hg1, Hg2.
Qed.

Lemma inject_Z_mul_mono (z : Z) (q q' : Q) :
  0 ≤ z → (q <= q')%Q → (inject_Z z * q <= inject_Z z * q')%Q.
Proof.
  intros Hz Hq. apply inject_Z_nonneg in Hz.
  assert (0 <= inject_Z z * (q' - q))%Q as Hd
    by (apply Qmult_le_0_compat; lra).
  assert (inject_Z z * (q' - q) == inject_Z z * q' - inject_Z z * q)%Q as He
    by ring.
  rewrite He in Hd. lra.
Qed.

Lemma inject_Z_mul_nonneg (z : Z) (q : Q) :
  0 ≤ z → (0 <= q)%Q → (0 <= inject_Z z * q)%Q.
Proof. intros Hz Hq. apply Qmult_le_0_compat; [by apply inject_Z_nonneg | done]. Qed.
(** ** Cost models *)

(** Every cost of [cost] is at least [q]. *)
Definition cost_ge (q : Q) (cost : cost_t) : Prop :=
  let '(ins_cost, del_cost, sub_cost, trans_cost) := cost in
  (q <= ins_cost ∧ q <= del_cost ∧ q <= sub_cost ∧ q <= trans_cost)%Q.

(** Every cost of [cost] is at most the same cost of [cost']. *)
Definition cost_le (cost cost' : cost_t) : Prop :=
  let '(ins_cost, del_cost, sub_cost, trans_cost) := cost in
  let '(ins_cost', del_cost', sub_cost', trans_cost') := cost' in
  (ins_cost <= ins_cost' ∧ del_cost <= del_cost' ∧ sub_cost <= sub_cost'
   ∧ trans_cost <= trans_cost')%Q.

(** ** More on the matrix of [Levenshtein.dist_abs] *)

Section LevenshteinFurther.
Context `{Countable A}.
Implicit Types (src tar : list A) (f g : Z → Z → Z) (cost : cost_t).




End LevenshteinFurther.
(** ** More on [min] and [trunc] *)

(** [min] of arguments each of which is above some argument of another
    call is above the result of that call. *)
Lemma py_min_cover (x x' : Q) (l l' : list Q) :
  (∀ y', y' ∈ x' :: l' → ∃ y, y ∈ x :: l ∧ (y <= y')%Q) →
  (py_min x l <= py_min x' l')%Q.
Proof.
  intros Hc. destruct (Hc _ (py_min_in x' l')) as (y & Hy & Hle).
  eapply Qle_trans; [| exact Hle].
  apply elem_of_cons in Hy as [-> | Hy];
    [apply py_min_le_best | by apply py_min_le_elem].
Qed.



Lemma inject_Z_add_mono (z z' : Z) (q q' : Q) :
  z ≤ z' → (q <= q')%Q → (inject_Z z + q <= inject_Z z' + q')%Q.
Proof. intros Hz Hq. rewrite Zle_Qle in Hz. lra. Qed.


(** ** The outcomes of [Levenshtein.dist_abs] *)

Section LevenshteinOutcomes.
Context `{Countable A}.
Implicit Types (src tar : list A) (f g : Z → Z → Z) (cost : cost_t).

(** A property of the result of [dist_abs] follows from the same property
    of the three fast paths and of the last cell of the matrix. *)
Lemma lev_dist_abs_prop (P : Q → Prop) src tar mode cost :
  (src = tar → P 0%Q) →
  (src ≠ tar → src = [] → P (lenQ tar * cost_ins cost)%Q) →
  (src ≠ tar → src ≠ [] → tar = [] → P (lenQ src * cost_del cost)%Q) →
  (src ≠ tar → src ≠ [] → tar ≠ [] →
   ∀ f, lev_filled src tar mode cost f →
        P (inject_Z (f (len src) (len tar)))) →
  ∃ d, Levenshtein.dist_abs src tar mode cost = Ok d ∧ P d.
Proof.
  intros Heq Hsrc Htar Hmat.
  destruct (decide (src = tar)) as [He | Hne].
  { exists 0%Q. split; [| by apply Heq]. unfold Levenshtein.dist_abs.
    destruct cost as [[[ins_cost del_cost] sub_cost] trans_cost].
    by rewrite bool_decide_eq_true_2. }
  destruct (decide (src = [])) as [Hs | Hs].
  { eexists. split; [| by apply Hsrc]. unfold Levenshtein.dist_abs.
    destruct cost as [[[ins_cost del_cost] sub_cost] trans_cost].
    rewrite bool_decide_eq_false_2 by done.
    by rewrite bool_decide_eq_true_2. }
  destruct (decide (tar = [])) as [Ht | Ht].
  { eexists. split; [| by apply Htar]. unfold Levenshtein.dist_abs.
    destruct cost as [[[ins_cost del_cost] sub_cost] trans_cost].
    rewrite !bool_decide_eq_false_2 by done.
    by rewrite bool_decide_eq_true_2. }
  destruct (lev_dist_abs_matrix src tar mode cost) as (m & _ & Hf & ->);
    [done.. |].
  eexists. split; [done |]. by apply Hmat.
Qed.

(** The same for a relation between the results of two calls on the same
    sequences. *)
Lemma lev_dist_abs_rel (R : Q → Q → Prop) src tar mode mode' cost cost' :
  R 0%Q 0%Q →
  R (lenQ tar * cost_ins cost)%Q (lenQ tar * cost_ins cost')%Q →
  R (lenQ src * cost_del cost)%Q (lenQ src * cost_del cost')%Q →
  (∀ f g, lev_filled src tar mode cost f → lev_filled src tar mode' cost' g →
          R (inject_Z (f (len src) (len tar)))
            (inject_Z (g (len src) (len tar)))) →
  ∃ d d', Levenshtein.dist_abs src tar mode cost = Ok d
          ∧ Levenshtein.dist_abs src tar mode' cost' = Ok d'
          ∧ R d d'.
Proof.
  intros Heq Hsrc Htar Hmat.
  destruct (lev_dist_abs_prop
    (λ d, ∃ d', Levenshtein.dist_abs src tar mode' cost' = Ok d' ∧ R d d')
    src tar mode cost) as (d & Hd & d' & Hd' & HR); [| | | | by eauto].
  - intros He. exists 0%Q. split; [| done]. unfold Levenshtein.dist_abs.
    destruct cost' as [[[ins_cost del_cost] sub_cost] trans_cost].
    by rewrite bool_decide_eq_true_2.
  - intros Hne Hs. eexists. split; [| exact Hsrc]. unfold Levenshtein.dist_abs.
    destruct cost' as [[[ins_cost del_cost] sub_cost] trans_cost].
    rewrite bool_decide_eq_false_2 by done.
    by rewrite bool_decide_eq_true_2.
  - intros Hne Hs Ht. eexists. split; [| exact Htar].
    unfold Levenshtein.dist_abs.
    destruct cost' as [[[ins_cost del_cost] sub_cost] trans_cost].
    rewrite !bool_decide_eq_false_2 by done.
    by rewrite bool_decide_eq_true_2.
  - intros Hne Hs Ht f Hf.
    destruct (lev_dist_abs_matrix src tar mode' cost') as (m & _ & Hg & ->);
      [done.. |].
    eexists. split; [done |]. by apply Hmat.
Qed.

(** A matrix does not grow when the costs shrink, nor when transpositions
    are allowed. *)
Lemma lev_filled_mono src tar mode mode' cost cost' f g :
  cost_le cost cost' → (mode' = "osa"%string → mode = "osa"%string) →
  lev_filled src tar mode cost f → lev_filled src tar mode' cost' g →
  ∀ i j, 0 ≤ i ≤ len src → 0 ≤ j ≤ len tar → f i j ≤ g i j.
Proof.
  intros Hc Hm (Hfc & Hfr & Hf) (Hgc & Hgr & Hg).
  destruct cost as [[[ins_cost del_cost] sub_cost] trans_cost].
  destruct cost' as [[[ins_cost' del_cost'] sub_cost'] trans_cost'].
  destruct Hc as (Hci & Hcd & Hcs & Hct). cbn [cost_ins cost_del] in *.
  intros i j [Hi Hin] [Hj Hjm]. revert i j Hi Hj Hin Hjm.
  apply (grid_ind (λ i j, i ≤ len src → j ≤ len tar → f i j ≤ g i j)).
  intros i j Hi Hj IH Hin Hjm.
  destruct (decide (i = 0)) as [-> | Hi1].
  { rewrite Hfr, Hgr by lia. apply trunc_mono. by apply inject_Z_mul_mono. }
  destruct (decide (j = 0)) as [-> | Hj1].
  { rewrite Hfc, Hgc by lia. apply trunc_mono. by apply inject_Z_mul_mono. }
  replace i with (i - 1 + 1) by lia. replace j with (j - 1 + 1) by lia.
  rewrite Hf, Hg by lia. set (i' := i - 1). set (j' := j - 1).
  assert (f (i' + 1) j' ≤ g (i' + 1) j') as B1 by (apply IH; lia).
  assert (f i' (j' + 1) ≤ g i' (j' + 1)) as B2 by (apply IH; lia).
  assert (f i' j' ≤ g i' j') as B3 by (apply IH; lia).
  unfold lev_recurrence. cbv zeta.
  set (s := if bool_decide (sym src i' ≠ sym tar j') then sub_cost else 0%Q).
  set (s' := if bool_decide (sym src i' ≠ sym tar j') then sub_cost' else 0%Q).
  assert (s <= s')%Q as Hs by (unfold s, s'; destruct (bool_decide _); lra).
  set (v := trunc (py_min _ [_; (inject_Z (f i' j') + s)%Q])).
  set (v' := trunc (py_min _ [_; (inject_Z (g i' j') + s')%Q])).
  assert (v ≤ v') as Hv.
  { apply trunc_mono, py_min_mono; [by apply inject_Z_add_mono |].
    forall2_items ltac:(by apply inject_Z_add_mono). }
  destruct (osa_guard src tar i' j') eqn:Hg';
    [| by rewrite !andb_false_r].
  apply osa_guard_ge_1 in Hg' as [Hi2 Hj2]. rewrite !andb_true_r.
  assert (f (i' - 1) (j' - 1) ≤ g (i' - 1) (j' - 1)) as B4 by (apply IH; lia).
  destruct (decide (mode' = "osa"%string)) as [Hm' | Hm'].
  - rewrite !bool_decide_eq_true_2 by auto.
    apply trunc_mono, py_min_mono; [by rewrite <- Zle_Qle |].
    forall2_items ltac:(by apply inject_Z_add_mono).
  - rewrite (bool_decide_eq_false_2 (mode' = _)) by done.
    case_bool_decide; [| done].
    etrans; [| exact Hv].
    apply (trunc_min_upper _ (inject_Z v)); [in_list | apply Qle_refl].
Qed.

(** The matrix is determined by the sequences, the mode and the costs. *)
Lemma lev_filled_unique src tar mode cost f g :
  lev_filled src tar mode cost f → lev_filled src tar mode cost g →
  ∀ i j, 0 ≤ i ≤ len src → 0 ≤ j ≤ len tar → f i j = g i j.
Proof.
  intros Hf Hg i j Hi Hj.
  assert (cost_le cost cost) as Hc.
  { destruct cost as [[[ins_cost del_cost] sub_cost] trans_cost].
    repeat split; apply Qle_refl. }
  pose proof (lev_filled_mono src tar mode mode cost cost f g Hc id Hf Hg
                i j Hi Hj).
  pose proof (lev_filled_mono src tar mode mode cost cost g f Hc id Hg Hf
                i j Hi Hj).
  lia.
Qed.

(** A mode other than ['osa'] fills the matrix as ['lev'] does. *)
Lemma lev_filled_other_mode src tar mode cost f :
  mode ≠ "osa"%string →
  lev_filled src tar mode cost f → lev_filled src tar "lev" cost f.
Proof.
  intros Hm (Hfc & Hfr & Hf). split; [done |]. split; [done |].
  intros i j Hi Hj. rewrite Hf by done. unfold lev_recurrence.
  destruct cost as [[[ins_cost del_cost] sub_cost] trans_cost].
  rewrite (bool_decide_eq_false_2 (mode = _)) by done.
  by rewrite (bool_decide_eq_false_2 ("lev"%string = _)) by done.
Qed.



End LevenshteinOutcomes.
(** ** Properties of [Levenshtein.dist_abs] and [Levenshtein.dist] *)

Section LevenshteinFacts.
Context `{Countable A}.
Implicit Types (src tar : list A) (f g : Z → Z → Z) (cost : cost_t).






(** X6. The mode is not validated: every mode string other than ['osa']
    gives the result of ['lev']. *)
Theorem lev_mode_default src tar (mode : string) cost :
  mode ≠ "osa"%string →
  Levenshtein.dist_abs src tar mode cost
  = Levenshtein.dist_abs src tar "lev" cost.
Proof.
  intros Hm.
  destruct (lev_dist_abs_rel eq src tar mode "lev" cost cost)
    as (d & d' & -> & -> & ->); [done.. | | done].
  intros f g Hf Hg. f_equal.
  apply (lev_filled_unique src tar "lev" cost);
    [by apply (lev_filled_other_mode src tar mode) | done
    | unfold len; lia | unfold len; lia].
Qed.

End LevenshteinFacts.



(** A substitution that costs more than a deletion and an insertion: the
    normalized distance of "a" and "b" is [2]. *)
Definition dear_substitution : cost_t := (1%Q, 1%Q, 5%Q, 1%Q).


Example lev_dist_dear_substitution :
  result_eq (Levenshtein.dist (str "a") (str "b") "lev" dear_substitution)
            (Ok 2%Q).
Proof. vm_compute. reflexivity. Qed.


Lemma lev_mode_default_witness :
  Levenshtein.dist_abs (str "ATCG") (str "TAGC") "OSA" unit_cost
  = Levenshtein.dist_abs (str "ATCG") (str "TAGC") "lev" unit_cost.
Proof.
  apply (lev_mode_default (str "ATCG") (str "TAGC") "OSA" unit_cost).
  discriminate.
Defined.
(** ** The outcomes of [DamerauLevenshtein.dist_abs] *)

Section DamerauOutcomes.
Context `{Countable A}.
Implicit Types (src tar : list A) (f g : Z → Z → Z) (cost : cost_t).

(** A property of the result of [dist_abs] under supported costs follows
    from the same property of the three fast paths and of the last cell of
    the matrix. *)
Lemma dl_dist_abs_prop (P : Q → Prop) src tar cost :
  cost_unsupported cost = false →
  (src = tar → P 0%Q) →
  (src ≠ tar → src = [] → P (lenQ tar * cost_ins cost)%Q) →
  (src ≠ tar → src ≠ [] → tar = [] → P (lenQ src * cost_del cost)%Q) →
  (src ≠ tar → src ≠ [] → tar ≠ [] →
   ∀ f, dl_filled src tar cost f →
        P (inject_Z (f (len src - 1) (len tar - 1)))) →
  ∃ d, DamerauLevenshtein.dist_abs src tar cost = Ok d ∧ P d.
Proof.
  intros Hc Heq Hsrc Htar Hmat.
  destruct (decide (src = tar)) as [He | Hne].
  { exists 0%Q. split; [| by apply Heq]. unfold DamerauLevenshtein.dist_abs.
    destruct cost as [[[ins_cost del_cost] sub_cost] trans_cost].
    by rewrite bool_decide_eq_true_2. }
  destruct (decide (src = [])) as [Hs | Hs].
  { eexists. split; [| by apply Hsrc]. unfold DamerauLevenshtein.dist_abs.
    destruct cost as [[[ins_cost del_cost] sub_cost] trans_cost].
    rewrite bool_decide_eq_false_2 by done.
    by rewrite bool_decide_eq_true_2. }
  destruct (decide (tar = [])) as [Ht | Ht].
  { eexists. split; [| by apply Htar]. unfold DamerauLevenshtein.dist_abs.
    destruct cost as [[[ins_cost del_cost] sub_cost] trans_cost].
    rewrite !bool_decide_eq_false_2 by done.
    by rewrite bool_decide_eq_true_2. }
  destruct (dl_dist_abs_matrix src tar cost) as (m & _ & Hf & ->);
    [done.. |].
  eexists. split; [done |]. by apply Hmat.
Qed.





End DamerauOutcomes.
(** ** The Damerau-Levenshtein matrix against the Levenshtein matrix *)

(** Bound the truncated least argument by its first, second, third or
    fourth argument. *)
Ltac cand0 := eapply trunc_min_upper; [apply list_elem_of_here |].
Ltac cand1 :=
  eapply trunc_min_upper;
  [apply list_elem_of_further, list_elem_of_here |].
Ltac cand2 :=
  eapply trunc_min_upper;
  [do 2 apply list_elem_of_further; apply list_elem_of_here |].
Ltac cand3 :=
  eapply trunc_min_upper;
  [do 3 apply list_elem_of_further; apply list_elem_of_here |].

Section DamerauVersusLevenshtein.
Context `{Countable A}.
Implicit Types (src tar : list A) (f g : Z → Z → Z) (cost : cost_t).

(** When [src[i - 1]] is [tar[j]], the dictionary read at [tar[j]] in row
    [i] gives [i - 1]. *)
Lemma i_swap_of_adjacent src tar (i j : Z) :
  1 ≤ i → sym src (i - 1) = sym tar j → i_swap_of src tar i j = i - 1.
Proof.
  intros Hi He. unfold i_swap_of.
  replace (Z.to_nat i) with (Z.to_nat (i - 1 + 1)) by lia.
  rewrite last_below_succ by lia. cbv beta.
  by rewrite bool_decide_eq_true_2.
Qed.

(** When [src[i]] is [tar[j - 1]], the match index read at column [j] of
    row [i] is [j - 1]. *)
Lemma j_swap_of_adjacent src tar (i j : Z) :
  1 ≤ j → sym src i = sym tar (j - 1) → j_swap_of src tar i j = j - 1.
Proof.
  intros Hj He. unfold j_swap_of.
  replace (Z.to_nat j) with (Z.to_nat (j - 1 + 1)) by lia.
  rewrite last_below_succ by lia. cbv beta.
  by rewrite bool_decide_eq_true_2.
Qed.

(** Under unit costs the cell of the Damerau-Levenshtein matrix for two
    prefixes is at most the cell of the Levenshtein matrix for the same
    prefixes, in every mode. *)
Lemma dl_filled_le_lev src tar mode f g :
  dl_filled src tar unit_cost f → lev_filled src tar mode unit_cost g →
  ∀ i j, 0 ≤ i < len src → 0 ≤ j < len tar → f i j ≤ g (i + 1) (j + 1).
Proof.
  intros Hfill Hgfill.
  pose proof (dl_filled_unit_bound src tar f Hfill) as Fb.
  pose proof (lev_filled_unit_bound src tar mode g Hgfill) as Gb.
  destruct Hfill as (Hf0 & Hfc & Hfr & Hf).
  destruct Hgfill as (Hgc & Hgr & Hg).
  assert (∀ z, trunc (inject_Z z * 1)%Q = z) as Hmul1.
  { intros z. rewrite <- (trunc_inject z) at 2. apply trunc_comp. ring. }
  assert (∀ i, 0 ≤ i ≤ len src → g i 0 = i) as Hgc'.
  { intros i Hi. rewrite Hgc by done. apply Hmul1. }
  assert (∀ j, 0 ≤ j ≤ len tar → g 0 j = j) as Hgr'.
  { intros j Hj. rewrite Hgr by done. apply Hmul1. }
  assert (∀ z a b : Z, z ≤ a + b →
            (inject_Z z <= inject_Z a + inject_Z b)%Q) as Hadd.
  { intros z a b Hz. by rewrite <- inject_Z_plus, <- Zle_Qle. }
  assert (∀ a b z : Z, a + b ≤ z →
            (inject_Z a + inject_Z b <= inject_Z z)%Q) as Hadd'.
  { intros a b z Hz. by rewrite <- inject_Z_plus, <- Zle_Qle. }
  (* a lower bound of a cell of [g] from lower bounds of its candidates *)
  assert (∀ i j z, 0 ≤ i < len src → 0 ≤ j < len tar →
            z ≤ g (i + 1) j + 1 → z ≤ g i (j + 1) + 1 →
            z ≤ g i j + (if bool_decide (sym src i ≠ sym tar j) then 1 else 0) →
            (osa_guard src tar i j = true → z ≤ g (i - 1) (j - 1) + 1) →
            z ≤ g (i + 1) (j + 1)) as Hrec.
  { intros i j z Hi Hj H1 H2 H3 H4. rewrite Hg by lia.
    unfold lev_recurrence, unit_cost. cbv zeta.
    set (v := trunc (py_min _ [_; _])).
    assert (z ≤ v) as Hv.
    { apply trunc_min_ge. destruct (bool_decide (sym src i ≠ sym tar j)).
      - forall_items ltac:(first [by apply (Hadd z _ 1)]).
      - forall_items ltac:(first [by apply (Hadd z _ 1) | by apply (Hadd z _ 0)]). }
    destruct (bool_decide (mode = "osa"%string) && osa_guard src tar i j)
      eqn:Hgd; [| done].
    apply andb_prop in Hgd as [_ Hgd]. specialize (H4 Hgd).
    apply trunc_min_ge.
    forall_items ltac:(first [by rewrite <- Zle_Qle | by apply (Hadd z _ 1)]). }
  (* upper bounds of a cell of [f] from its candidates *)
  assert (∀ i j, 0 ≤ i < len src → 1 ≤ j < len tar →
            f i j ≤ f i (j - 1) + 1) as Fins.
  { intros i j Hi Hj. destruct (decide (i = 0)) as [-> | Hi0].
    - rewrite (Hfr j) by lia. unfold dl_row, unit_cost. cbv zeta.
      cand1. by apply (Hadd' _ 1).
    - rewrite (Hf i j) by lia. unfold dl_recurrence, unit_cost. cbv zeta.
      cand1. by apply (Hadd' _ 1). }
  assert (∀ i j, 1 ≤ i < len src → 0 ≤ j < len tar →
            f i j ≤ f (i - 1) j + 1) as Fdel.
  { intros i j Hi Hj. destruct (decide (j = 0)) as [-> | Hj0].
    - rewrite (Hfc i) by lia. unfold dl_col, unit_cost. cbv zeta.
      cand0. by apply (Hadd' _ 1).
    - rewrite (Hf i j) by lia. unfold dl_recurrence, unit_cost. cbv zeta.
      cand0. by apply (Hadd' _ 1). }
  intros i j [Hi Hin] [Hj Hjm]. revert i j Hi Hj Hin Hjm.
  apply (grid_ind (λ i j, i < len src → j < len tar →
                          f i j ≤ g (i + 1) (j + 1))).
  intros i j Hi Hj IH Hin Hjm.
  apply Hrec; [lia | lia | | | |].
  - destruct (decide (j = 0)) as [-> | Hj0].
    + rewrite Hgc' by lia.
      pose proof (Fb i 0 ltac:(lia) ltac:(lia)). lia.
    + pose proof (Fins i j ltac:(lia) ltac:(lia)).
      pose proof (IH i (j - 1) ltac:(lia) ltac:(lia) ltac:(lia) ltac:(lia)
                    ltac:(lia)) as B.
      replace (j - 1 + 1) with j in B by lia. lia.
  - destruct (decide (i = 0)) as [-> | Hi0].
    + rewrite Hgr' by lia.
      pose proof (Fb 0 j ltac:(lia) ltac:(lia)). lia.
    + pose proof (Fdel i j ltac:(lia) ltac:(lia)).
      pose proof (IH (i - 1) j ltac:(lia) ltac:(lia) ltac:(lia) ltac:(lia)
                    ltac:(lia)) as B.
      replace (i - 1 + 1) with i in B by lia. lia.
  - destruct (decide (i = 0)) as [-> | Hi0];
      destruct (decide (j = 0)) as [-> | Hj0].
    + rewrite Hf0, Hgc' by lia. unfold dl_corner, unit_cost.
      destruct (bool_decide _); [| lia].
      assert (trunc (py_min 1 [(1 + 1)%Q]) = 1) as -> by (by vm_compute).
      lia.
    + rewrite (Hfr j), Hgr' by lia. unfold dl_row, unit_cost. cbv zeta.
      cand2. rewrite Qmult_1_r.
      destruct (decide (sym src 0 = sym tar j)) as [He | Hne].
      * rewrite (bool_decide_eq_true_2 _ He).
        rewrite (bool_decide_eq_false_2 (sym src 0 ≠ sym tar j)) by tauto.
        by apply (Hadd' _ 0).
      * rewrite (bool_decide_eq_false_2 _ Hne).
        rewrite (bool_decide_eq_true_2 (sym src 0 ≠ sym tar j)) by done.
        by apply (Hadd' _ 1).
    + rewrite (Hfc i), Hgc' by lia. unfold dl_col, unit_cost. cbv zeta.
      cand2. rewrite Qmult_1_r.
      destruct (decide (sym src i = sym tar 0)) as [He | Hne].
      * rewrite (bool_decide_eq_true_2 _ He).
        rewrite (bool_decide_eq_false_2 (sym src i ≠ sym tar 0)) by tauto.
        by apply (Hadd' _ 0).
      * rewrite (bool_decide_eq_false_2 _ Hne).
        rewrite (bool_decide_eq_true_2 (sym src i ≠ sym tar 0)) by done.
        by apply (Hadd' _ 1).
    + pose proof (IH (i - 1) (j - 1) ltac:(lia) ltac:(lia) ltac:(lia)
                    ltac:(lia) ltac:(lia)) as B.
      replace (i - 1 + 1) with i in B by lia.
      replace (j - 1 + 1) with j in B by lia.
      rewrite (Hf i j) by lia. unfold dl_recurrence, unit_cost. cbv zeta.
      cand2. destruct (bool_decide _).
      * apply (Hadd' _ 1). lia.
      * rewrite <- Zle_Qle. lia.
  - intros Hgd. pose proof (osa_guard_ge_1 src tar i j Hgd) as [Hi1 Hj1].
    unfold osa_guard in Hgd.
    apply andb_prop in Hgd as [[_ He1%bool_decide_eq_true_1]%andb_prop
                                 He2%bool_decide_eq_true_1].
    rewrite (Hf i j) by lia. unfold dl_recurrence. cbv zeta.
    rewrite (i_swap_of_adjacent src tar i j Hi1 He2).
    rewrite (j_swap_of_adjacent src tar i j Hj1 He1).
    unfold unit_cost at 1. cand3.
    unfold dl_swap_distance, unit_cost.
    rewrite (bool_decide_eq_true_2 (i - 1 ≠ -1)) by lia.
    rewrite (bool_decide_eq_true_2 (j - 1 ≠ -1)) by lia. cbn [andb].
    replace (i - (i - 1) - 1) with 0 by lia.
    replace (j - (j - 1) - 1) with 0 by lia.
    set (pre := if _ && _ then 0 else _).
    assert (pre ≤ g (i - 1) (j - 1)) as Hpre.
    { unfold pre.
      destruct (bool_decide (i - 1 = 0) && bool_decide (j - 1 = 0)) eqn:Hb.
      { pose proof (Gb (i - 1) (j - 1) ltac:(lia) ltac:(lia)). lia. }
      destruct (decide (i = 1)) as [-> | Hi2];
        destruct (decide (j = 1)) as [-> | Hj2].
      - rewrite !bool_decide_eq_true_2 in Hb by lia. done.
      - replace (1 - 1) with 0 by lia. rewrite Hgr' by lia.
        replace (0 `max` (0 - 1)) with 0 by lia.
        replace (0 `max` (j - 1 - 1)) with (j - 2) by lia.
        pose proof (Fb 0 (j - 2) ltac:(lia) ltac:(lia)). lia.
      - replace (1 - 1) with 0 by lia. rewrite Hgc' by lia.
        replace (0 `max` (0 - 1)) with 0 by lia.
        replace (0 `max` (i - 1 - 1)) with (i - 2) by lia.
        pose proof (Fb (i - 2) 0 ltac:(lia) ltac:(lia)). lia.
      - replace (0 `max` (i - 1 - 1)) with (i - 2) by lia.
        replace (0 `max` (j - 1 - 1)) with (j - 2) by lia.
        pose proof (IH (i - 2) (j - 2) ltac:(lia) ltac:(lia) ltac:(lia)
                      ltac:(lia) ltac:(lia)) as B.
        replace (i - 2 + 1) with (i - 1) in B by lia.
        replace (j - 2 + 1) with (j - 1) in B by lia. done. }
    rewrite Zle_Qle in Hpre. rewrite inject_Z_plus.
    change (inject_Z 0) with 0%Q. change (inject_Z 1) with 1%Q. lra.
Qed.

End DamerauVersusLevenshtein.
(** ** Properties of [DamerauLevenshtein.dist_abs] *)

Lemma unit_cost_supported : cost_unsupported unit_cost = false.
Proof. reflexivity. Qed.

Section DamerauFacts.
Context `{Countable A}.
Implicit Types (src tar : list A) (f g : Z → Z → Z) (cost : cost_t).



(** X9. Under unit costs the Damerau-Levenshtein distance is at most the
    Levenshtein distance in every mode, ['osa'] included: the unrestricted
    transpositions never make two sequences more distant than the
    restricted ones do. *)
Theorem dl_le_lev src tar (mode : string) :
  ∃ d d', DamerauLevenshtein.dist_abs src tar unit_cost = Ok d
          ∧ Levenshtein.dist_abs src tar mode unit_cost = Ok d'
          ∧ (d <= d')%Q.
Proof.
  destruct (lev_dist_abs_prop
    (λ d', ∃ d, DamerauLevenshtein.dist_abs src tar unit_cost = Ok d
                ∧ (d <= d')%Q) src tar mode unit_cost)
    as (d' & Hd' & d & Hd & Hle); [| | | | by eauto 6].
  - intros He. apply dl_dist_abs_prop;
      [done | intros; apply Qle_refl | done..].
  - intros Hne Hs. apply dl_dist_abs_prop;
      [done | done | intros; apply Qle_refl | done..].
  - intros Hne Hs Ht. apply dl_dist_abs_prop;
      [done | done | done | intros; apply Qle_refl | done].
  - intros Hne Hs Ht g Hg. apply dl_dist_abs_prop; [done.. |].
    intros _ _ _ f Hf. rewrite <- Zle_Qle.
    assert (1 ≤ len src ∧ 1 ≤ len tar) as [Hn Hm].
    { unfold len. destruct src, tar; cbn; try done; lia. }
    pose proof (dl_filled_le_lev src tar mode f g Hf Hg
                  (len src - 1) (len tar - 1) ltac:(lia) ltac:(lia)) as B.
    replace (len src - 1 + 1) with (len src) in B by lia.
    replace (len tar - 1 + 1) with (len tar) in B by lia. done.
Qed.

End DamerauFacts.


(** ** The normalized distances *)

Lemma truediv_result_eq (r r' : result Q) (D D' : Q) :
  result_eq r r' → (D == D')%Q →
  result_eq (d ← r; truediv d D) (d ← r'; truediv d D').
Proof.
  intros Hr HD. destruct r as [d | e], r' as [d' | e']; cbn in *; try done.
  unfold truediv.
  destruct (Qeq_bool D 0) eqn:E, (Qeq_bool D' 0) eqn:E'; cbn.
  - done.
  - apply Qeq_bool_eq in E. apply Qeq_bool_neq in E'. apply E'.
    by rewrite <- HD.
  - apply Qeq_bool_eq in E'. apply Qeq_bool_neq in E. apply E.
    by rewrite HD.
  - by rewrite Hr, HD.
Qed.


Section NormalizedFacts.
Context `{Countable A}.
Implicit Types (src tar : list A) (cost : cost_t).


(** X11. The Indel distance and the normalized Indel distance do not
    depend on the order of the two sequences. *)
Theorem indel_symmetric src tar :
  result_eq (Indel.dist_abs src tar) (Indel.dist_abs tar src)
  ∧ result_eq (Indel.dist src tar) (Indel.dist tar src).
Proof.
  assert (result_eq (Indel.dist_abs src tar) (Indel.dist_abs tar src)) as Hd.
  { unfold Indel.dist_abs. by apply lev_dist_abs_sym. }
  split; [done |]. unfold Indel.dist.
  destruct (decide (src = tar)) as [-> | Hne].
  { rewrite bool_decide_eq_true_2 by done. reflexivity. }
  rewrite (bool_decide_eq_false_2 (src = tar)) by done.
  rewrite (bool_decide_eq_false_2 (tar = src)) by congruence.
  apply truediv_result_eq; [done |].
  by replace (len tar + len src) with (len src + len tar) by lia.
Qed.

End NormalizedFacts.

(** ** The Indel distance *)

Section IndelFacts.
Context `{Countable A}.
Implicit Types (src tar : list A) (f g : Z → Z → Z).

(** With the Indel costs a cell is at most one more than the cell above
    it. *)
Lemma lev_filled_indel_step src tar f :
  lev_filled src tar "lev" indel_cost f →
  ∀ i j, 0 ≤ i < len src → 0 ≤ j ≤ len tar → f (i + 1) j ≤ f i j + 1.
Proof.
  intros (Hfc & Hfr & Hf) i j Hi Hj.
  assert (∀ z, trunc (inject_Z z * 1)%Q = z) as Hmul1.
  { intros z. rewrite <- (trunc_inject z) at 2. apply trunc_comp. ring. }
  destruct (decide (j = 0)) as [-> | Hj0].
  { rewrite !Hfc by lia. cbn [cost_del indel_cost]. rewrite !Hmul1. lia. }
  replace j with (j - 1 + 1) at 1 by lia. rewrite Hf by lia.
  unfold lev_recurrence, indel_cost. cbv zeta.
  rewrite (bool_decide_eq_false_2 ("lev"%string = "osa"%string)) by done.
  cbn [andb]. cand1.
  replace (j - 1 + 1) with j by lia.
  rewrite inject_Z_plus. apply Qle_refl.
Qed.

(** With the Indel costs cell [(i, j)] is [i + j] less twice a number of
    symbols, at most [i] and at most [j]: the symbols of the two prefixes
    that are kept. *)
Lemma lev_filled_indel_kept src tar f :
  lev_filled src tar "lev" indel_cost f →
  ∀ i j, 0 ≤ i ≤ len src → 0 ≤ j ≤ len tar →
         ∃ k, 0 ≤ k ≤ Z.min i j ∧ f i j = i + j - 2 * k.
Proof.
  intros Hfill.
  pose proof (lev_filled_indel_step src tar f Hfill) as Hstep.
  destruct Hfill as (Hfc & Hfr & Hf).
  assert (∀ z, trunc (inject_Z z * 1)%Q = z) as Hmul1.
  { intros z. rewrite <- (trunc_inject z) at 2. apply trunc_comp. ring. }
  assert (∀ z, trunc (inject_Z z + 1)%Q = z + 1) as Hadd1.
  { intros z. change 1%Q with (inject_Z 1).
    by rewrite <- inject_Z_plus, trunc_inject. }
  intros i j [Hi Hin] [Hj Hjm]. revert i j Hi Hj Hin Hjm.
  apply (grid_ind (λ i j, i ≤ len src → j ≤ len tar →
                          ∃ k, 0 ≤ k ≤ Z.min i j ∧ f i j = i + j - 2 * k)).
  intros i j Hi Hj IH Hin Hjm.
  destruct (decide (i = 0)) as [-> | Hi0].
  { exists 0. rewrite Hfr by lia. cbn [cost_ins indel_cost].
    rewrite Hmul1. lia. }
  destruct (decide (j = 0)) as [-> | Hj0].
  { exists 0. rewrite Hfc by lia. cbn [cost_del indel_cost].
    rewrite Hmul1. lia. }
  assert (f i j = lev_recurrence src tar "lev" indel_cost f (i - 1) (j - 1))
    as ->.
  { rewrite <- Hf by lia. f_equal; lia. }
  destruct (IH i (j - 1) ltac:(lia) ltac:(lia) ltac:(lia) ltac:(lia)
              ltac:(lia)) as (ka & Hka & Ea).
  destruct (IH (i - 1) j ltac:(lia) ltac:(lia) ltac:(lia) ltac:(lia)
              ltac:(lia)) as (kb & Hkb & Eb).
  destruct (IH (i - 1) (j - 1) ltac:(lia) ltac:(lia) ltac:(lia) ltac:(lia)
              ltac:(lia)) as (kc & Hkc & Ec).
  pose proof (Hstep (i - 1) (j - 1) ltac:(lia) ltac:(lia)) as Hlip.
  unfold lev_recurrence, indel_cost. cbv zeta.
  rewrite (bool_decide_eq_false_2 ("lev"%string = "osa"%string)) by done.
  cbn [andb].
  replace (i - 1 + 1) with i in * by lia.
  replace (j - 1 + 1) with j in * by lia.
  set (s := if bool_decide (sym src (i - 1) ≠ sym tar (j - 1))
            then 9999%Q else 0%Q).
  match goal with
  | |- context [py_min ?x ?l] =>
      pose proof (py_min_in x l) as Hin';
      pose proof (py_min_le_best x l) as Hle;
      set (p := py_min x l) in *; clearbody p
  end.
  apply elem_of_cons in Hin' as [-> | Hin'].
  { exists ka. rewrite Hadd1. lia. }
  apply elem_of_cons in Hin' as [-> | Hin'].
  { exists kb. rewrite Hadd1. lia. }
  apply list_elem_of_singleton in Hin' as ->.
  unfold s in *. destruct (bool_decide (sym src (i - 1) ≠ sym tar (j - 1))).
  - exfalso. rewrite Zle_Qle, inject_Z_plus in Hlip.
    change (inject_Z 1) with 1%Q in Hlip. lra.
  - exists (kc + 1). rewrite Qplus_0_r, trunc_inject. lia.
Qed.

(** X12. The Indel distance of two sequences is the sum of their lengths
    less twice a number of symbols that is at most the smaller length:
    only insertions and deletions are counted, a substitution is never
    chosen whatever the lengths, and so the distance has the parity of the
    sum of the lengths and lies between their difference and their sum. *)
Theorem indel_dist_abs_kept src tar :
  ∃ d k, Indel.dist_abs src tar = Ok d
         ∧ 0 ≤ k ≤ Z.min (len src) (len tar)
         ∧ (d == inject_Z (len src + len tar - 2 * k))%Q.
Proof.
  destruct (lev_dist_abs_prop
    (λ d, ∃ k, 0 ≤ k ≤ Z.min (len src) (len tar)
               ∧ (d == inject_Z (len src + len tar - 2 * k))%Q)
    src tar "lev" indel_cost) as (d & Hd & k & Hk & Ed);
    [| | | | by exists d, k].
  - intros ->. exists (len tar). split; [unfold len; lia |].
    by replace (len tar + len tar - 2 * len tar) with 0 by lia.
  - intros _ ->. exists 0. split; [unfold len; cbn; lia |].
    cbn [cost_ins indel_cost]. unfold lenQ.
    replace (len [] + len tar - 2 * 0) with (len tar) by (unfold len; cbn; lia).
    ring.
  - intros _ _ ->. exists 0. split; [unfold len; cbn; lia |].
    cbn [cost_del indel_cost]. unfold lenQ.
    replace (len src + len [] - 2 * 0) with (len src) by (unfold len; cbn; lia).
    ring.
  - intros _ _ _ f Hf.
    destruct (lev_filled_indel_kept src tar f Hf (len src) (len tar)
                ltac:(unfold len; lia) ltac:(unfold len; lia))
      as (k & Hk & ->).
    exists k. split; [done | reflexivity].
Qed.

End IndelFacts.
(** ** The alignment returned by [PhoneticEditDistance.alignment] *)

Section AlignmentFacts.
Context `{EqDecision A}.
Variable gap : A.
Variable W : Type.
Variable ipa_to_features : list A → list Z.
Variable cmp_features : Z → Z → W → Q.

(** An aligned sequence without its gap markers. *)
Definition ungap (s : list A) : list A := filter (λ x, x ≠ gap) s.

Lemma ungap_snoc_gap (s : list A) : ungap (s ++ [gap]) = ungap s.
Proof.
  unfold ungap. rewrite filter_app, filter_cons_False by naive_solver.
  by rewrite filter_nil, app_nil_r.
Qed.

Lemma ungap_snoc (s : list A) (x : A) :
  x ≠ gap → ungap (s ++ [x]) = ungap s ++ [x].
Proof.
  intros Hx. unfold ungap. rewrite filter_app, filter_cons_True by done.
  by rewrite filter_nil.
Qed.

(** The symbol read at an index in range of a sequence without gap
    markers. *)
Lemma default_lookup_no_gap (s : list A) (k : nat) :
  gap ∉ s → (k < length s)%nat →
  ∃ x, s !! k = Some x ∧ default gap (s !! k) = x ∧ x ≠ gap
       ∧ take (S k) s = take k s ++ [x].
Proof.
  intros Hg Hk. destruct (lookup_lt_is_Some_2 s k Hk) as [x Hx].
  exists x. rewrite Hx. split; [done |]. split; [done |]. split.
  - intros ->. apply Hg. by eapply list_elem_of_lookup_2.
  - by apply take_S_r.
Qed.

(** The aligned pairs from cell [(i, j)]: without the gap markers the two
    sides are the prefixes of [src] and [tar], no pair has two gaps, and
    the number of pairs lies between the greater index and the sum of the
    indices. *)
Lemma aligned_pairs_sides (d : Z → Z → Q) (src tar : list A) :
  gap ∉ src → gap ∉ tar →
  ∀ n i j : nat,
    (i + j ≤ n)%nat → (i ≤ length src)%nat → (j ≤ length tar)%nat →
    ungap (aligned_pairs gap n d src tar i j).*1 = take i src
    ∧ ungap (aligned_pairs gap n d src tar i j).*2 = take j tar
    ∧ (Nat.max i j ≤ length (aligned_pairs gap n d src tar i j) ≤ i + j)%nat
    ∧ Forall (λ p, p.1 ≠ gap ∨ p.2 ≠ gap) (aligned_pairs gap n d src tar i j).
Proof.
  intros Hgs Hgt. induction n as [| n IH]; intros i j Hn Hi Hj.
  { assert (i = O ∧ j = O) as [-> ->] by lia. cbn.
    split; [done |]. split; [done |]. split; [lia | constructor]. }
  destruct i as [| i'], j as [| j']; cbn [aligned_pairs].
  - cbn. split; [done |]. split; [done |]. split; [lia | constructor].
  - destruct (default_lookup_no_gap tar j' Hgt ltac:(lia))
      as (y & _ & -> & Hy & Ey).
    destruct (IH O j' ltac:(lia) ltac:(lia) ltac:(lia))
      as (E1 & E2 & El & Ef).
    rewrite !fmap_app, length_app. cbn [fmap list_fmap fst snd length].
    rewrite ungap_snoc_gap, ungap_snoc, E1, E2, Ey by done.
    split; [done |]. split; [done |]. split; [lia |].
    apply Forall_app. split; [done |]. constructor; [by right | constructor].
  - destruct (default_lookup_no_gap src i' Hgs ltac:(lia))
      as (x & _ & -> & Hx & Ex).
    destruct (IH i' O ltac:(lia) ltac:(lia) ltac:(lia))
      as (E1 & E2 & El & Ef).
    rewrite !fmap_app, length_app. cbn [fmap list_fmap fst snd length].
    rewrite ungap_snoc_gap, ungap_snoc, E1, E2, Ex by done.
    split; [done |]. split; [done |]. split; [lia |].
    apply Forall_app. split; [done |]. constructor; [by left | constructor].
  - destruct (default_lookup_no_gap src i' Hgs ltac:(lia))
      as (x & _ & -> & Hx & Ex).
    destruct (default_lookup_no_gap tar j' Hgt ltac:(lia))
      as (y & _ & -> & Hy & Ey).
    cbv zeta.
    destruct (Qle_bool _ (py_min _ _)); [| destruct (Qle_bool _ _)].
    + destruct (IH i' j' ltac:(lia) ltac:(lia) ltac:(lia))
        as (E1 & E2 & El & Ef).
      rewrite !fmap_app, length_app. cbn [fmap list_fmap fst snd length].
      rewrite !ungap_snoc, E1, E2, Ex, Ey by done.
      split; [done |]. split; [done |]. split; [lia |].
      apply Forall_app. split; [done |]. constructor; [by left | constructor].
    + destruct (IH (S i') j' ltac:(lia) ltac:(lia) ltac:(lia))
        as (E1 & E2 & El & Ef).
      rewrite !fmap_app, length_app. cbn [fmap list_fmap fst snd length].
      rewrite ungap_snoc_gap, ungap_snoc, E1, E2, Ey by done.
      split; [done |]. split; [done |]. split; [lia |].
      apply Forall_app. split; [done |]. constructor; [by right | constructor].
    + destruct (IH i' (S j') ltac:(lia) ltac:(lia) ltac:(lia))
        as (E1 & E2 & El & Ef).
      rewrite !fmap_app, length_app. cbn [fmap list_fmap fst snd length].
      rewrite ungap_snoc_gap, ungap_snoc, E1, E2, Ex by done.
      split; [done |]. split; [done |]. split; [lia |].
      apply Forall_app. split; [done |]. constructor; [by left | constructor].
Qed.

(** On the matrix returned by [_alignment_matrix], [alignment] returns the
    last cell and the two sides of the aligned pairs. *)
Lemma alignment_of_matrix (self : PhoneticEditDistance W)
    (src tar : list A) (m : ndarray Q) :
  PhoneticEditDistance._alignment_matrix W ipa_to_features cmp_features
    self src tar = Ok m →
  PhoneticEditDistance.alignment gap W ipa_to_features cmp_features self src tar
  = Ok (cell 0%Q m (len src) (len tar),
        (aligned_pairs gap (length src + length tar) (cell 0%Q m) src tar
           (length src) (length tar)).*1,
        (aligned_pairs gap (length src + length tar) (cell 0%Q m) src tar
           (length src) (length tar)).*2).
Proof.
  intros Hm.
  pose proof (alignment_matrix_shape W ipa_to_features cmp_features
                self src tar m Hm) as Hsh.
  unfold PhoneticEditDistance.alignment. rewrite Hm. monad_step.
  rewrite (mat_get_ok 0%Q m _ _ _ _ Hsh) by (unfold len; lia). monad_step.
  unfold backtrace, len.
  rewrite (backtrace_from gap m src tar Hsh (length src + length tar))
    by lia.
  monad_step. cbn [app]. by rewrite !reverse_involutive.
Qed.

(** X13. When [alignment] returns and the gap marker occurs neither in
    [src] nor in [tar], the two aligned sequences without their gap markers
    are [src] and [tar]; they have the same length, between the greater of
    the two lengths and their sum; and no position has a gap marker on both
    sides. *)
Theorem alignment_round_trip (self : PhoneticEditDistance W)
    (src tar : list A) (d : Q) (sa ta : list A) :
  gap ∉ src → gap ∉ tar →
  PhoneticEditDistance.alignment gap W ipa_to_features cmp_features self src tar
  = Ok (d, sa, ta) →
  ungap sa = src ∧ ungap ta = tar
  ∧ length sa = length ta
  ∧ (Nat.max (length src) (length tar) ≤ length sa
     ≤ length src + length tar)%nat
  ∧ Forall2 (λ s t, s ≠ gap ∨ t ≠ gap) sa ta.
Proof.
  intros Hgs Hgt Hrun.
  destruct (PhoneticEditDistance._alignment_matrix W ipa_to_features
              cmp_features self src tar) as [m | e] eqn:Hm; cycle 1.
  { unfold PhoneticEditDistance.alignment in Hrun. rewrite Hm in Hrun.
    discriminate Hrun. }
  rewrite (alignment_of_matrix self src tar m Hm) in Hrun.
  injection Hrun as _ <- <-.
  destruct (aligned_pairs_sides (cell 0%Q m) src tar Hgs Hgt
              (length src + length tar) (length src) (length tar)
              ltac:(lia) ltac:(lia) ltac:(lia)) as (E1 & E2 & El & Ef).
  rewrite take_ge in E1, E2 by lia. rewrite !length_fmap.
  split; [done |]. split; [done |]. split; [done |]. split; [done |].
  apply Forall2_fmap, Forall_Forall2_diag. exact Ef.
Qed.

(** X14. With one feature code for each symbol, [dist_abs] and
    [alignment] return whenever the source is not longer than the target:
    the target is then never read out of range where the substitution is
    graded. *)
Theorem ped_returns_source_not_longer (self : PhoneticEditDistance W)
    (src tar : list A) :
  len (ipa_to_features src) = len src →
  len (ipa_to_features tar) = len tar →
  len src ≤ len tar →
  (∃ d, PhoneticEditDistance.dist_abs W ipa_to_features cmp_features
          self src tar = Ok d)
  ∧ (∃ d sa ta, PhoneticEditDistance.alignment gap W ipa_to_features
                  cmp_features self src tar = Ok (d, sa, ta)).
Proof.
  intros Hs Ht Hlen.
  destruct (alignment_matrix_filled W ipa_to_features cmp_features
              self src tar) as (m & Hm & _); [lia | lia | |].
  { intros i j Hi Hj Hne. lia. }
  split; [| rewrite (alignment_of_matrix self src tar m Hm); by eauto].
  pose proof (alignment_matrix_shape W ipa_to_features cmp_features
                self src tar m Hm) as Hsh.
  unfold PhoneticEditDistance.dist_abs.
  destruct (_cost W self) as [[[ins_cost del_cost] sub_cost] trans_cost].
  repeat case_bool_decide; [by eauto.. |].
  rewrite Hm. monad_step.
  rewrite (mat_get_ok 0%Q m _ _ _ _ Hsh) by (unfold len; lia). monad_step.
  destruct (Qeq_bool _ _); by eauto.
Qed.

End AlignmentFacts.

Lemma alignment_round_trip_witness :
  let self := PhoneticEditDistance_default unit tt in
  ungap char_gap (str "cat--") = str "cat"
  ∧ ungap char_gap (str "-hats") = str "hats"
  ∧ length (str "cat--") = length (str "-hats")
  ∧ (Nat.max (length (str "cat")) (length (str "hats"))
     ≤ length (str "cat--")
     ≤ length (str "cat") + length (str "hats"))%nat
  ∧ Forall2 (λ s t, s ≠ char_gap ∨ t ≠ char_gap) (str "cat--") (str "-hats").
Proof.
  eapply (alignment_round_trip char_gap unit char_features char_agreement
            (PhoneticEditDistance_default unit tt) (str "cat") (str "hats")).
  - apply (bool_decide_unpack _). by vm_compute.
  - apply (bool_decide_unpack _). by vm_compute.
  - vm_compute. reflexivity.
Defined.

Lemma ped_returns_source_not_longer_witness :
  let self := PhoneticEditDistance_default unit tt in
  (∃ d, PhoneticEditDistance.dist_abs unit char_features char_agreement
          self (str "cat") (str "hats") = Ok d)
  ∧ (∃ d sa ta, PhoneticEditDistance.alignment char_gap unit char_features
                  char_agreement self (str "cat") (str "hats")
                = Ok (d, sa, ta)).
Proof.
  apply (ped_returns_source_not_longer char_gap unit char_features
           char_agreement (PhoneticEditDistance_default unit tt)
           (str "cat") (str "hats")); by vm_compute.
Defined.
(** ** Bounds of the phonetic edit distance *)

Section PhoneticBounds.
Context `{EqDecision A}.
Variable W : Type.
Variable ipa_to_features : list A → list Z.
Variable cmp_features : Z → Z → W → Q.

(** With non-negative costs and an agreement between [0] and [1], a cell
    of the matrix lies between [0] and the cost of deleting the prefix of
    the source and inserting the prefix of the target. *)
Lemma ped_filled_bounds (self : PhoneticEditDistance W) (src tar : list Z)
    (n k : Z) (f : Z → Z → Q) :
  cost_ge 0 (_cost W self) →
  (∀ a b, (0 <= cmp_features a b (_weights W self) <= 1)%Q) →
  ped_filled W cmp_features self src tar n k f →
  ∀ i j, 0 ≤ i ≤ n → 0 ≤ j ≤ k →
         (0 <= f i j
          ∧ f i j <= inject_Z i * cost_del (_cost W self)
                     + inject_Z j * cost_ins (_cost W self))%Q.
Proof.
  intros Hc Hcmp (Hfc & Hfr & Hf).
  unfold ped_recurrence in Hf.
  destruct (_cost W self) as [[[ins_cost del_cost] sub_cost] trans_cost].
  destruct Hc as (Hi0 & Hd0 & Hs0 & Ht0). cbn [cost_ins cost_del] in *.
  intros i j [Hi Hin] [Hj Hjk]. revert i j Hi Hj Hin Hjk.
  apply (grid_ind (λ i j, i ≤ n → j ≤ k →
    (0 <= f i j
     ∧ f i j <= inject_Z i * del_cost + inject_Z j * ins_cost)%Q)).
  intros i j Hi Hj IH Hin Hjk.
  destruct (decide (i = 0)) as [-> | Hi1].
  { rewrite Hfr by lia. change (inject_Z 0) with 0%Q.
    pose proof (inject_Z_mul_nonneg j ins_cost Hj Hi0). split; lra. }
  destruct (decide (j = 0)) as [-> | Hj1].
  { rewrite Hfc by lia. change (inject_Z 0) with 0%Q.
    pose proof (inject_Z_mul_nonneg i del_cost Hi Hd0). split; lra. }
  destruct (IH i (j - 1) ltac:(lia) ltac:(lia) ltac:(lia) ltac:(lia)
              ltac:(lia)) as [A0 A1].
  destruct (IH (i - 1) j ltac:(lia) ltac:(lia) ltac:(lia) ltac:(lia)
              ltac:(lia)) as [B0 _].
  destruct (IH (i - 1) (j - 1) ltac:(lia) ltac:(lia) ltac:(lia) ltac:(lia)
              ltac:(lia)) as [C0 _].
  assert (inject_Z j == inject_Z (j - 1)%Z + 1)%Q as Ej.
  { change 1%Q with (inject_Z 1). rewrite <- inject_Z_plus.
    by replace (j - 1 + 1) with j by lia. }
  specialize (Hf (i - 1) (j - 1) ltac:(lia) ltac:(lia)).
  replace (i - 1 + 1) with i in Hf by lia.
  replace (j - 1 + 1) with j in Hf by lia.
  rewrite Hf. clear Hf. cbv zeta.
  set (sub := if bool_decide _ then _ else 0%Q).
  assert (0 <= sub)%Q as Hsub.
  { unfold sub. destruct (bool_decide _); [| lra].
    apply Qmult_le_0_compat; [done |].
    destruct (Hcmp (code_at src (i - 1)) (code_at tar (i - 1))). lra. }
  set (v := py_min _ [_; _]).
  assert (0 <= v ∧ v <= f i (j - 1)%Z + ins_cost)%Q as [V0 V1].
  { split; [| apply py_min_le_best].
    apply py_min_lower; [lra |]. forall_items ltac:(lra). }
  destruct (bool_decide (_mode W self = "osa"%string)
            && osa_guard src tar (i - 1) (j - 1)) eqn:Hg.
  - apply andb_prop in Hg as [_ [Hi2 Hj2]%osa_guard_ge_1].
    destruct (IH (i - 1 - 1) (j - 1 - 1) ltac:(lia) ltac:(lia) ltac:(lia)
                ltac:(lia) ltac:(lia)) as [Y0 _].
    split.
    + apply py_min_lower; [done |]. forall_items ltac:(lra).
    + eapply Qle_trans; [apply py_min_le_best |]. rewrite Ej. lra.
  - split; [done |]. rewrite Ej. lra.
Qed.

(** X15. With positive insert and delete costs, non-negative substitute
    and transpose costs and an agreement of the features between [0] and
    [1], whenever the source, with one feature code for each symbol, is not
    longer than the target, the phonetic distance lies between [0] and the
    cost of deleting all of [src] and inserting all of [tar], and the
    distance normalized by [max] is returned, without a division by zero,
    and lies between [0] and [2]. *)
Theorem ped_dist_bounds (self : PhoneticEditDistance W) (src tar : list A) :
  (0 < cost_ins (_cost W self))%Q → (0 < cost_del (_cost W self))%Q →
  cost_ge 0 (_cost W self) →
  (∀ a b, (0 <= cmp_features a b (_weights W self) <= 1)%Q) →
  _normalizer W self = py_max_list →
  len (ipa_to_features src) = len src →
  len (ipa_to_features tar) = len tar →
  len src ≤ len tar →
  ∃ d q,
    PhoneticEditDistance.dist_abs W ipa_to_features cmp_features self src tar
    = Ok d
    ∧ (0 <= d <= lenQ src * cost_del (_cost W self)
                 + lenQ tar * cost_ins (_cost W self))%Q
    ∧ PhoneticEditDistance.dist W ipa_to_features cmp_features self src tar
      = Ok q
    ∧ (0 <= q <= 2)%Q.
Proof.
  intros Hi0 Hd0 Hc Hcmp Hnorm Hs Ht Hlen.
  pose proof (lenQ_nonneg src) as Hls. pose proof (lenQ_nonneg tar) as Hlt.
  assert (0 <= lenQ src * cost_del (_cost W self))%Q as Ha
    by (apply Qmult_le_0_compat; lra).
  assert (0 <= lenQ tar * cost_ins (_cost W self))%Q as Hb
    by (apply Qmult_le_0_compat; lra).
  assert (∃ d, PhoneticEditDistance.dist_abs W ipa_to_features cmp_features
                 self src tar = Ok d
               ∧ (0 <= d <= lenQ src * cost_del (_cost W self)
                            + lenQ tar * cost_ins (_cost W self))%Q)
    as (d & Hd & Hd01).
  { destruct (alignment_matrix_filled W ipa_to_features cmp_features
                self src tar) as (m & Hm & Hfill); [lia | lia | |].
    { intros i j Hi Hj Hne. lia. }
    pose proof (alignment_matrix_shape W ipa_to_features cmp_features
                  self src tar m Hm) as Hsh.
    pose proof (ped_filled_bounds self _ _ _ _ _ Hc Hcmp Hfill
                  (len src) (len tar) ltac:(unfold len; lia)
                  ltac:(unfold len; lia)) as [V0 V1].
    fold (lenQ src) in V1. fold (lenQ tar) in V1.
    unfold PhoneticEditDistance.dist_abs.
    destruct (_cost W self) as [[[ins_cost del_cost] sub_cost] trans_cost].
    cbn [cost_ins cost_del] in *.
    repeat case_bool_decide.
    - eexists. split; [done |]. lra.
    - eexists. split; [done |]. lra.
    - eexists. split; [done |]. lra.
    - rewrite Hm. monad_step.
      rewrite (mat_get_ok 0%Q m _ _ _ _ Hsh) by (unfold len; lia). monad_step.
      destruct (Qeq_bool _ _) eqn:E.
      + apply Qeq_bool_eq in E. eexists. split; [done |]. rewrite E. lra.
      + eexists. split; [done |]. lra. }
  exists d. unfold PhoneticEditDistance.dist.
  destruct (decide (src = tar)) as [He | Hne].
  { exists 0%Q. rewrite bool_decide_eq_true_2 by done.
    repeat split; (done || lra). }
  rewrite bool_decide_eq_false_2 by done. rewrite Hd. monad_step.
  rewrite Hnorm. cbn [py_max_list].
  destruct (py_max_pair (lenQ src * cost_del (_cost W self))
              (lenQ tar * cost_ins (_cost W self))) as [[H1 H2] _].
  set (D := py_max _ _) in *.
  assert (0 < D)%Q as HD.
  { destruct (decide (src = [])) as [-> | Hs'].
    - pose proof (lenQ_pos tar ltac:(congruence)).
      assert (0 < lenQ tar * cost_ins (_cost W self))%Q
        by (apply Qmult_lt_0_compat; lra).
      lra.
    - pose proof (lenQ_pos src Hs').
      assert (0 < lenQ src * cost_del (_cost W self))%Q
        by (apply Qmult_lt_0_compat; lra).
      lra. }
  unfold truediv. destruct (Qeq_bool D 0) eqn:E.
  { apply Qeq_bool_eq in E. lra. }
  eexists. split; [done |]. split; [done |]. split; [done |]. split.
  - apply Qle_shift_div_l; lra.
  - apply Qle_shift_div_r; lra.
Qed.

End PhoneticBounds.

(** The stand-in agreement lies between [0] and [1]. *)
Lemma char_agreement_range (a b : Z) (w : unit) :
  (0 <= char_agreement a b w <= 1)%Q.
Proof.
  unfold char_agreement.
  assert (0 <= inject_Z (Z.abs (a - b)))%Q by (apply inject_Z_nonneg; lia).
  split.
  - apply Qle_shift_div_l; lra.
  - apply Qle_shift_div_r; lra.
Qed.

Lemma ped_dist_bounds_witness :
  let self := PhoneticEditDistance_default unit tt in
  ∃ d q,
    PhoneticEditDistance.dist_abs unit char_features char_agreement self
      (str "a") (str "z") = Ok d
    ∧ (0 <= d <= lenQ (str "a") * cost_del (_cost unit self)
                 + lenQ (str "z") * cost_ins (_cost unit self))%Q
    ∧ PhoneticEditDistance.dist unit char_features char_agreement self
        (str "a") (str "z") = Ok q
    ∧ (0 <= q <= 2)%Q.
Proof.
  apply (ped_dist_bounds unit char_features char_agreement
           (PhoneticEditDistance_default unit tt) (str "a") (str "z"));
    try (by vm_compute).
  intros a b. apply char_agreement_range.
Defined.

(** With the default costs the normalized phonetic distance of two
    symbols of low agreement is [2]: a deletion and an insertion, [0.6],
    over the cost of one of them, [0.3]. *)
Example ped_dist_reaches_2 :
  result_eq
    (PhoneticEditDistance.dist unit char_features char_agreement
       (PhoneticEditDistance_default unit tt) (str "a") (str "z"))
    (Ok 2%Q).
Proof. vm_compute. reflexivity. Qed.
(** * The constructor of [PhoneticEditDistance] *)

(** ** The order of the features *)

Lemma insert_desc_perm (x : string * Z) (l : list (string * Z)) :
  insert_desc x l ≡ₚ x :: l.
Proof.
  induction l as [| y l IH]; cbn; [done |].
  case_bool_decide; [| done]. rewrite IH. apply Permutation_swap.
Qed.

Lemma sorted_desc_perm (l : list (string * Z)) : sorted_desc l ≡ₚ l.
Proof.
  induction l as [| x l IH]; cbn; [done |].
  by rewrite insert_desc_perm, IH.
Qed.

Lemma sorted_desc_length (l : list (string * Z)) :
  length (sorted_desc l) = length l.
Proof. by rewrite sorted_desc_perm. Qed.

Lemma insert_desc_sorted (x : string * Z) (l : list (string * Z)) :
  StronglySorted (λ a b, b.2 ≤ a.2) l →
  StronglySorted (λ a b, b.2 ≤ a.2) (insert_desc x l).
Proof.
  induction 1 as [| y l Hl IH Hy]; cbn.
  { repeat constructor. }
  case_bool_decide as Hlt.
  - constructor; [done |].
    rewrite insert_desc_perm. constructor; [lia | done].
  - constructor; [by constructor |].
    constructor; [lia |].
    eapply Forall_impl; [exact Hy |]. cbn. intros z Hz. lia.
Qed.

Lemma sorted_desc_sorted (l : list (string * Z)) :
  StronglySorted (λ a b, b.2 ≤ a.2) (sorted_desc l).
Proof.
  induction l as [| x l IH]; cbn; [constructor |].
  by apply insert_desc_sorted.
Qed.

(** The sort is stable: of two items of the same mask the first in the
    dictionary comes first. *)
Lemma insert_desc_filter (x : string * Z) (l : list (string * Z)) (v : Z) :
  filter (λ p, p.2 = v) (insert_desc x l)
  = filter (λ p, p.2 = v) (x :: l).
Proof.
  induction l as [| y l IH]; cbn; [done |].
  case_bool_decide as Hlt; [| done].
  rewrite (filter_cons _ y), IH, !filter_cons.
  repeat case_decide; (done || lia).
Qed.

Lemma sorted_desc_stable (l : list (string * Z)) (v : Z) :
  filter (λ p, p.2 = v) (sorted_desc l) = filter (λ p, p.2 = v) l.
Proof.
  induction l as [| x l IH]; [done |].
  change (sorted_desc (x :: l)) with (insert_desc x (sorted_desc l)).
  by rewrite insert_desc_filter, !filter_cons, IH.
Qed.

(** ** What [__init__] stores *)

Section PhoneticInitFacts.
Variable _FEATURE_MASK : list (string * Z).
Variables (mode : string) (cost : cost_t) (normalizer : list Q → Q).

Abbreviation stored w :=
  (_weights weights_arg (__init__ _FEATURE_MASK mode cost normalizer w)).

(** X16. What [__init__] stores as the weights.  [None], an empty list or
    tuple and an empty dictionary are stored unchanged: an empty list is
    not padded and an empty dictionary is not turned into a list.  A
    non-empty list or tuple is stored with zeros appended up to the number
    of features, and is never cut: a list with more weights than features
    is stored as it is.  A non-empty dictionary is stored as the list of
    one weight for each feature, by decreasing mask of the features and
    for equal masks in the order of [_FEATURE_MASK]: the weight given for
    the feature, or [0]; a weight given for a key that is no feature is
    dropped. *)
Theorem init_weights :
  stored WNone = WNone
  ∧ stored (WSeq []) = WSeq []
  ∧ stored (WDict ∅) = WDict ∅
  ∧ (∀ l, l ≠ [] →
       ∃ l', stored (WSeq l) = WSeq l'
             ∧ len l' = Z.max (len l) (len _FEATURE_MASK)
             ∧ take (length l) l' = l
             ∧ ∀ i, (length l ≤ i < length l')%nat → l' !! i = Some 0%Q)
  ∧ (∀ d, d ≠ ∅ →
       ∃ l', stored (WDict d) = WSeq l'
             ∧ length l' = length _FEATURE_MASK
             ∧ (∀ i feature,
                  features_by_mask _FEATURE_MASK !! i = Some feature →
                  l' !! i = Some (default 0%Q (d !! feature))))
  ∧ sorted_desc _FEATURE_MASK ≡ₚ _FEATURE_MASK
  ∧ StronglySorted (λ a b, b.2 ≤ a.2) (sorted_desc _FEATURE_MASK)
  ∧ (∀ v, filter (λ p, p.2 = v) (sorted_desc _FEATURE_MASK)
          = filter (λ p, p.2 = v) _FEATURE_MASK).
Proof.
  split; [done |]. split; [done |]. split; [done |].
  split; [| split; [| split; [| split]]].
  - intros l Hl. eexists. split.
    { cbn. by rewrite (bool_decide_eq_false_2 (l = [])). }
    split; [| split].
    + unfold len. rewrite length_app, length_replicate. lia.
    + by rewrite take_app_length.
    + intros i Hi. rewrite length_app, length_replicate in Hi.
      rewrite lookup_app_r by lia. apply lookup_replicate_2. lia.
  - intros d Hd. eexists. split.
    { cbn. by rewrite (bool_decide_eq_false_2 (d = ∅)). }
    split.
    + unfold features_by_mask. by rewrite !length_fmap, sorted_desc_length.
    + intros i feature Hf. by rewrite list_lookup_fmap, Hf.
  - apply sorted_desc_perm.
  - apply sorted_desc_sorted.
  - apply sorted_desc_stable.
Qed.

End PhoneticInitFacts.

(** The instance made by [PhoneticEditDistance()] is the default one. *)
Example init_default (mask : list (string * Z)) :
  __init__ mask "lev" ((3 # 10)%Q, (3 # 10)%Q, 1%Q, (1 # 10)%Q)
    py_max_list WNone
  = PhoneticEditDistance_default weights_arg WNone.
Proof. reflexivity. Qed.
(** ** The distance returned by [alignment] and by [dist_abs] *)

Section AlignmentDistance.
Context `{EqDecision A}.
Variable gap : A.
Variable W : Type.
Variable ipa_to_features : list A → list Z.
Variable cmp_features : Z → Z → W → Q.

(** With non-negative costs and an agreement between [0] and [1], the
    matrix of a sequence against itself is [0] on its diagonal. *)
Lemma ped_filled_diag_zero (self : PhoneticEditDistance W) (src : list Z)
    (n : Z) (f : Z → Z → Q) :
  cost_ge 0 (_cost W self) →
  (∀ a b, (0 <= cmp_features a b (_weights W self) <= 1)%Q) →
  ped_filled W cmp_features self src src n n f →
  ∀ i : nat, Z.of_nat i ≤ n → (f (Z.of_nat i) (Z.of_nat i) == 0)%Q.
Proof.
  intros Hc Hcmp Hfill.
  pose proof (ped_filled_bounds W cmp_features self src src n n f
                Hc Hcmp Hfill) as Hb.
  destruct Hfill as (Hfc & Hfr & Hf). unfold ped_recurrence in Hf.
  destruct (_cost W self) as [[[ins_cost del_cost] sub_cost] trans_cost].
  destruct Hc as (Hi0 & Hd0 & Hs0 & Ht0). cbn [cost_ins cost_del] in *.
  induction i as [| i IH]; intros Hi.
  { rewrite Hfr by lia. change (inject_Z (Z.of_nat 0)) with 0%Q. ring. }
  rewrite Nat2Z.inj_succ. unfold Z.succ. rewrite Hf by lia. cbv zeta.
  specialize (IH ltac:(lia)).
  rewrite (bool_decide_eq_false_2 (sym src (Z.of_nat i) ≠ sym src (Z.of_nat i)))
    by (intros Hne; by apply Hne).
  destruct (Hb (Z.of_nat i + 1) (Z.of_nat i) ltac:(lia) ltac:(lia)) as [A0 _].
  destruct (Hb (Z.of_nat i) (Z.of_nat i + 1) ltac:(lia) ltac:(lia)) as [B0 _].
  set (v := py_min _ [_; _]).
  assert (v == 0)%Q as Hv.
  { apply Qle_antisym.
    - eapply Qle_trans;
        [apply (py_min_le_elem _ (f (Z.of_nat i) (Z.of_nat i) + 0)%Q); in_list |].
      rewrite IH. lra.
    - apply py_min_lower; [lra |]. forall_items ltac:(lra). }
  destruct (bool_decide (_mode W self = "osa"%string)
            && osa_guard src src (Z.of_nat i) (Z.of_nat i)) eqn:Hg; [| done].
  apply andb_prop in Hg as [_ [Hi2 Hj2]%osa_guard_ge_1].
  destruct (Hb (Z.of_nat i - 1) (Z.of_nat i - 1) ltac:(lia) ltac:(lia))
    as [Y0 _].
  apply Qle_antisym.
  - eapply Qle_trans; [apply py_min_le_best |]. lra.
  - apply py_min_lower; [lra |]. forall_items ltac:(lra).
Qed.

(** X17. With non-negative costs, an agreement of the features between
    [0] and [1] and one feature code for each symbol: when [alignment]
    returns, [dist_abs] returns too, and the distance that [alignment]
    reads in the last cell of the matrix is the distance of [dist_abs],
    also where [dist_abs] takes one of its three fast paths and builds no
    matrix. *)
Theorem alignment_distance_is_dist_abs (self : PhoneticEditDistance W)
    (src tar : list A) (d : Q) (sa ta : list A) :
  cost_ge 0 (_cost W self) →
  (∀ a b, (0 <= cmp_features a b (_weights W self) <= 1)%Q) →
  len (ipa_to_features src) = len src →
  len (ipa_to_features tar) = len tar →
  PhoneticEditDistance.alignment gap W ipa_to_features cmp_features self src tar
  = Ok (d, sa, ta) →
  ∃ d', PhoneticEditDistance.dist_abs W ipa_to_features cmp_features
          self src tar = Ok d'
        ∧ (d' == d)%Q.
Proof.
  intros Hc Hcmp Hs Ht Hrun.
  destruct (PhoneticEditDistance._alignment_matrix W ipa_to_features
              cmp_features self src tar) as [m | e] eqn:Hm; cycle 1.
  { unfold PhoneticEditDistance.alignment in Hrun. rewrite Hm in Hrun.
    discriminate Hrun. }
  rewrite (alignment_of_matrix gap W ipa_to_features cmp_features
             self src tar m Hm) in Hrun.
  injection Hrun as <- _ _.
  pose proof (alignment_matrix_shape W ipa_to_features cmp_features
                self src tar m Hm) as Hsh.
  assert ((src = tar ∨ src = [] ∨ tar = []) →
          ped_filled W cmp_features self
            (ipa_to_features src) (ipa_to_features tar)
            (len src) (len tar) (cell 0%Q m)) as Hfill.
  { intros Hcase.
    destruct (alignment_matrix_filled W ipa_to_features cmp_features
                self src tar) as (m' & Hm' & Hf); [lia | lia | |].
    { intros i j Hi Hj Hne.
      destruct Hcase as [-> | [-> | ->]];
        [lia | unfold len in Hi; cbn in Hi; lia
        | unfold len in Hj; cbn in Hj; lia]. }
    rewrite Hm in Hm'. by injection Hm' as ->. }
  unfold PhoneticEditDistance.dist_abs.
  destruct (_cost W self) as [[[ins_cost del_cost] sub_cost] trans_cost]
    eqn:Hcost.
  destruct (decide (src = tar)) as [He | Hne].
  { rewrite bool_decide_eq_true_2 by done. exists 0%Q. split; [done |].
    specialize (Hfill (or_introl He)). subst tar.
    pose proof (ped_filled_diag_zero self (ipa_to_features src) (len src)
                  (cell 0%Q m)) as Hz.
    rewrite Hcost in Hz. specialize (Hz Hc Hcmp Hfill (length src)).
    symmetry. apply Hz. unfold len. lia. }
  rewrite (bool_decide_eq_false_2 (src = tar)) by done.
  destruct (decide (src = [])) as [Hs0 | Hs0].
  { rewrite bool_decide_eq_true_2 by done. eexists. split; [done |].
    destruct (Hfill (or_intror (or_introl Hs0))) as (_ & Hfr & _).
    subst src. change (len []) with 0.
    rewrite Hfr by (unfold len; lia). rewrite Hcost. cbn [cost_ins].
    unfold lenQ. ring. }
  rewrite (bool_decide_eq_false_2 (src = [])) by done.
  destruct (decide (tar = [])) as [Ht0 | Ht0].
  { rewrite bool_decide_eq_true_2 by done. eexists. split; [done |].
    destruct (Hfill (or_intror (or_intror Ht0))) as (Hfc & _ & _).
    subst tar. change (len []) with 0.
    assert (1 ≤ len src) by (unfold len; destruct src; cbn; [done | lia]).
    rewrite Hfc by lia. rewrite Hcost. cbn [cost_del]. unfold lenQ. ring. }
  rewrite (bool_decide_eq_false_2 (tar = [])) by done.
  rewrite Hm. monad_step.
  rewrite (mat_get_ok 0%Q m _ _ _ _ Hsh) by (unfold len; lia). monad_step.
  destruct (Qeq_bool _ _) eqn:E.
  - apply Qeq_bool_eq in E. eexists. split; [done |]. exact E.
  - eexists. split; [done |]. reflexivity.
Qed.

End AlignmentDistance.

Lemma alignment_distance_is_dist_abs_witness :
  let self := PhoneticEditDistance_default unit tt in
  ∃ d', PhoneticEditDistance.dist_abs unit char_features char_agreement
          self (str "cat") (str "hats") = Ok d'
        ∧ (d' == 900 # 1000)%Q.
Proof.
  eapply (alignment_distance_is_dist_abs char_gap unit char_features
            char_agreement (PhoneticEditDistance_default unit tt)
            (str "cat") (str "hats")).
  - repeat split; by vm_compute.
  - intros a b. apply char_agreement_range.
  - reflexivity.
  - reflexivity.
  - vm_compute. reflexivity.
Defined.
